(** * dump_udp_ow_11: the capture-to-disk pipeline of iLiSA's beamformed
    stream recorder, embedded from
    [src/ilisa/observations/beamformedstreams/dump_udp_ow_11.c].

    The file follows the C source top to bottom: machine integers, the
    virtual ring buffer ([struct vrb] and its four accessors), the
    LOFAR packet header and [beamformed_packno], the global variables shared
    by the two threads, [signal_handler], [init_thisfilestat] and
    [start_file], the body of [producer], the handling of [--Maxfilesize] in
    [main] and the body of [consumer].  The two threads and the signals are
    interleaved at the granularity of the source's lock regions: a run is a
    list of events that a step function executes one after the other.  The
    statistics, which the threads read and write with no lock held, are
    interleaved a second time access by access.  The option loop and the
    list of ports of [main] and the contents of the ring buffer behind its
    doubled mapping follow the invariants of a run.  The definitions come
    first, their properties second. *)

From Stdlib Require Import ZArith Lia QArith Sorted.
From stdpp Require Import base list numbers.
Local Open Scope Z_scope.

(** ** Machine integers

    [long] is the 64-bit two's complement integer of the LP64 targets the
    program is built for, [int] the 32-bit one.  Arithmetic on them is written
    with its wrap-around; division and remainder truncate towards zero as C's
    [/] and [%] do. *)

Module CInt.

Definition wrap (w : Z) (z : Z) : Z :=
  (z + 2 ^ (w - 1)) mod 2 ^ w - 2 ^ (w - 1).

Definition wrap64 : Z -> Z := wrap 64.
Definition wrap32 : Z -> Z := wrap 32.

Definition LONG_MAX : Z := 2 ^ 63 - 1.
Definition LONG_MIN : Z := - 2 ^ 63.
Definition INT_MAX : Z := 2 ^ 31 - 1.
Definition INT_MIN : Z := - 2 ^ 31.

Definition in_long (z : Z) : Prop := LONG_MIN <= z <= LONG_MAX.
Definition in_int (z : Z) : Prop := INT_MIN <= z <= INT_MAX.

Definition long_add (a b : Z) : Z := wrap64 (a + b).
Definition long_sub (a b : Z) : Z := wrap64 (a - b).
Definition long_mul (a b : Z) : Z := wrap64 (a * b).
Definition long_div (a b : Z) : Z := wrap64 (Z.quot a b).
Definition long_rem (a b : Z) : Z := Z.rem a b.

Definition int_add (a b : Z) : Z := wrap32 (a + b).
Definition int_mul (a b : Z) : Z := wrap32 (a * b).

End CInt.
Import CInt.

(** ** The virtual ring buffer

    [struct vrb]: the mapped memory itself ([buff]) and the name of the backing
    file are left out; a pointer into the buffer is its offset from [buff],
    and [NULL] is [None]. *)

Record vrb : Type := mk_vrb {
  fillsize : Z;   (* bytes in buffer *)
  front : Z;      (* older end (take away data from here) *)
  rear : Z;       (* newer end (add new data here) *)
  totsize : Z     (* total size of buffer *)
}.

(** [init_vrb]: [pagesize] is what [getpagesize ()] returned; the size is
    promoted to the next full page. *)
Definition init_vrb (minsize pagesize : Z) : vrb :=
  {| fillsize := 0; front := 0; rear := 0;
     totsize := long_mul (long_div (long_sub (long_add minsize pagesize) 1) pagesize) pagesize |}.

Definition vrb_poi_new (v : vrb) (thissize : Z) : option Z :=
  if long_add (fillsize v) thissize >? totsize v   (* not enough space *)
  then None
  else Some (rear v).

Definition vrb_advance_new (v : vrb) (thissize : Z) : vrb :=
  {| rear := long_rem (long_add (rear v) thissize) (totsize v);
     fillsize := long_add (fillsize v) thissize;
     front := front v; totsize := totsize v |}.

Definition vrb_poi_old (v : vrb) : option Z :=
  if fillsize v =? 0   (* nothing in buffer *)
  then None
  else Some (front v).

Definition vrb_advance_old (v : vrb) (thissize : Z) : vrb :=
  {| front := long_rem (long_add (front v) thissize) (totsize v);
     fillsize := long_sub (fillsize v) thissize;
     rear := rear v; totsize := totsize v |}.

(** The calling protocol of the four accessors.  A successful
    [vrb_poi_new v n] leaves a reservation of [n] bytes; [vrb_advance_new]
    is only called for the reserved size.  The consumer's calls
    ([vrb_poi_old], [vrb_advance_old]) may fall between the two, as they do
    when the threads run in parallel; they only free space.  The callers pass
    the byte count as a non-negative [int], and [vrb_advance_old] never takes
    more than is stored. *)
Inductive vrb_op : Type :=
  | PoiNew (n : Z)
  | AdvanceNew (n : Z)
  | PoiOld
  | AdvanceOld (n : Z).

Definition vrb_step (op : vrb_op) (st : vrb * option Z) : option (vrb * option Z) :=
  let '(v, reserved) := st in
  match op with
  | PoiNew n =>
      if (n <? 0) || (INT_MAX <? n) then None
      else match vrb_poi_new v n with
           | Some _ => Some (v, Some n)
           | None => Some (v, None)
           end
  | AdvanceNew n =>
      match reserved with
      | Some m => if n =? m then Some (vrb_advance_new v n, None) else None
      | None => None
      end
  | PoiOld => Some (v, reserved)
  | AdvanceOld n =>
      if (0 <=? n) && (n <=? fillsize v)
      then Some (vrb_advance_old v n, reserved)
      else None
  end.

Fixpoint vrb_run (ops : list vrb_op) (st : vrb * option Z) : option (vrb * option Z) :=
  match ops with
  | [] => Some st
  | op :: ops' =>
      match vrb_step op st with
      | Some st' => vrb_run ops' st'
      | None => None
      end
  end.

(** The invariant of the ring buffer, and the side conditions under which the
    C arithmetic stays in range: the doubled mapping of [2*totsize] bytes
    must itself be addressable. *)
Definition vrb_inv (v : vrb) : Prop :=
  0 <= fillsize v <= totsize v /\
  rear v = (front v + fillsize v) mod totsize v.

Definition vrb_wf (v : vrb) : Prop :=
  0 < totsize v /\ 2 * totsize v <= LONG_MAX /\ 0 <= front v < totsize v.

Definition vrb_reserved_ok (v : vrb) (reserved : option Z) : Prop :=
  match reserved with
  | Some n => 0 <= n /\ fillsize v + n <= totsize v
  | None => True
  end.

Definition vrb_init_ok (minsize pagesize : Z) : Prop :=
  0 < minsize /\ 0 < pagesize /\ 2 * (minsize + pagesize) <= LONG_MAX.

(** ** The LOFAR packet header

    [struct header_lofar] is packed: byte 0 is [version], bytes 1 and 2 hold
    the bit fields of [source] (allocated from the least significant bit, the
    16-bit word little-endian), byte 3 is [config], bytes 4-5 [station],
    bytes 6 and 7 [num_beamlets] and [num_slices], bytes 8-11 and 12-15 the
    signed 32-bit [timestamp] and [sequence]. *)

Record header_lofar : Type := mk_header {
  version : Z;
  rsp_id : Z;      (* 5 bits; this and the next five are [source] *)
  unused1 : Z;     (* 1 bit *)
  error : Z;       (* 1 bit *)
  is200mhz : Z;    (* 1 bit *)
  bm : Z;          (* 2 bits *)
  unused2 : Z;     (* 6 bits *)
  hconfig : Z;     (* the field [config] *)
  station : Z;
  num_beamlets : Z;
  num_slices : Z;
  timestamp : Z;   (* int32_t *)
  sequence : Z     (* int32_t *)
}.

Definition byte_at (buff : list Z) (k : nat) : Z := Z.land (buff !!! k) 255.

Definition le16 (buff : list Z) (k : nat) : Z :=
  Z.lor (byte_at buff k) (Z.shiftl (byte_at buff (k + 1)) 8).

Definition le32 (buff : list Z) (k : nat) : Z :=
  Z.lor (le16 buff k) (Z.shiftl (le16 buff (k + 2)) 16).

Definition bits (word : Z) (lo width : Z) : Z :=
  Z.land (Z.shiftr word lo) (Z.ones width).

(** The cast [(struct header_lofar* )buff2] of the producer. *)
Definition header_of_bytes (buff2 : list Z) : header_lofar :=
  let source_int := le16 buff2 1 in
  {| version := byte_at buff2 0;
     rsp_id := bits source_int 0 5;
     unused1 := bits source_int 5 1;
     error := bits source_int 6 1;
     is200mhz := bits source_int 7 1;
     bm := bits source_int 8 2;
     unused2 := bits source_int 10 6;
     hconfig := byte_at buff2 3;
     station := le16 buff2 4;
     num_beamlets := byte_at buff2 6;
     num_slices := byte_at buff2 7;
     timestamp := wrap32 (le32 buff2 8);
     sequence := wrap32 (le32 buff2 12) |}.

(** The fields [beamformed_packno] and [beamformed_checkpack] read lie in
    the ranges of their C types. *)
Definition header_wf (h : header_lofar) : Prop :=
  in_int (timestamp h) /\ in_int (sequence h) /\
  0 <= is200mhz h <= 1 /\ 0 <= error h <= 1.

(** [beamformed_packno]: the multiplication is done in [long] because of the
    constant [1000000l]; [160+40*is200mhz] is an [int] expression. *)
Definition beamformed_packno (header : header_lofar) : Z :=
  long_div
    (long_add
       (long_div
          (long_add
             (long_mul (long_mul (timestamp header) 1000000)
                       (int_add 160 (int_mul 40 (is200mhz header))))
             512)
          1024)
       (sequence header))
    16.

Definition beamformed_checkpack (header : header_lofar) : bool :=
  (error header =? 0) && negb (timestamp header =? -1).

(** The packet number as the specification words it: the division by 1024,
    then by 16, with [sequence / 16] added as a separate truncated term. *)
Definition packno_spec_formula (header : header_lofar) : Z :=
  Z.quot (Z.quot (timestamp header * 1000000 * (160 + 40 * is200mhz header) + 512) 1024) 16
  + Z.quot (sequence header) 16.

(** The packet number as the source computes it, without the machine
    arithmetic: [sequence] is added before the one division by 16. *)
Definition packno_formula (header : header_lofar) : Z :=
  Z.quot (Z.quot (timestamp header * 1000000 * (160 + 40 * is200mhz header) + 512) 1024
          + sequence header) 16.

(** ** Configuration

    The options are fixed by [main] before the two threads start and are
    never written afterwards, so they are gathered in a record of their own.
    Flags that the source keeps in an [int] and only ever sets to 0 or 1 are
    booleans.  [devnull] says that the output name is the exact string
    [/dev/null]; [start_given] that [--Start] was used, in which case [main]
    opens the first file itself; [bufsize] and [pagesize] are the arguments
    [init_vrb] gets. *)

Definition MAXNSOCK : Z := 12.
Definition MMAXLEN : Z := 10000.

Definition SIGHUP : Z := 1.
Definition SIGINT : Z := 2.
Definition SIGALRM : Z := 14.
Definition SIGTERM : Z := 15.

Record config : Type := mk_config {
  packlen : Z;
  do_blocklen : bool;
  beamformed_check : bool;
  maxwrite : Z;
  nsock : Z;
  portnos : list Z;
  maxfilesize : Q;
  stat_per_splitfile : bool;
  devnull : bool;
  start_given : bool;
  bufsize : Z;
  pagesize : Z
}.

(** [nsock==1 && portnos[0]==0]: then read stdin. *)
Definition stdin_mode (cfg : config) : bool :=
  (nsock cfg =? 1) && (portnos cfg !!! 0%nat =? 0).

(** ** Global variables

    The statistics that [init_thisfilestat] resets are one record, the rest
    of the shared variables another.  [sum_filllevel], a [double] that is only
    printed, is left out.  An open [FILE*] is the list of the sizes of the
    writes made to it so far, oldest first; [NULL] is [None].  [disk] collects
    the files that were closed, [data_available] and [space_available] count
    the calls of [pthread_cond_signal] on the two conditions. *)

Record stats : Type := mk_stats {
  totlen : Z;
  lasttotlen : Z;
  maxsize : Z;
  n_filllevel : Z;
  packs_seen : list Z;
  packs_dropped : list Z;
  bytes_written : list Z;
  beamformed_good_packs : list Z;
  beamformed_first_packno : list Z;
  beamformed_last_packno : list Z;
  last_packs_dropped : list Z;
  last_packs_expected : list Z;
  last_packs_seen : list Z;
  last_good_packs : list Z
}.

Record state : Type := mk_state {
  ringbuffer : vrb;
  stopped : Z;
  outf : option (list Z);
  bytes_written_thisfile : Z;
  filenumber : Z;
  stat : stats;
  disk : list (list Z);
  data_available : nat;
  space_available : nat
}.

Definition set_totlen (x : Z) (s : stats) : stats :=
  {| totlen := x; lasttotlen := lasttotlen s; maxsize := maxsize s;
     n_filllevel := n_filllevel s; packs_seen := packs_seen s;
     packs_dropped := packs_dropped s; bytes_written := bytes_written s;
     beamformed_good_packs := beamformed_good_packs s;
     beamformed_first_packno := beamformed_first_packno s;
     beamformed_last_packno := beamformed_last_packno s;
     last_packs_dropped := last_packs_dropped s;
     last_packs_expected := last_packs_expected s;
     last_packs_seen := last_packs_seen s;
     last_good_packs := last_good_packs s |}.

Definition set_lasttotlen (x : Z) (s : stats) : stats :=
  {| totlen := totlen s; lasttotlen := x; maxsize := maxsize s;
     n_filllevel := n_filllevel s; packs_seen := packs_seen s;
     packs_dropped := packs_dropped s; bytes_written := bytes_written s;
     beamformed_good_packs := beamformed_good_packs s;
     beamformed_first_packno := beamformed_first_packno s;
     beamformed_last_packno := beamformed_last_packno s;
     last_packs_dropped := last_packs_dropped s;
     last_packs_expected := last_packs_expected s;
     last_packs_seen := last_packs_seen s;
     last_good_packs := last_good_packs s |}.

Definition set_maxsize (x : Z) (s : stats) : stats :=
  {| totlen := totlen s; lasttotlen := lasttotlen s; maxsize := x;
     n_filllevel := n_filllevel s; packs_seen := packs_seen s;
     packs_dropped := packs_dropped s; bytes_written := bytes_written s;
     beamformed_good_packs := beamformed_good_packs s;
     beamformed_first_packno := beamformed_first_packno s;
     beamformed_last_packno := beamformed_last_packno s;
     last_packs_dropped := last_packs_dropped s;
     last_packs_expected := last_packs_expected s;
     last_packs_seen := last_packs_seen s;
     last_good_packs := last_good_packs s |}.

Definition set_n_filllevel (x : Z) (s : stats) : stats :=
  {| totlen := totlen s; lasttotlen := lasttotlen s; maxsize := maxsize s;
     n_filllevel := x; packs_seen := packs_seen s;
     packs_dropped := packs_dropped s; bytes_written := bytes_written s;
     beamformed_good_packs := beamformed_good_packs s;
     beamformed_first_packno := beamformed_first_packno s;
     beamformed_last_packno := beamformed_last_packno s;
     last_packs_dropped := last_packs_dropped s;
     last_packs_expected := last_packs_expected s;
     last_packs_seen := last_packs_seen s;
     last_good_packs := last_good_packs s |}.

Definition set_packs_seen (x : list Z) (s : stats) : stats :=
  {| totlen := totlen s; lasttotlen := lasttotlen s; maxsize := maxsize s;
     n_filllevel := n_filllevel s; packs_seen := x;
     packs_dropped := packs_dropped s; bytes_written := bytes_written s;
     beamformed_good_packs := beamformed_good_packs s;
     beamformed_first_packno := beamformed_first_packno s;
     beamformed_last_packno := beamformed_last_packno s;
     last_packs_dropped := last_packs_dropped s;
     last_packs_expected := last_packs_expected s;
     last_packs_seen := last_packs_seen s;
     last_good_packs := last_good_packs s |}.

Definition set_packs_dropped (x : list Z) (s : stats) : stats :=
  {| totlen := totlen s; lasttotlen := lasttotlen s; maxsize := maxsize s;
     n_filllevel := n_filllevel s; packs_seen := packs_seen s;
     packs_dropped := x; bytes_written := bytes_written s;
     beamformed_good_packs := beamformed_good_packs s;
     beamformed_first_packno := beamformed_first_packno s;
     beamformed_last_packno := beamformed_last_packno s;
     last_packs_dropped := last_packs_dropped s;
     last_packs_expected := last_packs_expected s;
     last_packs_seen := last_packs_seen s;
     last_good_packs := last_good_packs s |}.

Definition set_bytes_written (x : list Z) (s : stats) : stats :=
  {| totlen := totlen s; lasttotlen := lasttotlen s; maxsize := maxsize s;
     n_filllevel := n_filllevel s; packs_seen := packs_seen s;
     packs_dropped := packs_dropped s; bytes_written := x;
     beamformed_good_packs := beamformed_good_packs s;
     beamformed_first_packno := beamformed_first_packno s;
     beamformed_last_packno := beamformed_last_packno s;
     last_packs_dropped := last_packs_dropped s;
     last_packs_expected := last_packs_expected s;
     last_packs_seen := last_packs_seen s;
     last_good_packs := last_good_packs s |}.

Definition set_beamformed_good_packs (x : list Z) (s : stats) : stats :=
  {| totlen := totlen s; lasttotlen := lasttotlen s; maxsize := maxsize s;
     n_filllevel := n_filllevel s; packs_seen := packs_seen s;
     packs_dropped := packs_dropped s; bytes_written := bytes_written s;
     beamformed_good_packs := x;
     beamformed_first_packno := beamformed_first_packno s;
     beamformed_last_packno := beamformed_last_packno s;
     last_packs_dropped := last_packs_dropped s;
     last_packs_expected := last_packs_expected s;
     last_packs_seen := last_packs_seen s;
     last_good_packs := last_good_packs s |}.

Definition set_beamformed_first_packno (x : list Z) (s : stats) : stats :=
  {| totlen := totlen s; lasttotlen := lasttotlen s; maxsize := maxsize s;
     n_filllevel := n_filllevel s; packs_seen := packs_seen s;
     packs_dropped := packs_dropped s; bytes_written := bytes_written s;
     beamformed_good_packs := beamformed_good_packs s;
     beamformed_first_packno := x;
     beamformed_last_packno := beamformed_last_packno s;
     last_packs_dropped := last_packs_dropped s;
     last_packs_expected := last_packs_expected s;
     last_packs_seen := last_packs_seen s;
     last_good_packs := last_good_packs s |}.

Definition set_beamformed_last_packno (x : list Z) (s : stats) : stats :=
  {| totlen := totlen s; lasttotlen := lasttotlen s; maxsize := maxsize s;
     n_filllevel := n_filllevel s; packs_seen := packs_seen s;
     packs_dropped := packs_dropped s; bytes_written := bytes_written s;
     beamformed_good_packs := beamformed_good_packs s;
     beamformed_first_packno := beamformed_first_packno s;
     beamformed_last_packno := x;
     last_packs_dropped := last_packs_dropped s;
     last_packs_expected := last_packs_expected s;
     last_packs_seen := last_packs_seen s;
     last_good_packs := last_good_packs s |}.

Definition set_last_packs_dropped (x : list Z) (s : stats) : stats :=
  {| totlen := totlen s; lasttotlen := lasttotlen s; maxsize := maxsize s;
     n_filllevel := n_filllevel s; packs_seen := packs_seen s;
     packs_dropped := packs_dropped s; bytes_written := bytes_written s;
     beamformed_good_packs := beamformed_good_packs s;
     beamformed_first_packno := beamformed_first_packno s;
     beamformed_last_packno := beamformed_last_packno s;
     last_packs_dropped := x; last_packs_expected := last_packs_expected s;
     last_packs_seen := last_packs_seen s;
     last_good_packs := last_good_packs s |}.

Definition set_last_packs_expected (x : list Z) (s : stats) : stats :=
  {| totlen := totlen s; lasttotlen := lasttotlen s; maxsize := maxsize s;
     n_filllevel := n_filllevel s; packs_seen := packs_seen s;
     packs_dropped := packs_dropped s; bytes_written := bytes_written s;
     beamformed_good_packs := beamformed_good_packs s;
     beamformed_first_packno := beamformed_first_packno s;
     beamformed_last_packno := beamformed_last_packno s;
     last_packs_dropped := last_packs_dropped s; last_packs_expected := x;
     last_packs_seen := last_packs_seen s;
     last_good_packs := last_good_packs s |}.

Definition set_last_packs_seen (x : list Z) (s : stats) : stats :=
  {| totlen := totlen s; lasttotlen := lasttotlen s; maxsize := maxsize s;
     n_filllevel := n_filllevel s; packs_seen := packs_seen s;
     packs_dropped := packs_dropped s; bytes_written := bytes_written s;
     beamformed_good_packs := beamformed_good_packs s;
     beamformed_first_packno := beamformed_first_packno s;
     beamformed_last_packno := beamformed_last_packno s;
     last_packs_dropped := last_packs_dropped s;
     last_packs_expected := last_packs_expected s; last_packs_seen := x;
     last_good_packs := last_good_packs s |}.

Definition set_last_good_packs (x : list Z) (s : stats) : stats :=
  {| totlen := totlen s; lasttotlen := lasttotlen s; maxsize := maxsize s;
     n_filllevel := n_filllevel s; packs_seen := packs_seen s;
     packs_dropped := packs_dropped s; bytes_written := bytes_written s;
     beamformed_good_packs := beamformed_good_packs s;
     beamformed_first_packno := beamformed_first_packno s;
     beamformed_last_packno := beamformed_last_packno s;
     last_packs_dropped := last_packs_dropped s;
     last_packs_expected := last_packs_expected s;
     last_packs_seen := last_packs_seen s; last_good_packs := x |}.

Definition set_ringbuffer (x : vrb) (s : state) : state :=
  {| ringbuffer := x; stopped := stopped s; outf := outf s;
     bytes_written_thisfile := bytes_written_thisfile s;
     filenumber := filenumber s; stat := stat s; disk := disk s;
     data_available := data_available s;
     space_available := space_available s |}.

Definition set_stopped (x : Z) (s : state) : state :=
  {| ringbuffer := ringbuffer s; stopped := x; outf := outf s;
     bytes_written_thisfile := bytes_written_thisfile s;
     filenumber := filenumber s; stat := stat s; disk := disk s;
     data_available := data_available s;
     space_available := space_available s |}.

Definition set_outf (x : option (list Z)) (s : state) : state :=
  {| ringbuffer := ringbuffer s; stopped := stopped s; outf := x;
     bytes_written_thisfile := bytes_written_thisfile s;
     filenumber := filenumber s; stat := stat s; disk := disk s;
     data_available := data_available s;
     space_available := space_available s |}.

Definition set_bytes_written_thisfile (x : Z) (s : state) : state :=
  {| ringbuffer := ringbuffer s; stopped := stopped s; outf := outf s;
     bytes_written_thisfile := x; filenumber := filenumber s;
     stat := stat s; disk := disk s; data_available := data_available s;
     space_available := space_available s |}.

Definition set_filenumber (x : Z) (s : state) : state :=
  {| ringbuffer := ringbuffer s; stopped := stopped s; outf := outf s;
     bytes_written_thisfile := bytes_written_thisfile s; filenumber := x;
     stat := stat s; disk := disk s; data_available := data_available s;
     space_available := space_available s |}.

Definition set_stat (x : stats) (s : state) : state :=
  {| ringbuffer := ringbuffer s; stopped := stopped s; outf := outf s;
     bytes_written_thisfile := bytes_written_thisfile s;
     filenumber := filenumber s; stat := x; disk := disk s;
     data_available := data_available s;
     space_available := space_available s |}.

Definition set_disk (x : list (list Z)) (s : state) : state :=
  {| ringbuffer := ringbuffer s; stopped := stopped s; outf := outf s;
     bytes_written_thisfile := bytes_written_thisfile s;
     filenumber := filenumber s; stat := stat s; disk := x;
     data_available := data_available s;
     space_available := space_available s |}.

Definition set_data_available (x : nat) (s : state) : state :=
  {| ringbuffer := ringbuffer s; stopped := stopped s; outf := outf s;
     bytes_written_thisfile := bytes_written_thisfile s;
     filenumber := filenumber s; stat := stat s; disk := disk s;
     data_available := x; space_available := space_available s |}.

Definition set_space_available (x : nat) (s : state) : state :=
  {| ringbuffer := ringbuffer s; stopped := stopped s; outf := outf s;
     bytes_written_thisfile := bytes_written_thisfile s;
     filenumber := filenumber s; stat := stat s; disk := disk s;
     data_available := data_available s; space_available := x |}.

Definition upd_stat (f : stats -> stats) (s : state) : state :=
  set_stat (f (stat s)) s.

Definition Qlt_bool (x y : Q) : bool := negb (Qle_bool y x).

(** A pointer or [FILE*] that is not [NULL]. *)
Definition is_open {A : Type} (p : option A) : bool :=
  match p with Some _ => true | None => false end.

(** [for (i= 0; i<nsock; i++)] over the per-socket arrays. *)
Definition for_ports (n : Z) (body : nat -> stats -> stats) (t : stats) : stats :=
  foldl (fun t i => body i t) t (seq 0 (Z.to_nat n)).

Definition pthread_cond_signal_data (s : state) : state :=
  set_data_available (S (data_available s)) s.

Definition pthread_cond_signal_space (s : state) : state :=
  set_space_available (S (space_available s)) s.

(** ** [signal_handler]

    [signum] is the number of the signal, 0 for the regular printout and -1
    for a timeout.  The printing aside, the loop over the sockets moves the
    "last block" snapshots. *)
Definition signal_report (cfg : config) (i : nat) (t : stats) : stats :=
  let t1 :=
    if negb (totlen t =? 0) && beamformed_check cfg
    then
      set_last_good_packs (<[i := beamformed_good_packs t !!! i]> (last_good_packs t))
        (set_last_packs_expected
           (<[i := long_add (long_sub (beamformed_last_packno t !!! i)
                                      (beamformed_first_packno t !!! i)) 1]>
              (last_packs_expected t)) t)
    else t in
  set_last_packs_seen (<[i := packs_seen t1 !!! i]> (last_packs_seen t1))
    (set_last_packs_dropped (<[i := packs_dropped t1 !!! i]> (last_packs_dropped t1)) t1).

Definition signal_handler (cfg : config) (signum : Z) (s : state) : state :=
  if (signum <? 0) && negb (is_open (outf s))
  then (* timeout, but no file open *)
    if stdin_mode cfg
    then pthread_cond_signal_data (set_stopped 2 s)
    else s
  else
    let s1 :=
      upd_stat (fun t => for_ports (nsock cfg) (signal_report cfg)
                           (set_lasttotlen (totlen t) t)) s in
    if (signum =? SIGINT) || (signum =? SIGTERM) || (signum =? SIGALRM)
    then pthread_cond_signal_data (set_stopped 2 s1)
    else if (signum =? -1) || (signum =? SIGHUP)
    then
      match outf s1 with
      | Some _ =>
          let s2 :=
            if signum <? 0
            then
              if stdin_mode cfg
              then set_stopped 2 s1
              else if stopped s1 =? 0   (* may already be 2 *)
                   then set_stopped 1 s1 else s1
            else (* SIGHUP *)
              if stopped s1 =? 0        (* may already be 2 *)
              then set_stopped 1 s1 else s1 in
          pthread_cond_signal_data s2
      | None => s1
      end
    else s1.

(** ** [init_thisfilestat] and [start_file] *)

Definition init_port (j : nat) (t : stats) : stats :=
  let t1 := set_beamformed_first_packno (<[j := -1]> (beamformed_first_packno t)) t in
  let t2 := set_beamformed_good_packs (<[j := 0]> (beamformed_good_packs t1)) t1 in
  let t3 := set_packs_dropped (<[j := 0]> (packs_dropped t2)) t2 in
  let t4 := set_packs_seen (<[j := 0]> (packs_seen t3)) t3 in
  let t5 := set_bytes_written (<[j := 0]> (bytes_written t4)) t4 in
  let t6 := set_last_good_packs (<[j := 0]> (last_good_packs t5)) t5 in
  let t7 := set_last_packs_seen (<[j := 0]> (last_packs_seen t6)) t6 in
  let t8 := set_last_packs_expected (<[j := 0]> (last_packs_expected t7)) t7 in
  set_last_packs_dropped (<[j := 0]> (last_packs_dropped t8)) t8.

Definition init_thisfilestat (cfg : config) (t : stats) : stats :=
  let t1 := for_ports (nsock cfg) init_port t in
  set_n_filllevel 0 (set_maxsize 0 (set_totlen 0 (set_lasttotlen 0 t1))).

(** [start_file]: the name of the file is not modelled, only the numbering
    of split files, the reset of the byte count and the opening itself
    (a failure of [fopen] or [popen] ends the program). *)
Definition start_file (cfg : config) (s : state) : state :=
  let s1 :=
    if devnull cfg then s
    else if 0 <=? filenumber s
         then set_filenumber (int_add (filenumber s) 1) s
         else s in
  set_outf (Some []) (set_bytes_written_thisfile 0 s1).

(** ** The body of [producer]

    The producer's position in its loop, with the local variables that are
    live there. *)
Inductive producer_pc : Type :=
  | PIdle                                   (* at the top of [while (1)] *)
  | PWaited                                 (* stdin: room for [packlen] bytes seen *)
  | PAccounted (i : nat) (thissize : Z)     (* before the first lock *)
  | PReserved (i : nat) (thissize : Z) (newpoi : option Z)
  | PCommitted (i : nat) (thissize : Z)     (* after the second lock *)
  | PExited.

Definition incr (a : list Z) (i : nat) (d : Z) : list Z :=
  <[i := long_add (a !!! i) d]> a.

(** From [if (do_blocklen) thissize+= 2] to [packs_seen[i]++]. *)
Definition producer_account (cfg : config) (i : nat) (header : header_lofar)
    (t : stats) : stats :=
  let t1 :=
    if beamformed_check cfg
    then
      let ta := set_beamformed_last_packno
                  (<[i := beamformed_packno header]> (beamformed_last_packno t)) t in
      let tb := if beamformed_first_packno ta !!! i =? -1
                then set_beamformed_first_packno
                       (<[i := beamformed_last_packno ta !!! i]> (beamformed_first_packno ta)) ta
                else ta in
      if beamformed_checkpack header
      then set_beamformed_good_packs (incr (beamformed_good_packs tb) i 1) tb
      else tb
    else t in
  set_packs_seen (incr (packs_seen t1) i 1) t1.

(** What [producer] does with a packet of [thissize] bytes it has read into
    [buff2] for socket [i], up to the first lock: discard it when stopping,
    check its length, account for it. *)
Definition producer_recv (cfg : config) (i : nat) (thissize : Z)
    (buff2 : list Z) (s : state) : state * producer_pc :=
  if thissize =? 0 then (s, PIdle)
  else if stopped s =? 2 then (s, PIdle)                (* discarding packet *)
  else if (packlen cfg =? 0) || (thissize =? packlen cfg)
  then
    let thissize' := if do_blocklen cfg then int_add thissize 2 else thissize in
    (upd_stat (producer_account cfg i (header_of_bytes buff2)) s,
     PAccounted i thissize')
  else (s, PIdle).                                       (* wrong length *)

(** First lock: [vrb_poi_new] and the fill level statistics. *)
Definition producer_reserve (i : nat) (thissize : Z) (s : state) : state * producer_pc :=
  let newpoi := vrb_poi_new (ringbuffer s) thissize in
  (upd_stat (fun t => set_n_filllevel (long_add (n_filllevel t) 1) t) s,
   PReserved i thissize newpoi).

(** Drop the packet, or copy it and advance under the second lock. *)
Definition producer_store (i : nat) (thissize : Z) (newpoi : option Z)
    (s : state) : state * producer_pc :=
  match newpoi with
  | None => (* simply drop this packet *)
      (upd_stat (fun t => set_packs_dropped (incr (packs_dropped t) i 1) t) s, PIdle)
  | Some _ =>
      let s1 := set_ringbuffer (vrb_advance_new (ringbuffer s) thissize) s in
      let s2 := if fillsize (ringbuffer s1) >? maxsize (stat s1)
                then upd_stat (set_maxsize (fillsize (ringbuffer s1))) s1
                else s1 in
      (pthread_cond_signal_data s2, PCommitted i thissize)
  end.

Definition producer_tally (i : nat) (thissize : Z) (s : state) : state * producer_pc :=
  (upd_stat (fun t => set_bytes_written (incr (bytes_written t) i thissize)
                        (set_totlen (long_add (totlen t) thissize) t)) s,
   PIdle).

(** One packet seen through without the consumer or a signal in between. *)
Definition producer_packet (cfg : config) (i : nat) (thissize : Z)
    (buff2 : list Z) (s : state) : state :=
  match producer_recv cfg i thissize buff2 s with
  | (s1, PAccounted i1 n1) =>
      match producer_reserve i1 n1 s1 with
      | (s2, PReserved i2 n2 newpoi) =>
          match producer_store i2 n2 newpoi s2 with
          | (s3, PCommitted i3 n3) => fst (producer_tally i3 n3 s3)
          | (s3, _) => s3
          end
      | (s2, _) => s2
      end
  | (s1, _) => s1
  end.

(** ** [--Maxfilesize]

    The value [sscanf] read is a [double]; it is taken as the rational it
    denotes.  [abs] is the function of [stdlib.h] on [int]: its argument is
    converted from [double] to [int], which drops the fractional part and is
    undefined when the integral part does not fit, and its result is
    undefined for [INT_MIN]. *)
Inductive outcome (A : Type) : Type :=
  | Accepted (a : A)
  | Usage                      (* [c= '?']: the usage is printed, exit *)
  | Undefined.                 (* the behaviour is undefined by C *)
Arguments Accepted {A} a.
Arguments Usage {A}.
Arguments Undefined {A}.

Definition double_to_int (x : Q) : option Z :=
  let z := Z.quot (Qnum x) (Zpos (Qden x)) in
  if (INT_MIN <=? z) && (z <=? INT_MAX) then Some z else None.

Definition abs (j : Z) : option Z :=
  if j =? INT_MIN then None else Some (Z.abs j).

Definition abs_is (j a : Z) : bool :=
  match abs j with Some r => r =? a | None => false end.

(** [case 'M'] of [main]: the pair of [maxfilesize] and
    [stat_per_splitfile]. *)
Definition option_M (value : Q) : outcome (Q * bool) :=
  if Qeq_bool value 0 then Usage
  else
    let stat_per_splitfile := Qlt_bool 0 value in
    match double_to_int value with
    | Some j =>
        match abs j with
        | Some a => Accepted (inject_Z a, stat_per_splitfile)
        | None => Undefined
        end
    | None => Undefined
    end.

(** The split check of [consumer] for a file of [bytes] bytes:
    [maxfilesize>0 && bytes_written_thisfile>maxfilesize]. *)
Definition split_wanted (maxfilesize : Q) (bytes : Z) : bool :=
  Qlt_bool 0 maxfilesize && Qlt_bool maxfilesize (inject_Z bytes).

(** ** The body of [consumer]

    The consumer's position in its loop with its live local variables
    ([oldpoi], [old_stopped], [thissize]). *)
Inductive consumer_pc : Type :=
  | CTop                                               (* waiting for data or a stop *)
  | CWoken (oldpoi : option Z)
  | CDecide (oldpoi : option Z) (old_stopped : Z)
  | CClear (oldpoi : option Z) (old_stopped : Z)
  | CSize
  | COpen (thissize : Z)
  | CWrite (thissize : Z)
  | CRelease (thissize : Z)
  | CExited.

(** The [while] around [pthread_cond_wait]: the thread gets past it once
    there is data or a stop was requested. *)
Definition consumer_wake (s : state) : option consumer_pc :=
  let oldpoi := vrb_poi_old (ringbuffer s) in
  if negb (is_open oldpoi) && (stopped s =? 0)
  then None                                   (* no data available: keep waiting *)
  else Some (CWoken oldpoi).

(** Also stop for filesize. *)
Definition consumer_my_stopped (cfg : config) (old_stopped : Z) (s : state) : Z :=
  if (old_stopped =? 0) && split_wanted (maxfilesize cfg) (bytes_written_thisfile s)
  then -1
  else old_stopped.

(** End the file if wanted; [final_statistics] only prints.  Closing moves
    the file to [disk] (a failure of [fclose] or [pclose] ends the
    program); the [assert] on [filenumber] before a split file is started is
    not modelled. *)
Definition consumer_file (cfg : config) (oldpoi : option Z) (old_stopped : Z)
    (s : state) : state * consumer_pc :=
  let my_stopped := consumer_my_stopped cfg old_stopped s in
  let s1 :=
    match outf s with
    | Some f =>
        if ((my_stopped =? 2) && negb (is_open oldpoi)) || abs_is my_stopped 1
        then
          let sa := if negb (my_stopped =? -1) || stat_per_splitfile cfg
                    then upd_stat (init_thisfilestat cfg) s
                    else s in
          let sb := set_outf None (set_disk (disk sa ++ [f]) sa) in
          if my_stopped =? -1
          then start_file cfg sb       (* with same name, new number *)
          else sb
        else s
    | None => s
    end in
  if (my_stopped =? 2) && negb (is_open oldpoi)
  then (s1, CExited)                   (* end program (even if no file) *)
  else (s1, CClear oldpoi old_stopped).

(** Clear the stop flag unless another signal changed it in the meantime. *)
Definition consumer_clear (oldpoi : option Z) (old_stopped : Z) (s : state)
    : state * consumer_pc :=
  let s1 := if (stopped s =? old_stopped) && negb (stopped s =? 2)
            then set_stopped 0 s else s in
  (s1, if is_open oldpoi then CSize else CTop).

(** No file open, open it now. *)
Definition consumer_open (cfg : config) (s : state) : state :=
  match outf s with
  | Some _ => s
  | None =>
      start_file cfg (if filenumber s >? 0 then set_filenumber 0 s else s)
  end.

(** The size of the block written: at most [maxwrite], and only full packages
    if the length is known. *)
Definition consumer_chunk (cfg : config) (thissize : Z) : Z :=
  let thissize1 := if thissize >? maxwrite cfg then maxwrite cfg else thissize in
  if negb (packlen cfg =? 0)
  then long_mul (long_div thissize1 (packlen cfg)) (packlen cfg)
  else thissize1.

(** [fwrite] and the byte count of the file (a short write ends the
    program). *)
Definition consumer_write (cfg : config) (thissize : Z) (s : state)
    : option (state * consumer_pc) :=
  match outf s with
  | Some f =>
      let chunk := consumer_chunk cfg thissize in
      Some (set_bytes_written_thisfile (long_add (bytes_written_thisfile s) chunk)
              (set_outf (Some (f ++ [chunk])) s),
            CRelease chunk)
  | None => None
  end.

Definition consumer_release (thissize : Z) (s : state) : state * consumer_pc :=
  (pthread_cond_signal_space
     (set_ringbuffer (vrb_advance_old (ringbuffer s) thissize) s),
   CTop).

(** ** The two threads and the signals, interleaved

    A run of the program is a list of events.  Every event is one stretch of
    one thread between two points where the other thread or a signal can be
    observed to intervene: a region under [region_mutex] or [stopped_mutex],
    or the code between two of them.  [step] returns [None] when the event
    cannot happen in the state.  A packet event carries the bytes at the
    start of the packet buffer [buff2] after the read.

    This granularity is that of the ring buffer, which is read and written
    under [region_mutex] only, and of the output file, which belongs to the
    consumer.  The statistics are read and written outside the mutexes (the
    accounting and the tally of [producer], [init_thisfilestat]), and
    [signal_handler] tests [stopped] before it takes [stopped_mutex]: of
    these [step] shows the interleavings in which such a stretch runs
    undisturbed, and not the others.  The statistics are interleaved access
    by access further down. *)
Record sys : Type := mk_sys {
  g : state;
  ppc : producer_pc;
  cpc : consumer_pc
}.

Inductive event : Type :=
  | EvSignal (signum : Z)          (* SIGHUP, SIGINT, SIGALRM or SIGTERM is delivered *)
  | EvProgress                     (* producer: [signal_handler (0)] after 1e9 bytes *)
  | EvTimeout                      (* producer: [pselect] returned 0 *)
  | EvProducerExit                 (* producer: [stopped==2], sockets closed *)
  | EvStdinWait                    (* producer: space for [packlen] bytes is there *)
  | EvStdinRead (size : Z) (buff2 : list Z)        (* producer: [fread] *)
  | EvRecv (i : nat) (size : Z) (buff2 : list Z)   (* producer: [recvfrom] *)
  | EvReserve
  | EvStore
  | EvTally
  | EvCWake
  | EvCSnapStop
  | EvCFile
  | EvCClear
  | EvCSize
  | EvCOpen
  | EvCWrite
  | EvCRelease.

Definition with_producer (σ : sys) (r : state * producer_pc) : option sys :=
  Some {| g := fst r; ppc := snd r; cpc := cpc σ |}.

Definition with_consumer (σ : sys) (r : state * consumer_pc) : option sys :=
  Some {| g := fst r; ppc := ppc σ; cpc := snd r |}.

Definition is_signal (signum : Z) : bool :=
  (signum =? SIGHUP) || (signum =? SIGINT) || (signum =? SIGALRM) || (signum =? SIGTERM).

Definition step (cfg : config) (ev : event) (σ : sys) : option sys :=
  let s := g σ in
  match ev with
  | EvSignal signum =>
      if is_signal signum
      then Some {| g := signal_handler cfg signum s; ppc := ppc σ; cpc := cpc σ |}
      else None
  | EvProgress =>
      match ppc σ with
      | PIdle =>
          if long_sub (totlen (stat s)) (lasttotlen (stat s)) >? 1000000000
          then with_producer σ (signal_handler cfg 0 s, PIdle)
          else None
      | _ => None
      end
  | EvTimeout =>
      match ppc σ with
      | PIdle =>
          if stdin_mode cfg then None
          else with_producer σ (signal_handler cfg (-1) s, PIdle)
      | _ => None
      end
  | EvProducerExit =>
      match ppc σ with
      | PIdle =>
          if negb (stdin_mode cfg) && (stopped s =? 2)
          then with_producer σ (s, PExited)
          else None
      | _ => None
      end
  | EvStdinWait =>
      match ppc σ with
      | PIdle =>
          if stdin_mode cfg && (stopped s =? 0)
             && is_open (vrb_poi_new (ringbuffer s) (packlen cfg))
          then with_producer σ (s, PWaited)
          else None
      | _ => None
      end
  | EvStdinRead size buff2 =>
      match ppc σ with
      | PWaited =>
          if (0 <=? size) && (size <=? packlen cfg)
          then
            if size =? 0                   (* treat as timeout *)
            then with_producer σ (signal_handler cfg (-1) s, PIdle)
            else with_producer σ (producer_recv cfg 0 size buff2 s)
          else None
      | _ => None
      end
  | EvRecv i size buff2 =>
      match ppc σ with
      | PIdle =>
          if negb (stdin_mode cfg) && (Z.of_nat i <? nsock cfg)
             && (0 <? size) && (size <? MMAXLEN)
          then with_producer σ (producer_recv cfg i size buff2 s)
          else None
      | _ => None
      end
  | EvReserve =>
      match ppc σ with
      | PAccounted i thissize => with_producer σ (producer_reserve i thissize s)
      | _ => None
      end
  | EvStore =>
      match ppc σ with
      | PReserved i thissize newpoi =>
          with_producer σ (producer_store i thissize newpoi s)
      | _ => None
      end
  | EvTally =>
      match ppc σ with
      | PCommitted i thissize => with_producer σ (producer_tally i thissize s)
      | _ => None
      end
  | EvCWake =>
      match cpc σ with
      | CTop =>
          match consumer_wake s with
          | Some pc => with_consumer σ (s, pc)
          | None => None
          end
      | _ => None
      end
  | EvCSnapStop =>
      match cpc σ with
      | CWoken oldpoi => with_consumer σ (s, CDecide oldpoi (stopped s))
      | _ => None
      end
  | EvCFile =>
      match cpc σ with
      | CDecide oldpoi old_stopped =>
          with_consumer σ (consumer_file cfg oldpoi old_stopped s)
      | _ => None
      end
  | EvCClear =>
      match cpc σ with
      | CClear oldpoi old_stopped =>
          with_consumer σ (consumer_clear oldpoi old_stopped s)
      | _ => None
      end
  | EvCSize =>
      match cpc σ with
      | CSize =>
          if fillsize (ringbuffer s) =? 0
          then None                        (* [assert (thissize)] *)
          else with_consumer σ (s, COpen (fillsize (ringbuffer s)))
      | _ => None
      end
  | EvCOpen =>
      match cpc σ with
      | COpen thissize => with_consumer σ (consumer_open cfg s, CWrite thissize)
      | _ => None
      end
  | EvCWrite =>
      match cpc σ with
      | CWrite thissize =>
          match consumer_write cfg thissize s with
          | Some r => with_consumer σ r
          | None => None
          end
      | _ => None
      end
  | EvCRelease =>
      match cpc σ with
      | CRelease thissize => with_consumer σ (consumer_release thissize s)
      | _ => None
      end
  end.

Fixpoint run (cfg : config) (evs : list event) (σ : sys) : option sys :=
  match evs with
  | [] => Some σ
  | ev :: evs' =>
      match step cfg ev σ with
      | Some σ' => run cfg evs' σ'
      | None => None
      end
  end.

(** ** The start of the program

    What [main] leaves behind when it creates the two threads: the global
    arrays are zero, [init_thisfilestat] has run, the ring buffer is empty
    and no file is open unless [--Start] was given. *)
Definition zero_stats : stats :=
  let z := replicate (Z.to_nat MAXNSOCK) 0 in
  {| totlen := 0; lasttotlen := 0; maxsize := 0; n_filllevel := 0;
     packs_seen := z; packs_dropped := z; bytes_written := z;
     beamformed_good_packs := z;
     beamformed_first_packno := z; beamformed_last_packno := z;
     last_packs_dropped := z; last_packs_expected := z;
     last_packs_seen := z; last_good_packs := z |}.

Definition main_state (cfg : config) : state :=
  let s0 :=
    {| ringbuffer := init_vrb (bufsize cfg) (pagesize cfg);
       stopped := 0; outf := None; bytes_written_thisfile := 0;
       filenumber := if Qlt_bool 0 (maxfilesize cfg) then 0 else -1;
       stat := zero_stats;
       disk := []; data_available := 0%nat; space_available := 0%nat |} in
  let s1 := if start_given cfg then start_file cfg s0 else s0 in
  upd_stat (fun t => set_totlen 0 (init_thisfilestat cfg t)) s1.

Definition main_sys (cfg : config) : sys :=
  {| g := main_state cfg; ppc := PIdle; cpc := CTop |}.

(** What the option parser and the checks after it let through. *)
Definition config_ok (cfg : config) : Prop :=
  0 <= packlen cfg < MMAXLEN /\
  1024 < maxwrite cfg <= LONG_MAX /\
  0 <= nsock cfg <= MAXNSOCK /\
  length (portnos cfg) = Z.to_nat MAXNSOCK /\
  (beamformed_check cfg = true -> packlen cfg = 7824) /\
  (stdin_mode cfg = true -> packlen cfg <> 0) /\
  10000 <= bufsize cfg <= 16000000000 /\
  0 < pagesize cfg <= INT_MAX.

(** ** Sample configurations

    [cfg_udp]: two UDP ports, packets of 8 bytes.  [cfg_stdin_sizehead]:
    [--ports 0 --len 6143 --sizehead --bufsize 10001], which gives a ring
    buffer of three pages of 4096 bytes.  [cfg_check]: one UDP port with
    [--check]. *)
Definition cfg_udp : config :=
  {| packlen := 8; do_blocklen := false; beamformed_check := false;
     maxwrite := 1048576; nsock := 2;
     portnos := [4346; 4347; 0; 0; 0; 0; 0; 0; 0; 0; 0; 0];
     maxfilesize := 0; stat_per_splitfile := true; devnull := false;
     start_given := false; bufsize := 104857600; pagesize := 4096 |}.

Definition cfg_stdin_sizehead : config :=
  {| packlen := 6143; do_blocklen := true; beamformed_check := false;
     maxwrite := 1048576; nsock := 1;
     portnos := [0; 0; 0; 0; 0; 0; 0; 0; 0; 0; 0; 0];
     maxfilesize := 0; stat_per_splitfile := true; devnull := false;
     start_given := false; bufsize := 10001; pagesize := 4096 |}.

Definition cfg_check : config :=
  {| packlen := 7824; do_blocklen := false; beamformed_check := true;
     maxwrite := 1048576; nsock := 1;
     portnos := [4346; 0; 0; 0; 0; 0; 0; 0; 0; 0; 0; 0];
     maxfilesize := 0; stat_per_splitfile := true; devnull := false;
     start_given := false; bufsize := 104857600; pagesize := 4096 |}.

Definition le_bytes (n : nat) (z : Z) : list Z :=
  map (fun k => Z.land (Z.shiftr z (8 * Z.of_nat k)) 255) (seq 0 n).

(** The first 16 bytes of a packet of station 901 on the 200 MHz clock. *)
Definition sample_packet (timestamp sequence : Z) : list Z :=
  [3; 128; 0; 0] ++ le_bytes 2 901 ++ [61; 16]
  ++ le_bytes 4 timestamp ++ le_bytes 4 sequence.

(** ** Invariants of a run

    What the local variables of the two threads know about the ring buffer
    at each position: a reservation that succeeded still fits, since the
    consumer only frees space; a fill level the consumer has read is still
    there, since the producer only adds. *)
Definition ppc_inv (v : vrb) (pc : producer_pc) : Prop :=
  match pc with
  | PAccounted _ n | PCommitted _ n => 0 < n <= MMAXLEN + 1
  | PReserved _ n newpoi =>
      0 < n <= MMAXLEN + 1 /\
      (is_open newpoi = true -> fillsize v + n <= totsize v)
  | _ => True
  end.

Definition cpc_inv (v : vrb) (pc : consumer_pc) : Prop :=
  match pc with
  | CWoken p | CDecide p _ | CClear p _ => is_open p = true -> 0 < fillsize v
  | CSize => 0 < fillsize v
  | COpen t | CWrite t => 0 < t <= fillsize v
  | CRelease t => 0 <= t <= fillsize v
  | _ => True
  end.

Definition sys_inv (σ : sys) : Prop :=
  vrb_wf (ringbuffer (g σ)) /\ vrb_inv (ringbuffer (g σ)) /\
  ppc_inv (ringbuffer (g σ)) (ppc σ) /\ cpc_inv (ringbuffer (g σ)) (cpc σ).

(** The events of the consumer thread. *)
Definition consumer_event (ev : event) : bool :=
  match ev with
  | EvCWake | EvCSnapStop | EvCFile | EvCClear
  | EvCSize | EvCOpen | EvCWrite | EvCRelease => true
  | _ => false
  end.

(** The files of a state, closed and open, and the offsets at which the
    writes of a file begin and end. *)
Definition all_files (s : state) : list (list Z) :=
  disk s ++ match outf s with Some f => [f] | None => [] end.

Definition sum_writes (f : list Z) : Z := foldr Z.add 0 f.

Definition file_offsets (f : list Z) : list Z :=
  map (fun k => sum_writes (take k f)) (seq 0 (S (length f))).

(** Every write to every file satisfies [P]. *)
Definition files_all (P : Z -> Prop) (σ : sys) : Prop :=
  Forall (Forall P) (all_files (g σ)).

(** [m] rounded down to the nearest multiple of [L], as the specification
    words the size of a write. *)
Definition round_down (m L : Z) : Z := L * (m / L).

Definition chunk_spec (cfg : config) (fill : Z) : Z :=
  let chunk := Z.min fill (maxwrite cfg) in
  if 0 <? packlen cfg then round_down chunk (packlen cfg) else chunk.

(** With a fixed packet length [L] and no length header: the sizes the two
    threads carry are whole packets, and so are the fill level and the byte
    count of the open file, which after [k] events is at most [k] writes
    long. *)
Definition ppc_whole (L : Z) (pc : producer_pc) : Prop :=
  match pc with
  | PAccounted _ n | PReserved _ n _ | PCommitted _ n => n = L
  | _ => True
  end.

Definition cpc_whole (L : Z) (pc : consumer_pc) : Prop :=
  match pc with
  | COpen t | CWrite t | CRelease t => (L | t)
  | _ => True
  end.

Definition whole (cfg : config) (k : nat) (σ : sys) : Prop :=
  sys_inv σ /\
  (packlen cfg | fillsize (ringbuffer (g σ))) /\
  (packlen cfg | bytes_written_thisfile (g σ)) /\
  0 <= bytes_written_thisfile (g σ) <= Z.of_nat k * maxwrite cfg /\
  ppc_whole (packlen cfg) (ppc σ) /\ cpc_whole (packlen cfg) (cpc σ).

(** A configuration whose packet length is above [maxwrite]:
    [--len 7824 --maxwrite 2000]. *)
Definition cfg_oversize : config :=
  {| packlen := 7824; do_blocklen := false; beamformed_check := false;
     maxwrite := 2000; nsock := 1;
     portnos := [4346; 0; 0; 0; 0; 0; 0; 0; 0; 0; 0; 0];
     maxfilesize := 0; stat_per_splitfile := true; devnull := false;
     start_given := false; bufsize := 104857600; pagesize := 4096 |}.

(** With a packet length above [maxwrite]: nothing is ever released and
    nothing is ever written. *)
Definition stalled (σ : sys) : Prop :=
  sys_inv σ /\ (forall t, cpc σ = CRelease t -> t = 0) /\
  bytes_written_thisfile (g σ) = 0.

(** ** The statistics, access by access

    [producer] accounts for a packet (lines 851 to 863) and adds to the byte
    totals (lines 898 to 900) with no mutex held, and [consumer] resets the
    statistics in [init_thisfilestat] when it closes a file, with no mutex
    held either.  [step] takes each of these stretches as one event; here
    the loads and stores of the two threads are events of their own, so that
    the stretches overlap in every way the program allows.  An increment is
    a load and a store; the position after the load carries the value
    loaded.  ([beamformed_last_packno] is written by the producer alone, so
    that its load in line 856 is taken together with the store.)  The
    count of dropped packets (line 880) and the statistics of the fill
    level are not followed: nothing below reads them. *)
Inductive stat_pc : Type :=
  | AIdle                                          (* not in one of the stretches *)
  | ALast (i : nat) (header : header_lofar)        (* before line 853 *)
  | AFirst (i : nat) (header : header_lofar)       (* before the test of line 855 *)
  | AFirstStore (i : nat) (header : header_lofar)  (* it found -1 *)
  | ACheck (i : nat) (header : header_lofar)       (* before line 858 *)
  | AGoodStore (i : nat) (loaded : Z)              (* line 860, value loaded *)
  | ASeen (i : nat)                                (* before line 863 *)
  | ASeenStore (i : nat) (loaded : Z)
  | ATotlen (i : nat) (thissize : Z)               (* before line 898 *)
  | ATotlenStore (i : nat) (thissize : Z) (loaded : Z)
  | ABytes (i : nat) (thissize : Z)                (* before line 900 *)
  | ABytesStore (i : nat) (thissize : Z) (loaded : Z).

(** [if (beamformed_check)]: the flag is constant. *)
Definition account_begin (cfg : config) (i : nat) (header : header_lofar) : stat_pc :=
  if beamformed_check cfg then ALast i header else ASeen i.

Definition account_access (pc : stat_pc) (t : stats) : option (stats * stat_pc) :=
  match pc with
  | AIdle => None
  | ALast i header =>
      Some (set_beamformed_last_packno
              (<[i := beamformed_packno header]> (beamformed_last_packno t)) t,
            AFirst i header)
  | AFirst i header =>
      Some (t, if beamformed_first_packno t !!! i =? -1
               then AFirstStore i header else ACheck i header)
  | AFirstStore i header =>
      Some (set_beamformed_first_packno
              (<[i := beamformed_last_packno t !!! i]> (beamformed_first_packno t)) t,
            ACheck i header)
  | ACheck i header =>
      Some (t, if beamformed_checkpack header
               then AGoodStore i (beamformed_good_packs t !!! i) else ASeen i)
  | AGoodStore i loaded =>
      Some (set_beamformed_good_packs
              (<[i := long_add loaded 1]> (beamformed_good_packs t)) t,
            ASeen i)
  | ASeen i => Some (t, ASeenStore i (packs_seen t !!! i))
  | ASeenStore i loaded =>
      Some (set_packs_seen (<[i := long_add loaded 1]> (packs_seen t)) t, AIdle)
  | ATotlen i thissize => Some (t, ATotlenStore i thissize (totlen t))
  | ATotlenStore i thissize loaded =>
      Some (set_totlen (long_add loaded thissize) t, ABytes i thissize)
  | ABytes i thissize => Some (t, ABytesStore i thissize (bytes_written t !!! i))
  | ABytesStore i thissize loaded =>
      Some (set_bytes_written (<[i := long_add loaded thissize]> (bytes_written t)) t,
            AIdle)
  end.

(** The consumer's position in [init_thisfilestat].  The chained assignment
    of lines 922 and 923 stores from the right, as [init_port] does.  The
    four stores to the "last block" arrays are taken together, and so are
    the stores to the scalars after the loop: of all these the two
    stretches of the producer load and store [totlen] only. *)
Inductive reset_pc : Type :=
  | RIdle                                          (* not in [init_thisfilestat] *)
  | RFirst (j : nat)                               (* before line 921 *)
  | RGood (j : nat)                                (* before lines 922 and 923 *)
  | RDropped (j : nat)
  | RSeen (j : nat)
  | RBytes (j : nat)
  | RSnapshots (j : nat)                           (* before lines 925 and 926 *)
  | RTotals.                                       (* after the loop *)

(** [for (j= 0; j<nsock; j++)]: the test before turn [j]. *)
Definition reset_loop (cfg : config) (j : nat) : reset_pc :=
  if Z.of_nat j <? nsock cfg then RFirst j else RTotals.

Definition reset_access (cfg : config) (pc : reset_pc) (t : stats)
    : option (stats * reset_pc) :=
  match pc with
  | RIdle => None
  | RFirst j =>
      Some (set_beamformed_first_packno (<[j := -1]> (beamformed_first_packno t)) t,
            RGood j)
  | RGood j =>
      Some (set_beamformed_good_packs (<[j := 0]> (beamformed_good_packs t)) t,
            RDropped j)
  | RDropped j =>
      Some (set_packs_dropped (<[j := 0]> (packs_dropped t)) t, RSeen j)
  | RSeen j =>
      Some (set_packs_seen (<[j := 0]> (packs_seen t)) t, RBytes j)
  | RBytes j =>
      Some (set_bytes_written (<[j := 0]> (bytes_written t)) t, RSnapshots j)
  | RSnapshots j =>
      let t6 := set_last_good_packs (<[j := 0]> (last_good_packs t)) t in
      let t7 := set_last_packs_seen (<[j := 0]> (last_packs_seen t6)) t6 in
      let t8 := set_last_packs_expected (<[j := 0]> (last_packs_expected t7)) t7 in
      Some (set_last_packs_dropped (<[j := 0]> (last_packs_dropped t8)) t8,
            reset_loop cfg (S j))
  | RTotals =>
      Some (set_n_filllevel 0 (set_maxsize 0 (set_totlen 0 (set_lasttotlen 0 t))),
            RIdle)
  end.

(** The statistics and the positions of the two threads in their stretches.
    An access is: the producer enters the accounting with a packet for
    socket [i], or the tally with a packet of [thissize] bytes that it has
    stored; the producer's next load or store; the consumer enters
    [init_thisfilestat]; the consumer's next store; or [signal_handler]
    goes through its loop over the sockets, which loads the counters and
    stores to the "last block" arrays and [lasttotlen] only. *)
Record stat_sys : Type := mk_stat_sys {
  cnt : stats;
  apc : stat_pc;
  rpc : reset_pc
}.

Inductive access : Type :=
  | AcPacket (i : nat) (header : header_lofar)
  | AcStored (i : nat) (thissize : Z)
  | AcProducer
  | AcReset
  | AcConsumer
  | AcReport.

Definition access_step (cfg : config) (a : access) (σ : stat_sys) : option stat_sys :=
  match a with
  | AcPacket i header =>
      match apc σ with
      | AIdle =>
          if Z.of_nat i <? nsock cfg
          then Some {| cnt := cnt σ; apc := account_begin cfg i header; rpc := rpc σ |}
          else None
      | _ => None
      end
  | AcStored i thissize =>
      match apc σ with
      | AIdle =>
          if (Z.of_nat i <? nsock cfg) && (0 <? thissize) && (thissize <=? MMAXLEN + 1)
          then Some {| cnt := cnt σ; apc := ATotlen i thissize; rpc := rpc σ |}
          else None
      | _ => None
      end
  | AcProducer =>
      match account_access (apc σ) (cnt σ) with
      | Some (t, pc) => Some {| cnt := t; apc := pc; rpc := rpc σ |}
      | None => None
      end
  | AcReset =>
      match rpc σ with
      | RIdle => Some {| cnt := cnt σ; apc := apc σ; rpc := reset_loop cfg 0 |}
      | _ => None
      end
  | AcConsumer =>
      match reset_access cfg (rpc σ) (cnt σ) with
      | Some (t, pc) => Some {| cnt := t; apc := apc σ; rpc := pc |}
      | None => None
      end
  | AcReport =>
      Some {| cnt := for_ports (nsock cfg) (signal_report cfg)
                       (set_lasttotlen (totlen (cnt σ)) (cnt σ));
              apc := apc σ; rpc := rpc σ |}
  end.

Fixpoint access_run (cfg : config) (acs : list access) (σ : stat_sys) : option stat_sys :=
  match acs with
  | [] => Some σ
  | a :: acs' =>
      match access_step cfg a σ with
      | Some σ' => access_run cfg acs' σ'
      | None => None
      end
  end.

(** The threads start with the statistics as [main] leaves them. *)
Definition main_stat_sys (cfg : config) : stat_sys :=
  {| cnt := stat (main_state cfg); apc := AIdle; rpc := RIdle |}.

(** The producer is in the accounting of a packet, or in the tally; the
    consumer is in [init_thisfilestat]. *)
Definition accounting (pc : stat_pc) : bool :=
  match pc with
  | ALast _ _ | AFirst _ _ | AFirstStore _ _ | ACheck _ _
  | AGoodStore _ _ | ASeen _ | ASeenStore _ _ => true
  | _ => false
  end.

Definition tallying (pc : stat_pc) : bool :=
  match pc with
  | ATotlen _ _ | ATotlenStore _ _ _ | ABytes _ _ | ABytesStore _ _ _ => true
  | _ => false
  end.

Definition resetting (pc : reset_pc) : bool :=
  match pc with RIdle => false | _ => true end.

(** The reset does not overlap the stretch of the producer that [busy]
    names; and a run in which this holds throughout. *)
Definition apart (busy : stat_pc -> bool) (σ : stat_sys) : bool :=
  negb (busy (apc σ) && resetting (rpc σ)).

Fixpoint apart_run (busy : stat_pc -> bool) (cfg : config) (acs : list access)
    (σ : stat_sys) : bool :=
  apart busy σ &&
  match acs with
  | [] => true
  | a :: acs' =>
      match access_step cfg a σ with
      | Some σ' => apart_run busy cfg acs' σ'
      | None => true
      end
  end.

(** [n] accesses of one thread with nothing in between. *)
Fixpoint account_accesses (n : nat) (pc : stat_pc) (t : stats) : stats * stat_pc :=
  match n with
  | O => (t, pc)
  | S n' =>
      match account_access pc t with
      | Some (t', pc') => account_accesses n' pc' t'
      | None => (t, pc)
      end
  end.

Fixpoint reset_accesses (cfg : config) (n : nat) (pc : reset_pc) (t : stats)
    : stats * reset_pc :=
  match n with
  | O => (t, pc)
  | S n' =>
      match reset_access cfg pc t with
      | Some (t', pc') => reset_accesses cfg n' pc' t'
      | None => (t, pc)
      end
  end.

(** The packet numbers that a run brings to the accounting of socket [p],
    in order. *)
Definition accounted_packno (p : nat) (a : access) : list Z :=
  match a with
  | AcPacket i header => if (i =? p)%nat then [beamformed_packno header] else []
  | _ => []
  end.

Definition accounted_packnos (p : nat) (acs : list access) : list Z :=
  flat_map (accounted_packno p) acs.

(** The four counters of port [i] that the specification relates. *)
Definition seen_of (t : stats) (i : nat) : Z := packs_seen t !!! i.
Definition good_of (t : stats) (i : nat) : Z := beamformed_good_packs t !!! i.
Definition first_of (t : stats) (i : nat) : Z := beamformed_first_packno t !!! i.
Definition last_of (t : stats) (i : nat) : Z := beamformed_last_packno t !!! i.

Definition counters_len (t : stats) (i : nat) : Prop :=
  (i < length (packs_seen t))%nat /\
  (i < length (beamformed_good_packs t))%nat /\
  (i < length (beamformed_first_packno t))%nat /\
  (i < length (beamformed_last_packno t))%nat.

(** What the reset of [init_thisfilestat] leaves of them. *)
Definition port_reset (t t' : stats) (i : nat) : Prop :=
  seen_of t' i = 0 /\ good_of t' i = 0 /\
  first_of t' i = -1 /\ last_of t' i = last_of t i.

(** What holds of the counters of port [p] after [k] accesses of a run in
    which no reset overlaps the accounting of a packet: [good] is at most
    [seen] except between the two increments, and a value loaded is still
    the value of the counter. *)
Definition counts_at (σ : stat_sys) (p : nat) (k : nat) : Prop :=
  0 <= good_of (cnt σ) p /\ 0 <= seen_of (cnt σ) p <= Z.of_nat k /\
  good_of (cnt σ) p <= seen_of (cnt σ) p + 1 /\
  match apc σ with
  | AGoodStore j v =>
      good_of (cnt σ) p <= seen_of (cnt σ) p /\ (j = p -> v = good_of (cnt σ) p)
  | ASeen j => j <> p -> good_of (cnt σ) p <= seen_of (cnt σ) p
  | ASeenStore j v =>
      (j <> p -> good_of (cnt σ) p <= seen_of (cnt σ) p) /\
      (j = p -> v = seen_of (cnt σ) p)
  | _ => good_of (cnt σ) p <= seen_of (cnt σ) p
  end /\
  match rpc σ with
  | RDropped j | RSeen j => j = p -> good_of (cnt σ) p = 0
  | _ => True
  end.

(** [rest] are the packet numbers still to come on port [p].  Between two
    packets and outside a reset the span covers the packets seen; inside the
    accounting of a packet with number [n] it already covers that packet
    once [beamformed_first_packno] is set. *)
Definition span_quiet (t : stats) (p : nat) (rest : list Z) : Prop :=
  (seen_of t p = 0 -> first_of t p = -1) /\
  (1 <= seen_of t p ->
   first_of t p <> -1 /\
   seen_of t p <= last_of t p - first_of t p + 1 /\
   Forall (fun q => last_of t p < q) rest).

Definition span_entered (t : stats) (p : nat) (n : Z) (rest : list Z) : Prop :=
  n <> -1 /\ Forall (fun q => n < q) rest /\
  (seen_of t p = 0 -> first_of t p = -1) /\
  (1 <= seen_of t p -> first_of t p <> -1).

Definition span_counted (t : stats) (p : nat) (rest : list Z) : Prop :=
  first_of t p <> -1 /\
  seen_of t p + 1 <= last_of t p - first_of t p + 1 /\
  Forall (fun q => last_of t p < q) rest.

Definition span_at (σ : stat_sys) (p : nat) (rest : list Z) : Prop :=
  let t := cnt σ in
  match rpc σ with
  | RGood j | RDropped j | RSeen j =>
      (j = p -> first_of t p = -1) /\ (j <> p -> span_quiet t p rest)
  | _ =>
      match apc σ with
      | ALast j header =>
          span_quiet t p rest /\
          (j = p -> span_entered t p (beamformed_packno header) rest /\
                    (1 <= seen_of t p -> last_of t p < beamformed_packno header))
      | AFirst j header =>
          (j <> p -> span_quiet t p rest) /\
          (j = p -> span_entered t p (beamformed_packno header) rest /\
                    last_of t p = beamformed_packno header /\
                    (1 <= seen_of t p ->
                     seen_of t p + 1 <= last_of t p - first_of t p + 1))
      | AFirstStore j header =>
          (j <> p -> span_quiet t p rest) /\
          (j = p -> span_entered t p (beamformed_packno header) rest /\
                    last_of t p = beamformed_packno header /\ seen_of t p = 0)
      | ACheck j _ | AGoodStore j _ | ASeen j | ASeenStore j _ =>
          (j <> p -> span_quiet t p rest) /\ (j = p -> span_counted t p rest)
      | _ => span_quiet t p rest
      end
  end.

(** ** The byte totals

    [used cfg a] is the part of a per-socket array that belongs to the
    sockets in use.  After [k] accesses of a run in which no reset overlaps
    the tally, the byte total is the sum of their byte counts except between
    the two additions of the tally and inside a reset, which clears the
    byte counts socket by socket and then the total. *)
Definition used (cfg : config) (a : list Z) : list Z :=
  take (Z.to_nat (nsock cfg)) a.

Definition cleared (a : list Z) (m : nat) : Prop :=
  forall j, (j < m)%nat -> a !!! j = 0.

Definition totals_at (cfg : config) (k : nat) (σ : stat_sys) : Prop :=
  let t := cnt σ in
  let total := sum_writes (used cfg (bytes_written t)) in
  (Z.to_nat (nsock cfg) <= length (bytes_written t))%nat /\
  Forall (fun b => 0 <= b) (used cfg (bytes_written t)) /\
  0 <= totlen t <= Z.of_nat k * (MMAXLEN + 1) /\
  total <= Z.of_nat k * (MMAXLEN + 1) /\
  match rpc σ with
  | RIdle =>
      match apc σ with
      | ATotlen i n => total = totlen t /\ 0 < n <= MMAXLEN + 1 /\ Z.of_nat i < nsock cfg
      | ATotlenStore i n v =>
          total = totlen t /\ v = totlen t /\
          0 < n <= MMAXLEN + 1 /\ Z.of_nat i < nsock cfg
      | ABytes i n =>
          total + n = totlen t /\ 0 < n <= MMAXLEN + 1 /\ Z.of_nat i < nsock cfg
      | ABytesStore i n v =>
          total + n = totlen t /\ v = bytes_written t !!! i /\
          0 < n <= MMAXLEN + 1 /\ Z.of_nat i < nsock cfg
      | _ => total = totlen t
      end
  | RFirst j | RGood j | RDropped j | RSeen j | RBytes j =>
      Z.of_nat j < nsock cfg /\ cleared (bytes_written t) j
  | RSnapshots j =>
      Z.of_nat j < nsock cfg /\ cleared (bytes_written t) (S j)
  | RTotals => cleared (bytes_written t) (Z.to_nat (nsock cfg))
  end.

(** Reading from stdin without [--sizehead]: the room the producer waited
    for is the room it reserves, and nothing has been dropped. *)
Definition ppc_waited (cfg : config) (v : vrb) (pc : producer_pc) : Prop :=
  match pc with
  | PWaited => fillsize v + packlen cfg <= totsize v
  | PAccounted _ n => n = packlen cfg /\ fillsize v + n <= totsize v
  | PReserved _ _ newpoi => is_open newpoi = true
  | _ => True
  end.

Definition lossless (cfg : config) (σ : sys) : Prop :=
  sys_inv σ /\ ppc_waited cfg (ringbuffer (g σ)) (ppc σ) /\
  Forall (fun d => d = 0) (packs_dropped (stat (g σ))).

(** ** Further invariants of a run

    The pointers the two threads hold: what [vrb_poi_new] returned is still
    the rear of the buffer when the packet is copied, what [vrb_poi_old]
    returned is still its front while the consumer decides what to do. *)
Definition ptr_inv (σ : sys) : Prop :=
  match ppc σ with
  | PReserved _ _ (Some p) => p = rear (ringbuffer (g σ))
  | _ => True
  end /\
  match cpc σ with
  | CWoken (Some p) | CDecide (Some p) _ | CClear (Some p) _ =>
      p = front (ringbuffer (g σ))
  | _ => True
  end.

(** What the consumer knows about the stop level: a level of 2 that it has
    read stays, and once it has ended no file is open. *)
Definition exit_inv (σ : sys) : Prop :=
  match cpc σ with
  | CDecide _ old_stopped | CClear _ old_stopped =>
      old_stopped = 2 -> stopped (g σ) = 2
  | CExited => outf (g σ) = None /\ stopped (g σ) = 2
  | _ => True
  end.

(** The signals that end the program. *)
Definition is_final_signal (ev : event) : bool :=
  match ev with
  | EvSignal signum => (signum =? SIGINT) || (signum =? SIGTERM) || (signum =? SIGALRM)
  | _ => false
  end.

(** Neither thread has ended nor been told to. *)
Definition running (σ : sys) : Prop :=
  stopped (g σ) <> 2 /\ ppc σ <> PExited /\ cpc σ <> CExited /\
  match cpc σ with
  | CDecide _ o | CClear _ o => o <> 2
  | _ => True
  end.

(** [--ports 0 --len 6143 --bufsize 10001]: stdin without [--sizehead]. *)
Definition cfg_stdin : config :=
  {| packlen := 6143; do_blocklen := false; beamformed_check := false;
     maxwrite := 1048576; nsock := 1;
     portnos := [0; 0; 0; 0; 0; 0; 0; 0; 0; 0; 0; 0];
     maxfilesize := 0; stat_per_splitfile := true; devnull := false;
     start_given := false; bufsize := 10001; pagesize := 4096 |}.

(** ** Where the bytes are

    The bytes a run puts into the ring buffer, packet by packet: the sizes
    for which [producer] got a place from [vrb_poi_new] and advanced the
    rear.  [all_writes] is the sequence of all writes, file after file;
    [in_flight] the block the consumer has written but not yet released. *)
Definition stored_bytes_step (ev : event) (σ : sys) : Z :=
  match ev, ppc σ with
  | EvStore, PReserved _ thissize (Some _) => thissize
  | _, _ => 0
  end.

Fixpoint stored_bytes (cfg : config) (evs : list event) (σ : sys) : Z :=
  match evs with
  | [] => 0
  | ev :: evs' =>
      match step cfg ev σ with
      | Some σ' => stored_bytes_step ev σ + stored_bytes cfg evs' σ'
      | None => 0
      end
  end.

Definition all_writes (s : state) : list Z := concat (all_files s).

Definition in_flight (pc : consumer_pc) : Z :=
  match pc with CRelease thissize => thissize | _ => 0 end.

Definition unwritten (σ : sys) : Z :=
  fillsize (ringbuffer (g σ)) - in_flight (cpc σ).

(** ** The open file: its byte count, its number and its size

    The stop levels the program uses, and what the consumer has read of
    them. *)
Definition stop_levels (z : Z) : Prop := z = 0 \/ z = 1 \/ z = 2.

Definition snap_ok (pc : consumer_pc) : Prop :=
  match pc with
  | CDecide _ old_stopped | CClear _ old_stopped => stop_levels old_stopped
  | _ => True
  end.

Definition snap_inv (σ : sys) : Prop :=
  stop_levels (stopped (g σ)) /\ snap_ok (cpc σ).

(** [bytes_written_thisfile] is the size of the open file, which after [k]
    events is at most [k] writes long. *)
Definition counted (cfg : config) (k : nat) (s : state) : Prop :=
  forall f, outf s = Some f ->
    bytes_written_thisfile s = sum_writes f /\
    0 <= sum_writes f <= Z.of_nat k * maxwrite cfg.

(** [filenumber] is -1 without [--Maxfilesize] and counts the split files
    with it. *)
Definition numbered (cfg : config) (k : nat) (s : state) : Prop :=
  if Qlt_bool 0 (maxfilesize cfg)
  then 0 <= filenumber s <= Z.of_nat (S k)
  else filenumber s = -1.

(** A file is at most [slack] bytes longer than [maxfilesize]. *)
Definition file_within (cfg : config) (slack : Z) (f : list Z) : Prop :=
  (inject_Z (sum_writes f) <= maxfilesize cfg + inject_Z slack)%Q.

(** Between the size check and the write the open file is within
    [maxfilesize]; elsewhere it may be one write longer. *)
Definition open_slack (cfg : config) (pc : consumer_pc) : Z :=
  match pc with
  | CClear _ _ | CSize | COpen _ | CWrite _ => 0
  | _ => maxwrite cfg
  end.

Definition sized (cfg : config) (σ : sys) : Prop :=
  Forall (file_within cfg (maxwrite cfg)) (disk (g σ)) /\
  forall f, outf (g σ) = Some f -> file_within cfg (open_slack cfg (cpc σ)) f.

Definition file_inv (cfg : config) (k : nat) (σ : sys) : Prop :=
  sys_inv σ /\ exit_inv σ /\ snap_inv σ /\ counted cfg k (g σ) /\
  ((0 < maxfilesize cfg)%Q -> stopped (g σ) <> 2 -> sized cfg σ).

(** [--ports 4346x2 --len 8 --Maxfilesize 10 --maxwrite 1025]. *)
Definition cfg_split : config :=
  {| packlen := 8; do_blocklen := false; beamformed_check := false;
     maxwrite := 1025; nsock := 2;
     portnos := [4346; 4347; 0; 0; 0; 0; 0; 0; 0; 0; 0; 0];
     maxfilesize := 10; stat_per_splitfile := true; devnull := false;
     start_given := false; bufsize := 104857600; pagesize := 4096 |}.

(** ** The file that a SIGHUP ends

    [f0] is the file that was open, and [d0] are the files that were closed,
    when the signal was delivered.  The request is pending while that file
    is still the open one: the stop level is then 1 or 2 and the consumer is
    not about to clear a level of 1.  The file is ended once it is on [disk],
    with the writes made to it in the meantime. *)
Definition file_pending (f0 : list Z) (d0 : list (list Z)) (σ : sys) : Prop :=
  disk (g σ) = d0 /\
  (exists f, outf (g σ) = Some f /\ f0 `prefix_of` f) /\
  (stopped (g σ) = 1 \/ stopped (g σ) = 2) /\
  (forall p, cpc σ <> CClear p 1).

Definition file_ended (f0 : list Z) (d0 : list (list Z)) (s : state) : Prop :=
  exists f rest, disk s = d0 ++ f :: rest /\ f0 `prefix_of` f.

(** ** The option loop of [main]

    The variables the option loop sets that the two threads read, with the
    values they have before it.  An option is what [getopt_long] returned
    together with what [sscanf] read from its argument, [None] when [sscanf]
    did not return 1.  With [%lf] it reads a [double], which is a finite
    value, taken as the rational it denotes, or an infinity, or not a number
    (the arguments [inf] and [nan]); every comparison with a NaN is false.
    The options whose arguments are names, commands or
    times ([-v -o -p -t -S -E -d -z -Z -P]) leave these variables alone; for
    them it is only said whether the option went through (a failure of
    [-P] ends the program without the usage).  The check for arguments that
    are left over after the last option is not modelled. *)
Record options : Type := mk_options {
  opt_packlen : Z;
  opt_beamformed_check : bool;
  opt_do_blocklen : bool;
  opt_bufsize : Z;
  opt_maxwrite : Z;
  opt_maxfilesize : Q;
  opt_stat_per_splitfile : bool
}.

Definition main_defaults : options :=
  {| opt_packlen := 0; opt_beamformed_check := false; opt_do_blocklen := false;
     opt_bufsize := 104857600; opt_maxwrite := 1024 * 1024;
     opt_maxfilesize := 0; opt_stat_per_splitfile := true |}.

Inductive double : Type :=
  | Finite (x : Q)
  | Infinity (negative : bool)
  | NaN.

(** [x<=y] and [x>y] for a [double] [x] and a finite [y]. *)
Definition double_le (x : double) (y : Q) : bool :=
  match x with
  | Finite q => Qle_bool q y
  | Infinity negative => negative
  | NaN => false
  end.

Definition double_gt (x : double) (y : Q) : bool :=
  match x with
  | Finite q => Qlt_bool y q
  | Infinity negative => negb negative
  | NaN => false
  end.

Inductive getopt : Type :=
  | Opt_l (scanned : option Z)       (* --len *)
  | Opt_b (scanned : option double)  (* --bufsize *)
  | Opt_m (scanned : option Z)       (* --maxwrite *)
  | Opt_M (scanned : option double)  (* --Maxfilesize *)
  | Opt_s                            (* --sizehead *)
  | Opt_c                            (* --check *)
  | Opt_h                            (* --help, --Help or an unknown option *)
  | Opt_other (accepted : bool).

(** The cast [(long)bufsize_float]: the fractional part is dropped; the
    behaviour is undefined when the integral part does not fit a [long], and
    so for an infinity and for a NaN. *)
Definition double_to_long (x : double) : option Z :=
  match x with
  | Finite q =>
      let z := Z.quot (Qnum q) (Zpos (Qden q)) in
      if (LONG_MIN <=? z) && (z <=? LONG_MAX) then Some z else None
  | _ => None
  end.

(** One turn of the [switch]; [Usage] is [c= '?'] or help, after which the
    program prints the usage and exits. *)
Definition main_option (c : getopt) (o : options) : outcome options :=
  match c with
  | Opt_l scanned =>
      match scanned with
      | Some len =>
          if (len <=? 0) || (len >=? MMAXLEN) then Usage
          else if opt_beamformed_check o && negb (len =? 7824) then Usage
          else Accepted
                 {| opt_packlen := len;
                    opt_beamformed_check := opt_beamformed_check o;
                    opt_do_blocklen := opt_do_blocklen o;
                    opt_bufsize := opt_bufsize o; opt_maxwrite := opt_maxwrite o;
                    opt_maxfilesize := opt_maxfilesize o;
                    opt_stat_per_splitfile := opt_stat_per_splitfile o |}
      | None => Usage
      end
  | Opt_b scanned =>
      match scanned with
      | Some bufsize_float =>
          if double_le bufsize_float 10000 || double_gt bufsize_float 16000000000
          then Usage
          else
            match double_to_long bufsize_float with
            | Some bufsize =>
                Accepted
                  {| opt_packlen := opt_packlen o;
                     opt_beamformed_check := opt_beamformed_check o;
                     opt_do_blocklen := opt_do_blocklen o;
                     opt_bufsize := bufsize;
                     opt_maxwrite := opt_maxwrite o;
                     opt_maxfilesize := opt_maxfilesize o;
                     opt_stat_per_splitfile := opt_stat_per_splitfile o |}
            | None => Undefined          (* [--bufsize nan] *)
            end
      | None => Usage
      end
  | Opt_m scanned =>
      match scanned with
      | Some m =>
          if m <=? 1024 then Usage
          else Accepted
                 {| opt_packlen := opt_packlen o;
                    opt_beamformed_check := opt_beamformed_check o;
                    opt_do_blocklen := opt_do_blocklen o;
                    opt_bufsize := opt_bufsize o; opt_maxwrite := m;
                    opt_maxfilesize := opt_maxfilesize o;
                    opt_stat_per_splitfile := opt_stat_per_splitfile o |}
      | None => Usage
      end
  | Opt_M scanned =>
      match scanned with
      | Some (Finite value) =>
          match option_M value with
          | Accepted (m, per_file) =>
              Accepted
                {| opt_packlen := opt_packlen o;
                   opt_beamformed_check := opt_beamformed_check o;
                   opt_do_blocklen := opt_do_blocklen o;
                   opt_bufsize := opt_bufsize o; opt_maxwrite := opt_maxwrite o;
                   opt_maxfilesize := m; opt_stat_per_splitfile := per_file |}
          | Usage => Usage
          | Undefined => Undefined
          end
      | Some _ => Undefined     (* not 0, and [abs] converts it to [int] *)
      | None => Usage
      end
  | Opt_s =>
      Accepted
        {| opt_packlen := opt_packlen o;
           opt_beamformed_check := opt_beamformed_check o;
           opt_do_blocklen := true;
           opt_bufsize := opt_bufsize o; opt_maxwrite := opt_maxwrite o;
           opt_maxfilesize := opt_maxfilesize o;
           opt_stat_per_splitfile := opt_stat_per_splitfile o |}
  | Opt_c =>
      if negb (opt_packlen o =? 0) && negb (opt_packlen o =? 7824) then Usage
      else Accepted
             {| opt_packlen := 7824; opt_beamformed_check := true;
                opt_do_blocklen := opt_do_blocklen o;
                opt_bufsize := opt_bufsize o; opt_maxwrite := opt_maxwrite o;
                opt_maxfilesize := opt_maxfilesize o;
                opt_stat_per_splitfile := opt_stat_per_splitfile o |}
  | Opt_h => Usage
  | Opt_other accepted => if accepted then Accepted o else Usage
  end.

(** The [while (1)] around [getopt_long], over the options of the command
    line in their order. *)
Fixpoint main_options (cs : list getopt) (o : options) : outcome options :=
  match cs with
  | [] => Accepted o
  | c :: cs' =>
      match main_option c o with
      | Accepted o' => main_options cs' o'
      | Usage => Usage
      | Undefined => Undefined
      end
  end.

(** What holds of the variables after every turn of the loop. *)
Definition options_ok (o : options) : Prop :=
  0 <= opt_packlen o < MMAXLEN /\
  (opt_beamformed_check o = true -> opt_packlen o = 7824) /\
  1024 < opt_maxwrite o /\
  10000 <= opt_bufsize o <= 16000000000 /\
  exists n, 0 <= n <= INT_MAX /\ opt_maxfilesize o = inject_Z n.

(** ** The list of ports

    An item of the list given with [--ports], as [strtol] reads it: one port,
    or [i x j] for [j] ports from [i] on.  The [assert]s on the form of an
    item are taken to hold.  [portnos] is the array of [MAXNSOCK] ports. *)
Inductive port_item : Type :=
  | Port (i : Z)
  | Ports (i j : Z).

Inductive ports_result : Type :=
  | PortsOk (portnos : list Z) (nsock : Z)
  | PortsExit                       (* number of sockets too large: [exit (1)] *)
  | PortsFuel.                      (* the model of [while (j)] was cut short *)

(** [portnos[nsock]= i; nsock++] behind the check of [nsock]. *)
Definition add_port (i : Z) (portnos : list Z) (nsock : Z) : option (list Z * Z) :=
  if nsock >=? MAXNSOCK then None
  else Some (<[Z.to_nat nsock := i]> portnos, int_add nsock 1).

(** [while (j)] with [i++] and [j--]. *)
Fixpoint add_ports (fuel : nat) (i j : Z) (portnos : list Z) (nsock : Z)
    : ports_result :=
  if j =? 0 then PortsOk portnos nsock
  else
    match fuel with
    | O => PortsFuel
    | S fuel' =>
        match add_port i portnos nsock with
        | Some (portnos', nsock') =>
            add_ports fuel' (int_add i 1) (int_add j (-1)) portnos' nsock'
        | None => PortsExit
        end
    end.

(** The loop over the items that [strtok_r] finds. *)
Fixpoint parse_portlist (items : list port_item) (portnos : list Z) (nsock : Z)
    : ports_result :=
  match items with
  | [] => PortsOk portnos nsock
  | item :: items' =>
      let r :=
        match item with
        | Port i =>
            match add_port i portnos nsock with
            | Some (portnos', nsock') => PortsOk portnos' nsock'
            | None => PortsExit
            end
        | Ports i j => add_ports (S (Z.to_nat MAXNSOCK)) i j portnos nsock
        end in
      match r with
      | PortsOk portnos' nsock' => parse_portlist items' portnos' nsock'
      | _ => r
      end
  end.

Definition main_ports (items : list port_item) : ports_result :=
  parse_portlist items (replicate (Z.to_nat MAXNSOCK) 0) 0.

(** What a list of items stands for: the ports of each item, and how many
    they are. *)
Definition item_ports (item : port_item) : list Z :=
  match item with
  | Port i => [i]
  | Ports i j => map (fun k => i + Z.of_nat k) (seq 0 (Z.to_nat j))
  end.

Definition item_count (item : port_item) : Z :=
  match item with Port _ => 1 | Ports _ j => j end.

Definition ports_count (items : list port_item) : Z :=
  foldr Z.add 0 (map item_count items).

(** The numbers are [int]s, and counting on from a port does not leave the
    [int]s. *)
Definition item_ok (item : port_item) : Prop :=
  match item with
  | Port _ => True
  | Ports i j => in_int i /\ i + MAXNSOCK <= INT_MAX /\ in_int j
  end.

(** ** The consumer's way through its loop

    The event the consumer takes next from a position inside its loop, and
    what it knows about the output file when it is about to write. *)
Definition next_consumer_event (pc : consumer_pc) : option event :=
  match pc with
  | CTop | CExited => None
  | CWoken _ => Some EvCSnapStop
  | CDecide _ _ => Some EvCFile
  | CClear _ _ => Some EvCClear
  | CSize => Some EvCSize
  | COpen _ => Some EvCOpen
  | CWrite _ => Some EvCWrite
  | CRelease _ => Some EvCRelease
  end.

Definition file_ready (σ : sys) : Prop :=
  match cpc σ with
  | CWrite _ => is_open (outf (g σ)) = true
  | _ => True
  end.

(** ** The snapshots of [signal_handler]

    The "last block" arrays have an entry for socket [i]; and what they hold
    for it once [signal_handler] has been through its loop over the sockets:
    the counters as they were, with the expected and good packets only when
    [--check] is on and something has been written. *)
Definition snapshots_len (t : stats) (i : nat) : Prop :=
  (i < length (last_packs_seen t))%nat /\
  (i < length (last_packs_dropped t))%nat /\
  (i < length (last_packs_expected t))%nat /\
  (i < length (last_good_packs t))%nat.

Definition snapshot_of (cfg : config) (t t' : stats) (i : nat) : Prop :=
  last_packs_seen t' !!! i = packs_seen t !!! i /\
  last_packs_dropped t' !!! i = packs_dropped t !!! i /\
  (if negb (totlen t =? 0) && beamformed_check cfg
   then last_good_packs t' !!! i = beamformed_good_packs t !!! i /\
        last_packs_expected t' !!! i
        = long_add (long_sub (beamformed_last_packno t !!! i)
                             (beamformed_first_packno t !!! i)) 1
   else last_good_packs t' !!! i = last_good_packs t !!! i /\
        last_packs_expected t' !!! i = last_packs_expected t !!! i).

(** What the loop leaves alone. *)
Definition counters_kept (t t' : stats) : Prop :=
  totlen t' = totlen t /\ packs_seen t' = packs_seen t /\
  packs_dropped t' = packs_dropped t /\ bytes_written t' = bytes_written t /\
  beamformed_good_packs t' = beamformed_good_packs t /\
  beamformed_first_packno t' = beamformed_first_packno t /\
  beamformed_last_packno t' = beamformed_last_packno t.

(** ** The contents of the ring buffer

    [init_vrb] maps the [totsize] bytes of one file twice, the second copy
    right behind the first, so that a block that starts anywhere in the first
    copy and is at most [totsize] long can be read and written without
    wrapping.  [vrb_offset] is the offset in the file of the byte at
    [buff + a]; the file is a map from offsets to bytes.  [memcpy] and
    [fwrite] are the two accesses of the threads through pointers into the
    mapping. *)
Definition vrb_offset (totsize : Z) (a : Z) : Z :=
  if a <? totsize then a else a - totsize.

Fixpoint memcpy (totsize : Z) (file : Z -> Z) (dest : Z) (src : list Z) : Z -> Z :=
  match src with
  | [] => file
  | b :: src' =>
      memcpy totsize (fun x => if x =? vrb_offset totsize dest then b else file x)
             (dest + 1) src'
  end.

Definition fwrite (totsize : Z) (file : Z -> Z) (ptr : Z) (size : Z) : list Z :=
  map (fun j => file (vrb_offset totsize (ptr + Z.of_nat j))) (seq 0 (Z.to_nat size)).

(** Where the consumer is with the block it takes out: it has the pointer
    [oldpoi], then the size of the block, then it has written the block and
    has yet to release it. *)
Inductive block_pc : Type :=
  | BlockNone
  | BlockPoi (oldpoi : Z)
  | BlockSize (oldpoi thissize : Z)
  | BlockWritten (oldpoi thissize : Z).

(** The ring buffer with its contents, the packet the producer is placing
    (where, its bytes, and whether they are copied yet), the block of the
    consumer, and two histories: the bytes of the packets stored and the
    bytes handed to [fwrite]. *)
Record vrb_mem : Type := mk_vrb_mem {
  meta : vrb;
  file : Z -> Z;
  placing : option (Z * list Z * bool);
  block : block_pc;
  stored : list Z;
  written : list Z
}.

(** The accesses of the two threads, in any order that keeps each thread to
    its own sequence: the producer asks for a place, copies the packet and
    advances the rear; the consumer gets the front, takes a block of at most
    the fill level it reads (the fill level itself, cut to [maxwrite] and to
    whole packets), writes it and releases it. *)
Inductive mem_op : Type :=
  | MemPoiNew (packet : list Z)
  | MemCopy
  | MemAdvanceNew
  | MemPoiOld
  | MemSize (thissize : Z)
  | MemFwrite
  | MemAdvanceOld.

Definition mem_step (op : mem_op) (m : vrb_mem) : option vrb_mem :=
  match op with
  | MemPoiNew packet =>
      let thissize := Z.of_nat (length packet) in
      match placing m with
      | Some _ => None
      | None =>
          if (thissize =? 0) || (INT_MAX <? thissize) then None
          else
            match vrb_poi_new (meta m) thissize with
            | Some newpoi =>
                Some {| meta := meta m; file := file m;
                        placing := Some (newpoi, packet, false); block := block m;
                        stored := stored m; written := written m |}
            | None => Some m                (* simply drop this packet *)
            end
      end
  | MemCopy =>
      match placing m with
      | Some (newpoi, packet, false) =>
          Some {| meta := meta m;
                  file := memcpy (totsize (meta m)) (file m) newpoi packet;
                  placing := Some (newpoi, packet, true); block := block m;
                  stored := stored m; written := written m |}
      | _ => None
      end
  | MemAdvanceNew =>
      match placing m with
      | Some (newpoi, packet, true) =>
          Some {| meta := vrb_advance_new (meta m) (Z.of_nat (length packet));
                  file := file m; placing := None; block := block m;
                  stored := stored m ++ packet; written := written m |}
      | _ => None
      end
  | MemPoiOld =>
      match block m with
      | BlockNone =>
          match vrb_poi_old (meta m) with
          | Some oldpoi =>
              Some {| meta := meta m; file := file m; placing := placing m;
                      block := BlockPoi oldpoi;
                      stored := stored m; written := written m |}
          | None => Some m                  (* no data available *)
          end
      | _ => None
      end
  | MemSize thissize =>
      match block m with
      | BlockPoi oldpoi =>
          if (0 <=? thissize) && (thissize <=? fillsize (meta m))
          then Some {| meta := meta m; file := file m; placing := placing m;
                       block := BlockSize oldpoi thissize;
                       stored := stored m; written := written m |}
          else None
      | _ => None
      end
  | MemFwrite =>
      match block m with
      | BlockSize oldpoi thissize =>
          Some {| meta := meta m; file := file m; placing := placing m;
                  block := BlockWritten oldpoi thissize;
                  stored := stored m;
                  written := written m
                             ++ fwrite (totsize (meta m)) (file m) oldpoi thissize |}
      | _ => None
      end
  | MemAdvanceOld =>
      match block m with
      | BlockWritten oldpoi thissize =>
          Some {| meta := vrb_advance_old (meta m) thissize;
                  file := file m; placing := placing m; block := BlockNone;
                  stored := stored m; written := written m |}
      | _ => None
      end
  end.

Fixpoint mem_run (ops : list mem_op) (m : vrb_mem) : option vrb_mem :=
  match ops with
  | [] => Some m
  | op :: ops' =>
      match mem_step op m with
      | Some m' => mem_run ops' m'
      | None => None
      end
  end.

Definition init_vrb_mem (minsize pagesize : Z) (file0 : Z -> Z) : vrb_mem :=
  {| meta := init_vrb minsize pagesize; file := file0; placing := None;
     block := BlockNone; stored := []; written := [] |}.

(** What is in the buffer, oldest byte first: what [fwrite] would get from
    the front for the whole fill level; and how much of it is written
    already, though not released. *)
Definition pending (m : vrb_mem) : list Z :=
  fwrite (totsize (meta m)) (file m) (front (meta m)) (fillsize (meta m)).

Definition unreleased (m : vrb_mem) : Z :=
  match block m with BlockWritten _ thissize => thissize | _ => 0 end.

Definition placing_ok (m : vrb_mem) : Prop :=
  match placing m with
  | None => True
  | Some (newpoi, packet, copied) =>
      newpoi = rear (meta m) /\ 0 < Z.of_nat (length packet) /\
      fillsize (meta m) + Z.of_nat (length packet) <= totsize (meta m) /\
      (copied = true ->
       fwrite (totsize (meta m)) (file m) newpoi (Z.of_nat (length packet)) = packet)
  end.

Definition block_ok (m : vrb_mem) : Prop :=
  match block m with
  | BlockNone => True
  | BlockPoi oldpoi => oldpoi = front (meta m)
  | BlockSize oldpoi thissize | BlockWritten oldpoi thissize =>
      oldpoi = front (meta m) /\ 0 <= thissize <= fillsize (meta m)
  end.

Definition mem_inv (m : vrb_mem) : Prop :=
  vrb_wf (meta m) /\ vrb_inv (meta m) /\ placing_ok m /\ block_ok m /\
  stored m = written m ++ drop (Z.to_nat (unreleased m)) (pending m).

(** ** Proof automation

    [step_cases H] splits a hypothesis [H : step cfg ev σ = Some σ'] into the
    cases of [step] that can have produced it; [inv4] splits a conjunction of
    four and closes what is already at hand. *)
Ltac step_cases H :=
  unfold step, with_producer, with_consumer in H;
  repeat case_match; simplify_eq; cbn [g ppc cpc fst snd] in *.

Ltac inv4 := split; [|split; [|split]]; try assumption; try exact I.

(** [stat_simpl] reads the fields of the statistics through the updates
    made to them; [port_cases j p] splits on whether socket [j] is the port
    [p] looked at and uses what is known for that case. *)
Ltac stat_simpl :=
  cbn [cnt apc rpc totlen lasttotlen maxsize n_filllevel packs_seen packs_dropped
       bytes_written beamformed_good_packs beamformed_first_packno
       beamformed_last_packno last_packs_dropped last_packs_expected
       last_packs_seen last_good_packs
       set_totlen set_lasttotlen set_maxsize set_n_filllevel set_packs_seen
       set_packs_dropped set_bytes_written set_beamformed_good_packs
       set_beamformed_first_packno set_beamformed_last_packno
       set_last_packs_dropped set_last_packs_expected set_last_packs_seen
       set_last_good_packs] in *.

Ltac port_cases j p :=
  destruct (Nat.eqb_spec j p);
  repeat match goal with
         | H : ?a = ?b -> _, E : ?a = ?b |- _ => specialize (H E)
         | H : ?a <> ?b -> _, E : ?a <> ?b |- _ => specialize (H E)
         | H : ?a = ?b -> _, E : ?a <> ?b |- _ => clear H
         | H : ?a <> ?b -> _, E : ?a = ?b |- _ => clear H
         end.

(** * Properties *)

(** ** Machine integers: in-range arithmetic does not wrap *)

Lemma wrap64_id z : in_long z -> wrap64 z = z.
Proof.
  unfold in_long, LONG_MIN, LONG_MAX, wrap64, wrap. intros H.
  change (2 ^ (64 - 1)) with 9223372036854775808.
  change (2 ^ 64) with 18446744073709551616.
  change (2 ^ 63) with 9223372036854775808 in H.
  rewrite Z.mod_small; lia.
Qed.

Lemma wrap32_id z : in_int z -> wrap32 z = z.
Proof.
  unfold in_int, INT_MIN, INT_MAX, wrap32, wrap. intros H.
  change (2 ^ (32 - 1)) with 2147483648.
  change (2 ^ 32) with 4294967296.
  change (2 ^ 31) with 2147483648 in H.
  rewrite Z.mod_small; lia.
Qed.

Lemma long_add_id a b : in_long (a + b) -> long_add a b = a + b.
Proof. apply wrap64_id. Qed.

Lemma long_sub_id a b : in_long (a - b) -> long_sub a b = a - b.
Proof. apply wrap64_id. Qed.

Lemma long_mul_id a b : in_long (a * b) -> long_mul a b = a * b.
Proof. apply wrap64_id. Qed.

Lemma long_div_id a b : in_long (Z.quot a b) -> long_div a b = Z.quot a b.
Proof. apply wrap64_id. Qed.

Lemma in_long_bounds z : in_long z <-> - 9223372036854775808 <= z <= 9223372036854775807.
Proof. unfold in_long, LONG_MIN, LONG_MAX. change (2 ^ 63) with 9223372036854775808. lia. Qed.

Lemma in_int_bounds z : in_int z <-> - 2147483648 <= z <= 2147483647.
Proof. unfold in_int, INT_MIN, INT_MAX. change (2 ^ 31) with 2147483648. lia. Qed.

(** ** Ring buffer: arithmetic lemmas *)

Lemma long_max_val : LONG_MAX = 9223372036854775807.
Proof. reflexivity. Qed.

Lemma int_max_val : INT_MAX = 2147483647.
Proof. reflexivity. Qed.

Section VrbLemmas.

Variable v : vrb.
Hypothesis Hwf : vrb_wf v.
Hypothesis Hinv : vrb_inv v.

Lemma vrb_rear_range : 0 <= rear v < totsize v.
Proof.
  destruct Hwf as (Ht & _ & _), Hinv as (_ & Hr).
  rewrite Hr. apply Z.mod_pos_bound. lia.
Qed.

Lemma vrb_fill_add_long n :
  0 <= n <= INT_MAX -> long_add (fillsize v) n = fillsize v + n.
Proof.
  intros Hn. destruct Hwf as (Ht & H2 & _), Hinv as ((Hf0 & Hf1) & _).
  rewrite long_max_val in H2. rewrite int_max_val in Hn.
  apply long_add_id, in_long_bounds. lia.
Qed.

Lemma vrb_poi_new_Some_fits n p :
  0 <= n <= INT_MAX -> vrb_poi_new v n = Some p -> fillsize v + n <= totsize v.
Proof.
  intros Hn. unfold vrb_poi_new. rewrite vrb_fill_add_long by assumption.
  destruct (Z.gtb_spec (fillsize v + n) (totsize v)); [discriminate | lia].
Qed.

Lemma vrb_poi_new_None_full n :
  0 <= n <= INT_MAX -> vrb_poi_new v n = None -> totsize v < fillsize v + n.
Proof.
  intros Hn. unfold vrb_poi_new. rewrite vrb_fill_add_long by assumption.
  destruct (Z.gtb_spec (fillsize v + n) (totsize v)); [lia | discriminate].
Qed.

Lemma vrb_poi_new_fits_Some n :
  0 <= n <= INT_MAX -> fillsize v + n <= totsize v -> vrb_poi_new v n = Some (rear v).
Proof.
  intros Hn Hfit. unfold vrb_poi_new. rewrite vrb_fill_add_long by assumption.
  destruct (Z.gtb_spec (fillsize v + n) (totsize v)); [lia | reflexivity].
Qed.

Lemma vrb_advance_new_eq n :
  0 <= n -> fillsize v + n <= totsize v ->
  vrb_advance_new v n =
  {| fillsize := fillsize v + n; front := front v;
     rear := (rear v + n) mod totsize v; totsize := totsize v |}.
Proof.
  intros Hn Hfit. pose proof vrb_rear_range as Hr.
  destruct Hwf as (Ht & H2 & Hfr), Hinv as ((Hf0 & Hf1) & _).
  rewrite long_max_val in H2.
  unfold vrb_advance_new, long_rem.
  rewrite !long_add_id by (apply in_long_bounds; lia).
  rewrite Z.rem_mod_nonneg by lia. reflexivity.
Qed.

Lemma vrb_advance_old_eq n :
  0 <= n <= fillsize v ->
  vrb_advance_old v n =
  {| fillsize := fillsize v - n; front := (front v + n) mod totsize v;
     rear := rear v; totsize := totsize v |}.
Proof.
  intros Hn.
  destruct Hwf as (Ht & H2 & Hfr), Hinv as ((Hf0 & Hf1) & _).
  rewrite long_max_val in H2.
  unfold vrb_advance_old, long_rem.
  rewrite long_add_id, long_sub_id by (apply in_long_bounds; lia).
  rewrite Z.rem_mod_nonneg by lia. reflexivity.
Qed.

Lemma vrb_advance_new_inv n :
  0 <= n -> fillsize v + n <= totsize v ->
  vrb_wf (vrb_advance_new v n) /\ vrb_inv (vrb_advance_new v n).
Proof.
  intros Hn Hfit. rewrite vrb_advance_new_eq by assumption.
  destruct Hwf as (Ht & H2 & Hfr), Hinv as ((Hf0 & Hf1) & Hr).
  unfold vrb_wf, vrb_inv; simpl. repeat split; try lia.
  rewrite Hr, Zplus_mod_idemp_l. f_equal. lia.
Qed.

Lemma vrb_advance_old_inv n :
  0 <= n <= fillsize v ->
  vrb_wf (vrb_advance_old v n) /\ vrb_inv (vrb_advance_old v n).
Proof.
  intros Hn. rewrite vrb_advance_old_eq by assumption.
  destruct Hwf as (Ht & H2 & Hfr), Hinv as ((Hf0 & Hf1) & Hr).
  unfold vrb_wf, vrb_inv; simpl.
  pose proof (Z.mod_pos_bound (front v + n) (totsize v) Ht).
  repeat split; try lia.
  rewrite Hr, Zplus_mod_idemp_l. f_equal. lia.
Qed.

End VrbLemmas.

Lemma init_vrb_totsize minsize pagesize :
  vrb_init_ok minsize pagesize ->
  totsize (init_vrb minsize pagesize) = (minsize + pagesize - 1) / pagesize * pagesize.
Proof.
  intros (Hm & Hp & Hb). rewrite long_max_val in Hb. simpl.
  assert (Hq : 0 <= (minsize + pagesize - 1) / pagesize <= minsize + pagesize - 1).
  { split; [apply Z.div_pos; lia|]. apply Z.div_le_upper_bound; nia. }
  assert (Hle : (minsize + pagesize - 1) / pagesize * pagesize <= minsize + pagesize - 1).
  { rewrite Z.mul_comm. apply Z.mul_div_le. lia. }
  rewrite (long_add_id minsize pagesize) by (apply in_long_bounds; lia).
  rewrite long_sub_id by (apply in_long_bounds; lia).
  rewrite long_div_id; rewrite Z.quot_div_nonneg by lia; [|apply in_long_bounds; lia].
  rewrite long_mul_id; [reflexivity|]. apply in_long_bounds. nia.
Qed.

Lemma init_vrb_covers minsize pagesize :
  vrb_init_ok minsize pagesize ->
  minsize <= totsize (init_vrb minsize pagesize) < minsize + pagesize /\
  totsize (init_vrb minsize pagesize) mod pagesize = 0.
Proof.
  intros Hok. rewrite init_vrb_totsize by assumption.
  destruct Hok as (Hm & Hp & Hb).
  pose proof (Z.div_mod (minsize + pagesize - 1) pagesize ltac:(lia)) as Hdm.
  pose proof (Z.mod_pos_bound (minsize + pagesize - 1) pagesize Hp) as Hr.
  rewrite Z.mod_mul by lia. split; [nia | reflexivity].
Qed.

Lemma init_vrb_inv minsize pagesize :
  vrb_init_ok minsize pagesize ->
  vrb_wf (init_vrb minsize pagesize) /\ vrb_inv (init_vrb minsize pagesize).
Proof.
  intros Hok. pose proof (init_vrb_covers _ _ Hok) as ((Hlo & Hhi) & _).
  destruct Hok as (Hm & Hp & Hb).
  unfold vrb_wf, vrb_inv.
  change (fillsize (init_vrb minsize pagesize)) with 0.
  change (front (init_vrb minsize pagesize)) with 0.
  change (rear (init_vrb minsize pagesize)) with 0.
  rewrite Z.add_0_l, Z.mod_0_l by lia. lia.
Qed.

Lemma vrb_step_inv op v r v' r' :
  vrb_wf v -> vrb_inv v -> vrb_reserved_ok v r ->
  vrb_step op (v, r) = Some (v', r') ->
  vrb_wf v' /\ vrb_inv v' /\ vrb_reserved_ok v' r'.
Proof.
  intros Hwf Hinv Hres. destruct op as [n | n | | n]; simpl.
  - destruct (Z.ltb_spec n 0); [discriminate|].
    destruct (Z.ltb_spec INT_MAX n); [discriminate|]. simpl.
    destruct (vrb_poi_new v n) eqn:Hp; intros [= <- <-];
      (split; [assumption|split; [assumption|]]); simpl; [|exact I].
    split; [lia|]. eapply vrb_poi_new_Some_fits; eauto.
  - destruct r as [m|]; [|discriminate].
    destruct (Z.eqb_spec n m) as [->|]; [|discriminate].
    intros [= <- <-]. destruct Hres as (Hm & Hfit).
    destruct (vrb_advance_new_inv v Hwf Hinv m Hm Hfit).
    split; [assumption|split; [assumption|exact I]].
  - intros [= <- <-]. auto.
  - destruct (Z.leb_spec 0 n); [|discriminate].
    destruct (Z.leb_spec n (fillsize v)); [|discriminate]. simpl.
    intros Heq. injection Heq as <- <-.
    destruct (vrb_advance_old_inv v Hwf Hinv n ltac:(lia)) as (Hwf' & Hinv').
    split; [assumption|split; [assumption|]].
    rewrite vrb_advance_old_eq by (auto; lia).
    destruct r as [m|]; simpl in *; [lia | exact I].
Qed.

Lemma vrb_run_inv ops : forall v r v' r',
  vrb_wf v -> vrb_inv v -> vrb_reserved_ok v r ->
  vrb_run ops (v, r) = Some (v', r') ->
  vrb_wf v' /\ vrb_inv v' /\ vrb_reserved_ok v' r'.
Proof.
  induction ops as [|op ops IH]; intros v r v' r' Hwf Hinv Hres; cbn [vrb_run].
  - intros [= <- <-]. auto.
  - destruct (vrb_step op (v, r)) as [[v1 r1]|] eqn:Hs; [|discriminate].
    destruct (vrb_step_inv _ _ _ _ _ Hwf Hinv Hres Hs) as (? & ? & ?).
    eauto.
Qed.

(** C1. Starting from an empty buffer (front = rear = fillsize = 0, with a
    size whose double is addressable), every state that the four accessors
    reach under their calling protocol satisfies [0 <= fillsize <= totsize]
    and [rear = (front + fillsize) mod totsize]. *)
Theorem vrb_invariant_reachable v0 ops v r :
  fillsize v0 = 0 -> front v0 = 0 -> rear v0 = 0 ->
  0 < totsize v0 -> 2 * totsize v0 <= LONG_MAX ->
  vrb_run ops (v0, None) = Some (v, r) ->
  0 <= fillsize v <= totsize v /\
  rear v = (front v + fillsize v) mod totsize v.
Proof.
  intros Hf Hfr Hr Ht H2 Hrun.
  assert (Hwf : vrb_wf v0) by (unfold vrb_wf; lia).
  assert (Hinv : vrb_inv v0).
  { unfold vrb_inv. rewrite Hf, Hfr, Hr, Z.add_0_l, Z.mod_0_l by lia. lia. }
  destruct (vrb_run_inv ops v0 None v r Hwf Hinv I Hrun) as (_ & Hinv' & _).
  exact Hinv'.
Qed.

Lemma vrb_invariant_reachable_witness :
  let ops := [PoiNew 7824; AdvanceNew 7824; PoiNew 4000; PoiOld; AdvanceOld 7824;
              AdvanceNew 4000; PoiNew 7824; AdvanceNew 7824; PoiOld; AdvanceOld 100] in
  let v := {| fillsize := 11724; front := 7924; rear := 7360; totsize := 12288 |} in
  vrb_run ops (init_vrb 10001 4096, None) = Some (v, None) /\
  (0 <= fillsize v <= totsize v /\ rear v = (front v + fillsize v) mod totsize v).
Proof.
  assert (Hrun : vrb_run [PoiNew 7824; AdvanceNew 7824; PoiNew 4000; PoiOld; AdvanceOld 7824;
                          AdvanceNew 4000; PoiNew 7824; AdvanceNew 7824; PoiOld; AdvanceOld 100]
                   (init_vrb 10001 4096, None)
                 = Some ({| fillsize := 11724; front := 7924; rear := 7360; totsize := 12288 |}, None))
    by (vm_compute; reflexivity).
  split; [exact Hrun|].
  refine (vrb_invariant_reachable (init_vrb 10001 4096) _ _ _ _ _ _ _ _ Hrun);
    try reflexivity; vm_compute; congruence.
Defined.

(** The buffer [init_vrb] sets up is such a start, for every size and page
    size that [main] can pass. *)
Corollary init_vrb_invariant_reachable minsize pagesize ops v r :
  vrb_init_ok minsize pagesize ->
  vrb_run ops (init_vrb minsize pagesize, None) = Some (v, r) ->
  vrb_inv v.
Proof.
  intros Hok Hrun.
  destruct (init_vrb_inv _ _ Hok) as (Hwf & Hinv).
  destruct (vrb_run_inv ops _ None _ _ Hwf Hinv I Hrun) as (_ & Hinv' & _).
  exact Hinv'.
Qed.

(** ** The packet number *)

Lemma quot_bound a b M :
  0 < b -> - M <= a <= M -> - M <= Z.quot a b <= M.
Proof.
  intros Hb Ha. destruct (Z_le_gt_dec 0 a) as [Hp|Hn].
  - pose proof (Z.mul_quot_le a b Hp ltac:(lia)). nia.
  - pose proof (Z.mul_quot_ge a b ltac:(lia) ltac:(lia)). nia.
Qed.

Lemma wrap32_range z : in_int (wrap32 z).
Proof.
  apply in_int_bounds. unfold wrap32, wrap.
  change (2 ^ (32 - 1)) with 2147483648. change (2 ^ 32) with 4294967296.
  pose proof (Z.mod_pos_bound (z + 2147483648) 4294967296 ltac:(lia)). lia.
Qed.

Lemma bits_one_range word lo : 0 <= bits word lo 1 <= 1.
Proof.
  unfold bits. rewrite Z.land_ones by lia. change (2 ^ 1) with 2.
  pose proof (Z.mod_pos_bound (Z.shiftr word lo) 2 ltac:(lia)). lia.
Qed.

(** Whatever the bytes of the packet are, the header read from them has its
    fields in range. *)
Lemma header_of_bytes_wf buff2 : header_wf (header_of_bytes buff2).
Proof.
  unfold header_wf, header_of_bytes; simpl.
  split; [apply wrap32_range|]. split; [apply wrap32_range|].
  split; apply bits_one_range.
Qed.

Lemma rate_factor (h : header_lofar) :
  0 <= is200mhz h <= 1 ->
  int_add 160 (int_mul 40 (is200mhz h)) = 160 + 40 * is200mhz h.
Proof.
  intros H. unfold int_add, int_mul.
  rewrite (wrap32_id (40 * is200mhz h)) by (apply in_int_bounds; lia).
  apply wrap32_id, in_int_bounds. lia.
Qed.

Lemma beamformed_packno_no_wrap (h : header_lofar) :
  header_wf h -> beamformed_packno h = packno_formula h.
Proof.
  intros (Ht & Hs & Hm & _).
  apply (proj1 (in_int_bounds _)) in Ht. apply (proj1 (in_int_bounds _)) in Hs.
  unfold beamformed_packno, packno_formula.
  rewrite rate_factor by assumption.
  assert (Hr : 160 + 40 * is200mhz h = 160 \/ 160 + 40 * is200mhz h = 200) by lia.
  generalize dependent (160 + 40 * is200mhz h). intros r Hr.
  assert (Hp : - 429496729600000000 <= timestamp h * 1000000 * r <= 429496729600000000)
    by (destruct Hr; subst r; lia).
  rewrite (long_mul_id (timestamp h)) by (apply in_long_bounds; lia).
  rewrite long_mul_id by (apply in_long_bounds; lia).
  rewrite (long_add_id _ 512) by (apply in_long_bounds; lia).
  pose proof (quot_bound (timestamp h * 1000000 * r + 512) 1024 429496729600000512
                ltac:(lia) ltac:(lia)) as Hq.
  rewrite (long_div_id _ 1024) by (apply in_long_bounds; lia).
  rewrite long_add_id by (apply in_long_bounds; lia).
  apply long_div_id, in_long_bounds.
  pose proof (quot_bound
                (Z.quot (timestamp h * 1000000 * r + 512) 1024 + sequence h) 16
                429496731747484160 ltac:(lia) ltac:(lia)).
  lia.
Qed.

(** C2, as amended. For every header whose fields are in the range of their
    C types the 64-bit computation of [beamformed_packno] never wraps and its
    result is ((timestamp * 1000000 * (160 + 40*is200mhz) + 512) / 1024 +
    sequence) / 16 with truncating division: [sequence] is added before the
    single division by 16. *)
Theorem beamformed_packno_formula (h : header_lofar) :
  header_wf h -> beamformed_packno h = packno_formula h.
Proof. apply beamformed_packno_no_wrap. Qed.

Lemma beamformed_packno_formula_witness :
  let h := mk_header 3 0 0 0 1 0 0 0 901 61 16 1543384831 15 in
  header_wf h /\ beamformed_packno h = packno_formula h.
Proof.
  assert (Hwf : header_wf (mk_header 3 0 0 0 1 0 0 0 901 61 16 1543384831 15)).
  { unfold header_wf; simpl. repeat split; try (apply in_int_bounds); lia. }
  split; [exact Hwf|]. exact (beamformed_packno_formula _ Hwf).
Defined.

(** C2 as stated fails: for timestamp 1, the 200 MHz clock and sequence 15
    the source yields 12208 where the formula of the specification, which
    divides [sequence] by 16 on its own, yields 12207. *)
Lemma beamformed_packno_not_spec_formula :
  let h := mk_header 3 0 0 0 1 0 0 0 901 61 16 1 15 in
  header_wf h /\ beamformed_packno h = 12208 /\ packno_spec_formula h = 12207 /\
  beamformed_packno h <> packno_spec_formula h.
Proof.
  simpl. split.
  - unfold header_wf; simpl. repeat split; try (apply in_int_bounds); lia.
  - split; [reflexivity|]. split; [reflexivity|]. discriminate.
Qed.

(** On packets read off the wire the amended formula needs no side
    condition. *)
Corollary beamformed_packno_of_bytes buff2 :
  beamformed_packno (header_of_bytes buff2) = packno_formula (header_of_bytes buff2).
Proof. apply beamformed_packno_no_wrap, header_of_bytes_wf. Qed.

(** ** [signal_handler]: what it leaves alone *)

Lemma signal_handler_frame cfg signum s :
  let s' := signal_handler cfg signum s in
  ringbuffer s' = ringbuffer s /\ outf s' = outf s /\
  bytes_written_thisfile s' = bytes_written_thisfile s /\
  filenumber s' = filenumber s /\ disk s' = disk s /\
  space_available s' = space_available s.
Proof.
  cbv zeta. unfold signal_handler.
  repeat case_match; repeat split; reflexivity.
Qed.

(** What SIGHUP does to the stop level and to the condition. *)
Lemma signal_handler_SIGHUP cfg s :
  stopped (signal_handler cfg SIGHUP s)
  = (if is_open (outf s) && (stopped s =? 0) then 1 else stopped s) /\
  data_available (signal_handler cfg SIGHUP s)
  = (if is_open (outf s) then S (data_available s) else data_available s).
Proof.
  unfold signal_handler. change (SIGHUP <? 0) with false.
  change ((SIGHUP =? SIGINT) || (SIGHUP =? SIGTERM) || (SIGHUP =? SIGALRM)) with false.
  change ((SIGHUP =? -1) || (SIGHUP =? SIGHUP)) with true.
  cbn [andb outf upd_stat set_stat stopped].
  destruct (outf s) eqn:Eo; [|split; reflexivity].
  destruct (stopped s =? 0) eqn:E; split; reflexivity.
Qed.


(** ** [--Maxfilesize] *)

Lemma split_never_wanted_at_zero bytes : split_wanted 0 bytes = false.
Proof. reflexivity. Qed.

(** For a whole number of bytes that fits an [int] the threshold is the
    absolute value, and the sign selects the kind of statistics. *)
Lemma option_M_integral (n : Z) :
  n <> 0 -> - INT_MAX <= n <= INT_MAX ->
  option_M (inject_Z n) = Accepted (inject_Z (Z.abs n), 0 <? n).
Proof.
  intros Hn Hr. rewrite int_max_val in Hr. unfold option_M.
  destruct (Qeq_bool (inject_Z n) 0) eqn:E.
  { apply Qeq_bool_eq in E. unfold Qeq in E. simpl in E. lia. }
  unfold double_to_int. cbn [inject_Z Qnum Qden]. rewrite Z.quot_1_r.
  replace ((INT_MIN <=? n) && (n <=? INT_MAX)) with true
    by (symmetry; apply andb_true_intro; split; apply Z.leb_le;
        unfold INT_MIN; rewrite ?int_max_val; change (2 ^ 31) with 2147483648; lia).
  unfold abs. replace (n =? INT_MIN) with false
    by (symmetry; apply Z.eqb_neq; unfold INT_MIN; change (2 ^ 31) with 2147483648; lia).
  f_equal. f_equal. unfold Qlt_bool, Qle_bool. cbn [inject_Z Qnum Qden].
  rewrite Z.mul_1_r. simpl. destruct (Z.leb_spec n 0), (Z.ltb_spec 0 n); simpl; lia || reflexivity.
Qed.

(** C8 fails on the source: [abs] is the integer function, so the value is
    cut to an [int] before its sign is dropped.  [--Maxfilesize 0.5] is
    accepted and gives the threshold 0, with which no file is ever split;
    2.5 gives 2 instead of 2.5; for 3e9 the conversion to [int] has no defined
    result. *)
Theorem option_M_truncates :
  option_M (1 # 2) = Accepted (0%Q, true) /\
  (forall bytes, split_wanted 0 bytes = false) /\
  option_M (5 # 2) = Accepted (2%Q, true) /\
  option_M (3000000000 # 1) = Undefined.
Proof.
  split; [reflexivity|]. split; [exact split_never_wanted_at_zero|].
  split; reflexivity.
Qed.

(** ** The sample packet and configurations *)

Example sample_packet_header :
  header_of_bytes (sample_packet 1 15) = mk_header 3 0 0 0 1 0 0 0 901 61 16 1 15.
Proof. reflexivity. Qed.

Example sample_packet_bad_timestamp :
  timestamp (header_of_bytes (sample_packet (-1) 0)) = -1 /\
  beamformed_checkpack (header_of_bytes (sample_packet (-1) 0)) = false.
Proof. split; reflexivity. Qed.

Lemma cfg_udp_ok : config_ok cfg_udp.
Proof.
  unfold config_ok, cfg_udp, MMAXLEN, MAXNSOCK, stdin_mode; cbn.
  rewrite long_max_val, int_max_val. repeat split; try lia; discriminate.
Qed.

Lemma cfg_stdin_sizehead_ok : config_ok cfg_stdin_sizehead.
Proof.
  unfold config_ok, cfg_stdin_sizehead, MMAXLEN, MAXNSOCK, stdin_mode; cbn.
  rewrite long_max_val, int_max_val. repeat split; try lia; discriminate.
Qed.

Lemma cfg_check_ok : config_ok cfg_check.
Proof.
  unfold config_ok, cfg_check, MMAXLEN, MAXNSOCK, stdin_mode; cbn.
  rewrite long_max_val, int_max_val. repeat split; try lia; discriminate.
Qed.

Lemma cfg_oversize_ok : config_ok cfg_oversize.
Proof.
  unfold config_ok, cfg_oversize, MMAXLEN, MAXNSOCK, stdin_mode; cbn.
  rewrite long_max_val, int_max_val. repeat split; try lia; discriminate.
Qed.

(** ** The producer, one packet at a time *)

Lemma incr_lookup (a : list Z) i d :
  (i < length a)%nat -> incr a i d !!! i = long_add (a !!! i) d.
Proof. intros H. unfold incr. apply list_lookup_total_insert_eq, H. Qed.

Lemma incr_lookup_ne (a : list Z) i j d :
  i <> j -> incr a i d !!! j = a !!! j.
Proof. intros H. unfold incr. apply list_lookup_total_insert_ne, H. Qed.

Lemma incr_length (a : list Z) i d : length (incr a i d) = length a.
Proof. apply length_insert. Qed.

Lemma producer_account_frame cfg i header t :
  let t' := producer_account cfg i header t in
  packs_seen t' = incr (packs_seen t) i 1 /\
  packs_dropped t' = packs_dropped t /\
  bytes_written t' = bytes_written t /\
  totlen t' = totlen t /\ lasttotlen t' = lasttotlen t /\
  maxsize t' = maxsize t /\ n_filllevel t' = n_filllevel t.
Proof.
  cbv zeta. unfold producer_account.
  repeat case_match; repeat split; reflexivity.
Qed.

(** C5. When the reserve for an accepted packet reports no space, the packet
    is only accounted for: [packs_seen] and [packs_dropped] of the port go up
    by one, the ring buffer and the port's [bytes_written] stay as they
    were. *)
Theorem udp_full_buffer_drops cfg i thissize buff2 s :
  stdin_mode cfg = false ->
  thissize <> 0 -> stopped s <> 2 ->
  packlen cfg = 0 \/ thissize = packlen cfg ->
  vrb_poi_new (ringbuffer s)
    (if do_blocklen cfg then int_add thissize 2 else thissize) = None ->
  (i < length (packs_seen (stat s)))%nat ->
  (i < length (packs_dropped (stat s)))%nat ->
  0 <= packs_seen (stat s) !!! i < LONG_MAX ->
  0 <= packs_dropped (stat s) !!! i < LONG_MAX ->
  let s' := producer_packet cfg i thissize buff2 s in
  packs_dropped (stat s') !!! i = packs_dropped (stat s) !!! i + 1 /\
  packs_seen (stat s') !!! i = packs_seen (stat s) !!! i + 1 /\
  ringbuffer s' = ringbuffer s /\
  fillsize (ringbuffer s') = fillsize (ringbuffer s) /\
  front (ringbuffer s') = front (ringbuffer s) /\
  rear (ringbuffer s') = rear (ringbuffer s) /\
  bytes_written (stat s') !!! i = bytes_written (stat s) !!! i.
Proof.
  intros _ Hsize Hstop Hlen Hfull Hi1 Hi2 Hseen Hdrop. cbv zeta.
  rewrite long_max_val in Hseen, Hdrop.
  unfold producer_packet, producer_recv.
  rewrite (proj2 (Z.eqb_neq _ _) Hsize), (proj2 (Z.eqb_neq _ _) Hstop).
  replace ((packlen cfg =? 0) || (thissize =? packlen cfg)) with true
    by (symmetry; apply orb_true_iff; destruct Hlen as [H|H]; [left|right];
        apply Z.eqb_eq; exact H).
  unfold producer_reserve. cbn [ringbuffer upd_stat set_stat].
  rewrite Hfull. cbn [producer_store].
  destruct (producer_account_frame cfg i (header_of_bytes buff2) (stat s))
    as (Hs & Hd & Hb & _).
  cbn [stat upd_stat set_stat ringbuffer packs_dropped packs_seen bytes_written
       set_packs_dropped set_n_filllevel].
  rewrite Hs, Hd, Hb.
  rewrite !incr_lookup by assumption.
  rewrite !long_add_id by (apply in_long_bounds; lia).
  repeat split; reflexivity.
Qed.

Lemma udp_full_buffer_drops_witness :
  let s := set_ringbuffer {| fillsize := 12288; front := 16; rear := 16; totsize := 12288 |}
             (main_state cfg_udp) in
  let s' := producer_packet cfg_udp 1 8 (sample_packet 1 15) s in
  packs_dropped (stat s') !!! 1%nat = packs_dropped (stat s) !!! 1%nat + 1 /\
  packs_seen (stat s') !!! 1%nat = packs_seen (stat s) !!! 1%nat + 1 /\
  ringbuffer s' = ringbuffer s /\
  fillsize (ringbuffer s') = fillsize (ringbuffer s) /\
  front (ringbuffer s') = front (ringbuffer s) /\
  rear (ringbuffer s') = rear (ringbuffer s) /\
  bytes_written (stat s') !!! 1%nat = bytes_written (stat s) !!! 1%nat.
Proof.
  apply (udp_full_buffer_drops cfg_udp 1 8 (sample_packet 1 15)).
  - reflexivity.
  - discriminate.
  - discriminate.
  - right; reflexivity.
  - reflexivity.
  - vm_compute; lia.
  - vm_compute; lia.
  - vm_compute; split; [discriminate | reflexivity].
  - vm_compute; split; [discriminate | reflexivity].
Defined.

(** C4 fails on the source when [--sizehead] is on: the producer waits for
    room for [packlen] bytes but then reserves [packlen+2].  With a ring
    buffer of 12288 bytes and packets of 6143 bytes the second packet read
    from stdin finds 6145 bytes stored, passes the wait (6145+6143 = 12288)
    and is dropped (6145+6145 > 12288). *)
Theorem stdin_sizehead_drops :
  let evs := [EvStdinWait; EvStdinRead 6143 (sample_packet 1 0);
              EvReserve; EvStore; EvTally;
              EvStdinWait; EvStdinRead 6143 (sample_packet 1 16);
              EvReserve; EvStore] in
  config_ok cfg_stdin_sizehead /\
  stdin_mode cfg_stdin_sizehead = true /\
  do_blocklen cfg_stdin_sizehead = true /\
  option_map (fun σ => (packs_seen (stat (g σ)) !!! 0%nat,
                        packs_dropped (stat (g σ)) !!! 0%nat,
                        fillsize (ringbuffer (g σ)), totsize (ringbuffer (g σ))))
             (run cfg_stdin_sizehead evs (main_sys cfg_stdin_sizehead))
  = Some (2, 1, 6145, 12288).
Proof.
  cbv zeta. split; [exact cfg_stdin_sizehead_ok|]. vm_compute. repeat split.
Qed.

(** ** Frame properties of the pieces of the two threads *)

Lemma signal_handler_rb cfg n s : ringbuffer (signal_handler cfg n s) = ringbuffer s.
Proof. apply (signal_handler_frame cfg n s). Qed.

Lemma signal_handler_outf cfg n s : outf (signal_handler cfg n s) = outf s.
Proof. apply (signal_handler_frame cfg n s). Qed.

Lemma signal_handler_bwt cfg n s :
  bytes_written_thisfile (signal_handler cfg n s) = bytes_written_thisfile s.
Proof. apply (signal_handler_frame cfg n s). Qed.

Lemma signal_handler_disk cfg n s : disk (signal_handler cfg n s) = disk s.
Proof. apply (signal_handler_frame cfg n s). Qed.

Lemma producer_recv_frame cfg i n h s :
  let s' := fst (producer_recv cfg i n h s) in
  ringbuffer s' = ringbuffer s /\ outf s' = outf s /\
  bytes_written_thisfile s' = bytes_written_thisfile s /\ disk s' = disk s.
Proof.
  cbv zeta. unfold producer_recv. repeat case_match; repeat split; reflexivity.
Qed.

Lemma producer_recv_rb cfg i n h s :
  ringbuffer (fst (producer_recv cfg i n h s)) = ringbuffer s.
Proof. apply (producer_recv_frame cfg i n h s). Qed.

Lemma producer_recv_outf cfg i n h s :
  outf (fst (producer_recv cfg i n h s)) = outf s.
Proof. apply (producer_recv_frame cfg i n h s). Qed.

Lemma producer_recv_bwt cfg i n h s :
  bytes_written_thisfile (fst (producer_recv cfg i n h s)) = bytes_written_thisfile s.
Proof. apply (producer_recv_frame cfg i n h s). Qed.

Lemma producer_recv_disk cfg i n h s :
  disk (fst (producer_recv cfg i n h s)) = disk s.
Proof. apply (producer_recv_frame cfg i n h s). Qed.

(** The packet goes on only with its length checked, two bytes longer when
    the length is written in front of it. *)
Lemma producer_recv_pc cfg i n h s :
  snd (producer_recv cfg i n h s) = PIdle \/
  (snd (producer_recv cfg i n h s)
   = PAccounted i (if do_blocklen cfg then int_add n 2 else n) /\
   n <> 0 /\ stopped s <> 2 /\ (packlen cfg = 0 \/ n = packlen cfg)).
Proof.
  unfold producer_recv.
  destruct (Z.eqb_spec n 0); [left; reflexivity|].
  destruct (Z.eqb_spec (stopped s) 2); [left; reflexivity|].
  destruct (Z.eqb_spec (packlen cfg) 0) as [E|E]; simpl.
  - right. auto.
  - destruct (Z.eqb_spec n (packlen cfg)); [right; auto | left; reflexivity].
Qed.

Lemma producer_store_frame i n p s :
  let s' := fst (producer_store i n p s) in
  outf s' = outf s /\ bytes_written_thisfile s' = bytes_written_thisfile s /\
  disk s' = disk s /\
  ringbuffer s' = (if is_open p then vrb_advance_new (ringbuffer s) n else ringbuffer s).
Proof.
  cbv zeta. unfold producer_store. destruct p; simpl; [|repeat split; reflexivity].
  case_match; repeat split; reflexivity.
Qed.

Lemma start_file_frame cfg s :
  ringbuffer (start_file cfg s) = ringbuffer s /\ disk (start_file cfg s) = disk s /\
  outf (start_file cfg s) = Some [] /\ bytes_written_thisfile (start_file cfg s) = 0.
Proof. unfold start_file. repeat case_match; repeat split; reflexivity. Qed.

Lemma consumer_file_rb cfg p o s :
  ringbuffer (fst (consumer_file cfg p o s)) = ringbuffer s.
Proof.
  unfold consumer_file, start_file. repeat case_match; reflexivity.
Qed.

Lemma consumer_file_pc cfg p o s :
  snd (consumer_file cfg p o s) = CExited \/ snd (consumer_file cfg p o s) = CClear p o.
Proof. unfold consumer_file. case_match; auto. Qed.

Lemma consumer_clear_frame p o s :
  let s' := fst (consumer_clear p o s) in
  ringbuffer s' = ringbuffer s /\ outf s' = outf s /\
  bytes_written_thisfile s' = bytes_written_thisfile s /\ disk s' = disk s.
Proof. cbv zeta. unfold consumer_clear. case_match; repeat split; reflexivity. Qed.

Lemma consumer_open_frame cfg s :
  ringbuffer (consumer_open cfg s) = ringbuffer s /\
  disk (consumer_open cfg s) = disk s /\
  is_open (outf (consumer_open cfg s)) = true.
Proof.
  unfold consumer_open. destruct (outf s) eqn:E.
  - rewrite E. auto.
  - destruct (start_file_frame cfg (if filenumber s >? 0 then set_filenumber 0 s else s))
      as (-> & -> & -> & _).
    case_match; auto.
Qed.

Lemma consumer_write_inv cfg t s s' pc :
  consumer_write cfg t s = Some (s', pc) ->
  exists f, outf s = Some f /\ outf s' = Some (f ++ [consumer_chunk cfg t]) /\
    pc = CRelease (consumer_chunk cfg t) /\
    ringbuffer s' = ringbuffer s /\ disk s' = disk s /\
    bytes_written_thisfile s'
    = long_add (bytes_written_thisfile s) (consumer_chunk cfg t).
Proof.
  unfold consumer_write. destruct (outf s) as [f|]; [|discriminate].
  intros [= <- <-]. exists f. repeat split; reflexivity.
Qed.

(** The size of a write: nothing wraps, and it is the fill level that was
    read, cut to [maxwrite] and rounded down to whole packets. *)
Lemma consumer_chunk_spec cfg t :
  config_ok cfg -> 0 <= t <= LONG_MAX ->
  consumer_chunk cfg t = chunk_spec cfg t /\
  0 <= consumer_chunk cfg t <= Z.min t (maxwrite cfg).
Proof.
  intros ((HL0 & HL1) & (Hm0 & Hm1) & _) Ht.
  rewrite long_max_val in *.
  unfold consumer_chunk, chunk_spec, round_down.
  assert (Hmin : (if t >? maxwrite cfg then maxwrite cfg else t) = Z.min t (maxwrite cfg))
    by (destruct (Z.gtb_spec t (maxwrite cfg)); lia).
  rewrite Hmin. set (m := Z.min t (maxwrite cfg)). assert (Hmr : 0 <= m <= t) by (subst m; lia).
  destruct (Z.eqb_spec (packlen cfg) 0) as [E|E]; simpl.
  - rewrite E. simpl. lia.
  - replace (0 <? packlen cfg) with true by (symmetry; apply Z.ltb_lt; lia).
    assert (Hq : 0 <= m / packlen cfg <= m).
    { split; [apply Z.div_pos; lia|]. apply Z.div_le_upper_bound; nia. }
    assert (Hle : packlen cfg * (m / packlen cfg) <= m) by (apply Z.mul_div_le; lia).
    rewrite long_div_id; rewrite Z.quot_div_nonneg by lia; [|apply in_long_bounds; lia].
    rewrite long_mul_id by (apply in_long_bounds; nia).
    split; [lia|nia].
Qed.

(** [round_down m L] is the largest multiple of [L] that does not exceed
    [m]. *)
Lemma round_down_greatest m L :
  0 < L ->
  (L | round_down m L) /\ round_down m L <= m /\
  (forall x, (L | x) -> x <= m -> x <= round_down m L).
Proof.
  intros HL. unfold round_down. split; [exists (m / L); lia|].
  split; [apply Z.mul_div_le; lia|].
  intros x (k & ->) Hx.
  assert (k <= m / L) by (apply Z.div_le_lower_bound; lia). nia.
Qed.

(** ** The ring buffer invariant along a run *)

Lemma config_ok_init cfg : config_ok cfg -> vrb_init_ok (bufsize cfg) (pagesize cfg).
Proof.
  intros (_ & _ & _ & _ & _ & _ & Hb & Hp).
  unfold vrb_init_ok. rewrite long_max_val. rewrite int_max_val in Hp. lia.
Qed.

Lemma main_state_rb cfg : ringbuffer (main_state cfg) = init_vrb (bufsize cfg) (pagesize cfg).
Proof. unfold main_state, start_file. repeat case_match; reflexivity. Qed.

Lemma main_sys_inv cfg : config_ok cfg -> sys_inv (main_sys cfg).
Proof.
  intros Hok. unfold sys_inv, main_sys; cbn [g ppc cpc]. rewrite main_state_rb.
  destruct (init_vrb_inv _ _ (config_ok_init _ Hok)) as (Hwf & Hinv).
  repeat split; try apply Hwf; try apply Hinv.
Qed.

Lemma packet_size_int cfg n :
  0 < n < MMAXLEN ->
  0 < (if do_blocklen cfg then int_add n 2 else n) <= MMAXLEN + 1.
Proof.
  unfold MMAXLEN. intros Hn. destruct (do_blocklen cfg); [|lia].
  unfold int_add. rewrite wrap32_id by (apply in_int_bounds; lia). lia.
Qed.

Lemma step_sys_inv cfg ev σ σ' :
  config_ok cfg -> sys_inv σ -> step cfg ev σ = Some σ' -> sys_inv σ'.
Proof.
  intros Hok (Hwf & Hinv & Hp & Hc) Hstep.
  pose proof Hok as ((HL0 & HL1) & _).
  destruct ev; step_cases Hstep; unfold sys_inv; cbn [g ppc cpc];
    rewrite ?signal_handler_rb, ?producer_recv_rb, ?consumer_file_rb;
    try match goal with H : ppc σ = _ |- _ => rewrite H in Hp end;
    try match goal with H : cpc σ = _ |- _ => rewrite H in Hc end;
    cbn [ppc_inv cpc_inv] in *.
  - (* signal *) inv4.
  - (* progress *) inv4.
  - (* timeout *) inv4.
  - (* producer exits *) inv4.
  - (* stdin: room seen *) inv4.
  - (* stdin: end of input *) inv4.
  - (* stdin: a packet *)
    inv4.
    destruct (producer_recv_pc cfg 0 size buff2 (g σ)) as [-> | (-> & _)]; [exact I|].
    apply packet_size_int. unfold MMAXLEN in *. lia.
  - (* recvfrom *)
    inv4.
    destruct (producer_recv_pc cfg i size buff2 (g σ)) as [-> | (-> & _)]; [exact I|].
    apply packet_size_int. lia.
  - (* reserve *)
    unfold producer_reserve; cbn [fst snd ringbuffer upd_stat set_stat ppc_inv].
    inv4. split; [assumption|].
    destruct (vrb_poi_new (ringbuffer (g σ)) thissize) eqn:E; [|discriminate].
    intros _. eapply vrb_poi_new_Some_fits; eauto.
    rewrite int_max_val. unfold MMAXLEN in *. lia.
  - (* store *)
    destruct (producer_store_frame i thissize newpoi (g σ)) as (_ & _ & _ & Hrb).
    cbv zeta in Hrb. rewrite Hrb. destruct Hp as (Hn & Hfit).
    destruct newpoi as [p|]; cbn [is_open producer_store snd ppc_inv].
    + specialize (Hfit eq_refl).
      destruct (vrb_advance_new_inv _ Hwf Hinv thissize ltac:(lia) Hfit) as (Hwf' & Hinv').
      inv4.
      rewrite vrb_advance_new_eq by (auto; lia).
      destruct (cpc σ); cbn [cpc_inv fillsize] in *; try exact I; try lia;
        try (intros Ho; specialize (Hc Ho); lia).
    + inv4.
  - (* tally *)
    unfold producer_tally; cbn [fst snd ringbuffer upd_stat set_stat ppc_inv]. inv4.
  - (* consumer wakes *)
    inv4.
    match goal with H : consumer_wake _ = Some _ |- _ => unfold consumer_wake in H end.
    case_match; simplify_eq. cbn [cpc_inv]. unfold vrb_poi_old.
    destruct Hinv as ((Hf0 & _) & _).
    destruct (Z.eqb_spec (fillsize (ringbuffer (g σ))) 0); [discriminate | lia].
  - (* stop level read *) inv4.
  - (* file *)
    inv4.
    destruct (consumer_file_pc cfg oldpoi old_stopped (g σ)) as [-> | ->]; [exact I | exact Hc].
  - (* stop level cleared *)
    destruct (consumer_clear_frame oldpoi old_stopped (g σ)) as (Hrb & _).
    cbv zeta in Hrb. rewrite Hrb.
    inv4.
    unfold consumer_clear; cbn [snd]. destruct oldpoi; cbn [is_open cpc_inv]; auto.
  - (* fill level read *) inv4. lia.
  - (* file opened *)
    destruct (consumer_open_frame cfg (g σ)) as (-> & _). inv4.
  - (* write *)
    match goal with H : consumer_write _ _ _ = Some ?r |- _ =>
      destruct r as [s1 pc1];
      destruct (consumer_write_inv _ _ _ _ _ H) as (f & _ & _ & -> & Hrb & _) end.
    cbn [fst snd]. rewrite Hrb.
    pose proof Hwf as (Ht & H2 & Hfr). pose proof Hinv as ((Hf0 & Hf1) & Hr).
    rewrite long_max_val in H2.
    destruct (consumer_chunk_spec cfg thissize Hok ltac:(rewrite long_max_val; lia)) as (_ & Hch).
    inv4. cbn [cpc_inv]. lia.
  - (* release *)
    unfold consumer_release; cbn [fst snd ringbuffer pthread_cond_signal_space
      set_space_available set_ringbuffer].
    destruct (vrb_advance_old_inv _ Hwf Hinv thissize Hc) as (Hwf' & Hinv').
    inv4.
    rewrite vrb_advance_old_eq by auto.
    destruct (ppc σ); cbn [ppc_inv fillsize totsize] in *; auto.
    destruct Hp as (Hn & Hfit). split; [exact Hn|]. intros Ho. specialize (Hfit Ho). lia.
Qed.

Lemma run_sys_inv cfg evs : forall σ σ',
  config_ok cfg -> sys_inv σ -> run cfg evs σ = Some σ' -> sys_inv σ'.
Proof.
  induction evs as [|ev evs IH]; intros σ σ' Hok Hinv; cbn [run].
  - intros [= <-]. exact Hinv.
  - destruct (step cfg ev σ) as [σ1|] eqn:Hs; [|discriminate].
    apply IH; auto. eapply step_sys_inv; eauto.
Qed.

(** ** Runs *)

Lemma run_app cfg evs1 evs2 σ σ' :
  run cfg (evs1 ++ evs2) σ = Some σ' <->
  exists σm, run cfg evs1 σ = Some σm /\ run cfg evs2 σm = Some σ'.
Proof.
  revert σ. induction evs1 as [|ev evs1 IH]; intros σ; cbn [run app].
  - split; [eauto|]. intros (σm & [= <-] & H). exact H.
  - destruct (step cfg ev σ) as [σ1|]; [apply IH|].
    split; [discriminate|]. intros (σm & H & _). discriminate.
Qed.

Lemma run_cons cfg ev evs σ σ' :
  run cfg (ev :: evs) σ = Some σ' <->
  exists σm, step cfg ev σ = Some σm /\ run cfg evs σm = Some σ'.
Proof.
  cbn [run]. destruct (step cfg ev σ) as [σ1|]; [split; eauto|].
  - intros (σm & [= <-] & H). exact H.
  - split; [discriminate|]. intros (σm & H & _). discriminate.
Qed.

(** An invariant of the steps holds after every run. *)
Lemma run_invariant cfg (P : sys -> Prop) :
  (forall ev σ σ', P σ -> step cfg ev σ = Some σ' -> P σ') ->
  forall evs σ σ', P σ -> run cfg evs σ = Some σ' -> P σ'.
Proof.
  intros Hstep. induction evs as [|ev evs IH]; intros σ σ' HP; cbn [run].
  - intros [= <-]. exact HP.
  - destruct (step cfg ev σ) as [σ1|] eqn:Hs; [|discriminate]. eauto.
Qed.

Lemma reachable_sys_inv cfg evs σ :
  config_ok cfg -> run cfg evs (main_sys cfg) = Some σ -> sys_inv σ.
Proof. intros Hok. apply run_sys_inv; auto using main_sys_inv. Qed.

(** The other thread and the signals leave the consumer where it is. *)
Lemma step_keeps_consumer cfg ev σ σ' :
  consumer_event ev = false -> step cfg ev σ = Some σ' -> cpc σ' = cpc σ.
Proof.
  intros Hev Hstep. destruct ev; try discriminate Hev; step_cases Hstep; reflexivity.
Qed.

Lemma run_keeps_consumer cfg evs : forall σ σ',
  Forall (fun ev => consumer_event ev = false) evs ->
  run cfg evs σ = Some σ' -> cpc σ' = cpc σ.
Proof.
  induction evs as [|ev evs IH]; intros σ σ' Hall; cbn [run].
  - intros [= <-]. reflexivity.
  - destruct (step cfg ev σ) as [σ1|] eqn:Hs; [|discriminate].
    inversion Hall; subst. intros Hrun.
    rewrite (IH _ _ ltac:(assumption) Hrun). eapply step_keeps_consumer; eauto.
Qed.

(** ** The files *)

Lemma files_all_same P σ σ' :
  outf (g σ') = outf (g σ) -> disk (g σ') = disk (g σ) ->
  files_all P σ -> files_all P σ'.
Proof. unfold files_all, all_files. intros -> ->. auto. Qed.

Lemma all_files_split s (P : list Z -> Prop) :
  Forall P (all_files s) <->
  Forall P (disk s) /\ (forall f, outf s = Some f -> P f).
Proof.
  unfold all_files.
  rewrite Forall_app. destruct (outf s) as [f|].
  - rewrite Forall_singleton. split; intros (Hd & Hf); split; auto.
    intros f' [= <-]. exact Hf.
  - split; intros (Hd & Hf); split; auto. discriminate.
Qed.

Lemma files_all_iff P σ :
  files_all P σ <->
  Forall (Forall P) (disk (g σ)) /\
  (forall f, outf (g σ) = Some f -> Forall P f).
Proof. unfold files_all. apply all_files_split. Qed.

Lemma consumer_file_files cfg p o s (P : list Z -> Prop) :
  P [] -> Forall P (all_files s) ->
  Forall P (all_files (fst (consumer_file cfg p o s))).
Proof.
  intros Hnil Hall. apply all_files_split in Hall. destruct Hall as (Hd & Hf).
  apply all_files_split. unfold consumer_file.
  destruct (outf s) as [f|] eqn:Eo; cbn [fst].
  2: { case_match; cbn [fst]; (split; [exact Hd|]); rewrite Eo; discriminate. }
  assert (HPf : P f) by auto.
  repeat case_match; cbn [fst]; unfold start_file;
    repeat case_match;
    cbn [disk outf set_outf set_disk set_bytes_written_thisfile set_filenumber
         upd_stat set_stat];
    (split; [try exact Hd; try (apply Forall_app; split; [exact Hd | apply Forall_singleton; exact HPf])
            | intros f' Hf'; simplify_eq; auto]).
Qed.

Lemma consumer_open_files cfg s (P : list Z -> Prop) :
  P [] -> Forall P (all_files s) -> Forall P (all_files (consumer_open cfg s)).
Proof.
  intros Hnil Hall. apply all_files_split in Hall. destruct Hall as (Hd & Hf).
  apply all_files_split. unfold consumer_open.
  destruct (outf s) as [f|] eqn:Eo.
  - split; [exact Hd|]. rewrite Eo. exact Hf.
  - destruct (start_file_frame cfg (if filenumber s >? 0 then set_filenumber 0 s else s))
      as (_ & -> & -> & _).
    split; [case_match; exact Hd|]. intros f' [= <-]. exact Hnil.
Qed.

Lemma whole_packets_offsets L f o :
  Forall (fun w => (L | w)) f -> o ∈ file_offsets f -> (L | o).
Proof.
  unfold file_offsets. intros Hf Ho.
  apply list_elem_of_fmap in Ho. destruct Ho as (k & -> & _).
  assert (Hk : Forall (fun w => (L | w)) (take k f)) by (apply Forall_take; exact Hf).
  induction Hk as [|w ws Hw Hws IH]; cbn [sum_writes foldr].
  - apply Z.divide_0_r.
  - apply Z.divide_add_r; assumption.
Qed.

Lemma consumer_chunk_whole cfg t :
  config_ok cfg -> 0 < packlen cfg -> 0 <= t <= LONG_MAX ->
  (packlen cfg | consumer_chunk cfg t).
Proof.
  intros Hok HL Ht. destruct (consumer_chunk_spec cfg t Hok Ht) as (-> & _).
  unfold chunk_spec. replace (0 <? packlen cfg) with true by (symmetry; apply Z.ltb_lt; lia).
  apply round_down_greatest, HL.
Qed.

Lemma step_files_all cfg (P : Z -> Prop) ev σ σ' :
  config_ok cfg ->
  (forall t, 0 < t <= LONG_MAX -> P (consumer_chunk cfg t)) ->
  sys_inv σ -> files_all P σ -> step cfg ev σ = Some σ' -> files_all P σ'.
Proof.
  intros Hok HP (Hwf & Hinv & Hp & Hc) Hfiles Hstep.
  destruct ev; step_cases Hstep;
    try (apply (files_all_same P σ); cbn [g];
         rewrite ?signal_handler_outf, ?signal_handler_disk,
                 ?producer_recv_outf, ?producer_recv_disk; auto; fail).
  - (* store *)
    destruct (producer_store_frame i thissize newpoi (g σ)) as (Ho & _ & Hd & _).
    apply (files_all_same P σ); assumption.
  - (* file *)
    unfold files_all; cbn [g]. apply consumer_file_files; [constructor | exact Hfiles].
  - (* stop level cleared *)
    destruct (consumer_clear_frame oldpoi old_stopped (g σ)) as (_ & Ho & _ & Hd).
    apply (files_all_same P σ); assumption.
  - (* file opened *)
    unfold files_all; cbn [g]. apply consumer_open_files; [constructor | exact Hfiles].
  - (* write *)
    match goal with H : consumer_write _ _ _ = Some ?r |- _ =>
      destruct r as [s1 pc1];
      destruct (consumer_write_inv _ _ _ _ _ H) as (f & Hf & Hf' & _ & _ & Hd & _) end.
    apply files_all_iff in Hfiles. destruct Hfiles as (Hdisk & Hopen).
    apply files_all_iff. cbn [g fst]. rewrite Hd, Hf'. split; [exact Hdisk|].
    intros f' [= <-]. apply Forall_app. split; [apply Hopen, Hf|].
    apply Forall_singleton. apply HP.
    try match goal with H : cpc σ = CWrite _ |- _ => rewrite H in Hc end.
    cbn [cpc_inv] in Hc.
    destruct Hwf as (Ht & H2 & _), Hinv as ((_ & Hf1) & _). lia.
Qed.

Lemma main_state_files cfg :
  disk (main_state cfg) = [] /\
  (outf (main_state cfg) = None \/ outf (main_state cfg) = Some []) /\
  bytes_written_thisfile (main_state cfg) = 0.
Proof.
  unfold main_state, start_file.
  destruct (start_given cfg), (devnull cfg); repeat case_match; cbn; auto.
Qed.

Lemma main_files_all cfg P : files_all P (main_sys cfg).
Proof.
  apply files_all_iff. unfold main_sys; cbn [g].
  destruct (main_state_files cfg) as (-> & [-> | ->] & _);
    (split; [constructor|]); intros f [= <-]. constructor.
Qed.

Lemma reachable_files_all cfg (P : Z -> Prop) evs σ :
  config_ok cfg ->
  (forall t, 0 < t <= LONG_MAX -> P (consumer_chunk cfg t)) ->
  run cfg evs (main_sys cfg) = Some σ -> files_all P σ.
Proof.
  intros Hok HP Hrun.
  cut (sys_inv σ /\ files_all P σ); [tauto|].
  revert Hrun. apply run_invariant with (P := fun σ => sys_inv σ /\ files_all P σ).
  - intros ev σ1 σ2 (Hi & Hf) Hstep. split.
    + eapply step_sys_inv; eauto.
    + eapply step_files_all; eauto.
  - split; [apply main_sys_inv, Hok | apply main_files_all].
Qed.

Lemma reachable_files_ok cfg evs σ :
  config_ok cfg -> 0 < packlen cfg ->
  run cfg evs (main_sys cfg) = Some σ ->
  files_all (fun w => (packlen cfg | w)) σ.
Proof.
  intros Hok HL. apply reachable_files_all; [exact Hok|].
  intros t Ht. apply consumer_chunk_whole; auto. lia.
Qed.

(** C3. In every write iteration of the consumer - the fill level is read,
    a file is opened if none is, the block is written, with the producer and
    signals free to come in between - the bytes written are
    [min(fillsize, maxwrite)] for the fill level read, rounded down to the
    nearest multiple of the packet length L when L > 0.  Hence with L > 0
    every write, and every offset in every output file, is a multiple
    of L. *)
Theorem consumer_writes_whole_packets cfg :
  config_ok cfg ->
  (forall evs σ0 mid1 mid2 σ3,
     run cfg evs (main_sys cfg) = Some σ0 ->
     Forall (fun ev => consumer_event ev = false) mid1 ->
     Forall (fun ev => consumer_event ev = false) mid2 ->
     run cfg (EvCSize :: mid1 ++ EvCOpen :: mid2 ++ [EvCWrite]) σ0 = Some σ3 ->
     exists f,
       outf (g σ3) = Some (f ++ [chunk_spec cfg (fillsize (ringbuffer (g σ0)))]) /\
       cpc σ3 = CRelease (chunk_spec cfg (fillsize (ringbuffer (g σ0))))) /\
  (0 < packlen cfg ->
   forall evs σ f,
     run cfg evs (main_sys cfg) = Some σ -> f ∈ all_files (g σ) ->
     Forall (fun w => (packlen cfg | w)) f /\
     forall o, o ∈ file_offsets f -> (packlen cfg | o)).
Proof.
  intros Hok. split.
  - intros evs σ0 mid1 mid2 σ3 Hreach Hm1 Hm2 Hrun.
    pose proof (reachable_sys_inv _ _ _ Hok Hreach) as (Hwf & Hinv & _ & _).
    apply run_cons in Hrun. destruct Hrun as (σ1 & Hs1 & Hrun).
    apply run_app in Hrun. destruct Hrun as (σ1' & Hr1 & Hrun).
    apply run_cons in Hrun. destruct Hrun as (σ2 & Hs2 & Hrun).
    apply run_app in Hrun. destruct Hrun as (σ2' & Hr2 & Hrun).
    apply run_cons in Hrun. destruct Hrun as (σ3' & Hs3 & [= <-]).
    assert (Hc1 : cpc σ1 = COpen (fillsize (ringbuffer (g σ0))))
      by (step_cases Hs1; reflexivity).
    apply run_keeps_consumer in Hr1; [|assumption]. rewrite Hc1 in Hr1.
    assert (Hc2 : cpc σ2 = CWrite (fillsize (ringbuffer (g σ0))))
      by (step_cases Hs2; congruence).
    apply run_keeps_consumer in Hr2; [|assumption]. rewrite Hc2 in Hr2.
    unfold step in Hs3. rewrite Hr2 in Hs3.
    destruct (consumer_write cfg _ (g σ2')) as [[s3 pc3]|] eqn:Hw; [|discriminate].
    unfold with_consumer in Hs3. injection Hs3 as <-. cbn [g cpc fst snd].
    destruct (consumer_write_inv _ _ _ _ _ Hw) as (f & _ & Hf' & -> & _).
    destruct Hwf as (Ht & H2 & _), Hinv as ((Hf0 & Hf1) & _).
    destruct (consumer_chunk_spec cfg (fillsize (ringbuffer (g σ0))) Hok ltac:(lia)) as (<- & _).
    exists f. split; [exact Hf' | reflexivity].
  - intros HL evs σ f Hreach Hin.
    pose proof (reachable_files_ok _ _ _ Hok HL Hreach) as Hfiles.
    unfold files_all in Hfiles. rewrite Forall_forall in Hfiles.
    apply list_elem_of_In in Hin.
    specialize (Hfiles f Hin). split; [exact Hfiles|].
    intros o Ho. eapply whole_packets_offsets; eauto.
Qed.

Lemma consumer_writes_whole_packets_witness :
  let h := sample_packet 1 15 in
  let evs := [EvRecv 0 8 h; EvReserve; EvStore; EvTally;
              EvCWake; EvCSnapStop; EvCFile; EvCClear] in
  let mid1 := [EvRecv 1 8 h; EvReserve; EvStore; EvTally] in
  let mid2 := [EvSignal SIGHUP] in
  match run cfg_udp evs (main_sys cfg_udp) with
  | Some σ0 =>
      match run cfg_udp (EvCSize :: mid1 ++ EvCOpen :: mid2 ++ [EvCWrite]) σ0 with
      | Some σ3 =>
          fillsize (ringbuffer (g σ0)) = 8 /\ fillsize (ringbuffer (g σ3)) = 16 /\
          exists f,
            outf (g σ3) = Some (f ++ [chunk_spec cfg_udp (fillsize (ringbuffer (g σ0)))]) /\
            cpc σ3 = CRelease (chunk_spec cfg_udp (fillsize (ringbuffer (g σ0))))
      | None => False
      end
  | None => False
  end.
Proof.
  cbv zeta.
  destruct (run cfg_udp _ (main_sys cfg_udp)) as [σ0|] eqn:H0;
    [|vm_compute in H0; discriminate H0].
  destruct (run cfg_udp _ σ0) as [σ3|] eqn:H3.
  - split; [vm_compute in H0; injection H0 as <-; reflexivity|].
    split; [vm_compute in H0; injection H0 as <-; vm_compute in H3;
            injection H3 as <-; reflexivity|].
    refine (proj1 (consumer_writes_whole_packets cfg_udp cfg_udp_ok) _ σ0 _ _ σ3 H0 _ _ H3).
    + repeat constructor.
    + repeat constructor.
  - vm_compute in H0. injection H0 as <-. vm_compute in H3. discriminate H3.
Defined.

(** ** A packet length above [maxwrite] *)

Lemma consumer_file_bwt cfg p o s :
  bytes_written_thisfile (fst (consumer_file cfg p o s)) = bytes_written_thisfile s \/
  bytes_written_thisfile (fst (consumer_file cfg p o s)) = 0.
Proof.
  unfold consumer_file, start_file. repeat case_match; cbn; auto.
Qed.

Lemma consumer_open_bwt cfg s :
  bytes_written_thisfile (consumer_open cfg s) = bytes_written_thisfile s \/
  bytes_written_thisfile (consumer_open cfg s) = 0.
Proof.
  unfold consumer_open, start_file. repeat case_match; cbn; auto.
Qed.

Lemma consumer_chunk_oversize cfg t :
  config_ok cfg -> maxwrite cfg < packlen cfg -> 0 <= t <= LONG_MAX ->
  consumer_chunk cfg t = 0.
Proof.
  intros Hok Hbig Ht. destruct (consumer_chunk_spec cfg t Hok Ht) as (-> & _).
  destruct Hok as (_ & (Hm & _) & _).
  unfold chunk_spec, round_down.
  replace (0 <? packlen cfg) with true by (symmetry; apply Z.ltb_lt; lia).
  rewrite Z.div_small by lia. lia.
Qed.

Lemma vrb_advance_old_zero v : vrb_wf v -> vrb_inv v -> vrb_advance_old v 0 = v.
Proof.
  intros Hwf Hinv. rewrite vrb_advance_old_eq by (auto; destruct Hinv; lia).
  destruct Hwf as (Ht & _ & Hfr). destruct v as [fi fr re to]; cbn in *.
  f_equal; [lia|]. rewrite Z.add_0_r. apply Z.mod_small. lia.
Qed.

Section Oversize.

Variable cfg : config.
Hypothesis Hok : config_ok cfg.
Hypothesis Hbig : maxwrite cfg < packlen cfg.

Lemma step_stalled_parts ev σ σ' :
  stalled σ -> step cfg ev σ = Some σ' ->
  (forall t, cpc σ' = CRelease t -> t = 0) /\
  bytes_written_thisfile (g σ') = 0 /\
  fillsize (ringbuffer (g σ)) <= fillsize (ringbuffer (g σ')) /\
  (consumer_event ev = true -> ringbuffer (g σ') = ringbuffer (g σ)).
Proof.
  intros ((Hwf & Hvi & Hp & Hc) & Hrel & Hbwt) Hstep.
  destruct ev; step_cases Hstep;
    rewrite ?signal_handler_rb, ?producer_recv_rb, ?consumer_file_rb,
            ?signal_handler_bwt, ?producer_recv_bwt;
    try (inv4; [lia | reflexivity || discriminate]; fail).
  - (* reserve *)
    inv4; [cbn; lia | discriminate].
  - (* store *)
    destruct (producer_store_frame i thissize newpoi (g σ)) as (_ & Hb & _ & Hrb).
    cbv zeta in Hb, Hrb. rewrite Hb, Hrb.
    inv4; [|discriminate].
    cbn [ppc_inv] in Hp.
    destruct Hp as (Hn & Hfit). destruct newpoi; cbn [is_open]; [|lia].
    rewrite vrb_advance_new_eq by (auto; lia). cbn. lia.
  - (* tally *)
    inv4; [cbn; lia | discriminate].
  - (* consumer wakes *)
    inv4; [|lia|reflexivity].
    intros t Ht. unfold consumer_wake in *. case_match; simplify_eq.
  - (* stop level read *)
    inv4; [discriminate|lia|reflexivity].
  - (* file *)
    inv4; [| |lia|reflexivity].
    + intros t Ht. destruct (consumer_file_pc cfg oldpoi old_stopped (g σ)) as [E|E];
        rewrite E in Ht; discriminate.
    + destruct (consumer_file_bwt cfg oldpoi old_stopped (g σ)) as [-> | ->]; auto.
  - (* stop level cleared *)
    destruct (consumer_clear_frame oldpoi old_stopped (g σ)) as (Hrb & _ & Hb & _).
    cbv zeta in Hrb, Hb. rewrite Hrb, Hb.
    inv4; [|lia|reflexivity].
    intros t. unfold consumer_clear; cbn [snd]. destruct (is_open oldpoi); discriminate.
  - (* fill level read *)
    inv4; [discriminate|lia|reflexivity].
  - (* file opened *)
    destruct (consumer_open_frame cfg (g σ)) as (-> & _).
    inv4; [discriminate| |lia|reflexivity].
    destruct (consumer_open_bwt cfg (g σ)) as [-> | ->]; auto.
  - (* write *)
    match goal with H : consumer_write _ _ _ = Some ?r |- _ =>
      destruct r as [s1 pc1];
      destruct (consumer_write_inv _ _ _ _ _ H) as (f & _ & _ & -> & Hrb & _ & Hb) end.
    cbn [fst snd]. rewrite Hrb, Hb.
    cbn [cpc_inv] in Hc.
    destruct Hwf as (Ht & H2 & _), Hvi as ((_ & Hf1) & _). rewrite long_max_val in H2.
    rewrite consumer_chunk_oversize by (auto; rewrite long_max_val; lia).
    inv4; [|rewrite Hbwt; reflexivity|lia|reflexivity].
    intros t [= <-]. reflexivity.
  - (* release *)
    unfold consumer_release; cbn [fst snd ringbuffer bytes_written_thisfile
      pthread_cond_signal_space set_space_available set_ringbuffer].
    rewrite (Hrel thissize eq_refl).
    rewrite vrb_advance_old_zero by assumption.
    inv4; [discriminate|lia|reflexivity].
Qed.

Lemma step_stalled ev σ σ' :
  stalled σ -> step cfg ev σ = Some σ' ->
  stalled σ' /\ fillsize (ringbuffer (g σ)) <= fillsize (ringbuffer (g σ')) /\
  (consumer_event ev = true -> ringbuffer (g σ') = ringbuffer (g σ)).
Proof.
  intros Hst Hstep.
  destruct (step_stalled_parts ev σ σ' Hst Hstep) as (H1 & H2 & H3 & H4).
  destruct Hst as (Hinv & _).
  pose proof (step_sys_inv cfg ev σ σ' Hok Hinv Hstep) as Hinv'.
  unfold stalled. auto.
Qed.

Lemma main_stalled : stalled (main_sys cfg).
Proof.
  split; [apply main_sys_inv, Hok|]. split; [discriminate|].
  apply (main_state_files cfg).
Qed.

Lemma reachable_stalled evs σ :
  run cfg evs (main_sys cfg) = Some σ -> stalled σ.
Proof.
  apply run_invariant; [|exact main_stalled].
  intros ev σ1 σ2 H1 Hs. apply (step_stalled ev σ1 σ2 H1 Hs).
Qed.

Lemma run_fill_grows evs : forall σ σ',
  stalled σ -> run cfg evs σ = Some σ' ->
  fillsize (ringbuffer (g σ)) <= fillsize (ringbuffer (g σ')).
Proof.
  induction evs as [|ev evs IH]; intros σ σ' Hst; cbn [run].
  - intros [= <-]. lia.
  - destruct (step cfg ev σ) as [σ1|] eqn:Hs; [|discriminate]. intros Hrun.
    destruct (step_stalled ev σ σ1 Hst Hs) as (Hst1 & Hle & _).
    specialize (IH _ _ Hst1 Hrun). lia.
Qed.

End Oversize.

(** C10. With a packet length above [maxwrite] every write of the consumer
    is a write of 0 bytes, the release that follows leaves the ring buffer as
    it is, and so does every other step of the consumer; from any state of
    a run on, the fill level never goes down. *)
Theorem oversize_packlen_never_drains cfg :
  config_ok cfg -> maxwrite cfg < packlen cfg ->
  (forall evs σ thissize σ',
     run cfg evs (main_sys cfg) = Some σ ->
     cpc σ = CWrite thissize -> step cfg EvCWrite σ = Some σ' ->
     consumer_chunk cfg thissize = 0 /\
     (exists f, outf (g σ) = Some f /\ outf (g σ') = Some (f ++ [0])) /\
     bytes_written_thisfile (g σ') = bytes_written_thisfile (g σ) /\
     cpc σ' = CRelease 0) /\
  (forall evs σ ev σ',
     run cfg evs (main_sys cfg) = Some σ ->
     consumer_event ev = true -> step cfg ev σ = Some σ' ->
     fillsize (ringbuffer (g σ')) = fillsize (ringbuffer (g σ))) /\
  (forall evs1 evs2 σ1 σ2,
     run cfg evs1 (main_sys cfg) = Some σ1 -> run cfg evs2 σ1 = Some σ2 ->
     fillsize (ringbuffer (g σ1)) <= fillsize (ringbuffer (g σ2))).
Proof.
  intros Hok Hbig. split; [|split].
  - intros evs σ t σ' Hreach Hpc Hstep.
    pose proof (reachable_stalled cfg Hok Hbig evs σ Hreach) as Hst.
    destruct (step_stalled cfg Hok Hbig _ _ _ Hst Hstep) as ((_ & _ & Hb') & _ & _).
    destruct Hst as ((Hwf & Hvi & _ & Hc) & _ & Hb).
    rewrite Hpc in Hc. cbn [cpc_inv] in Hc.
    assert (Hch : consumer_chunk cfg t = 0).
    { apply consumer_chunk_oversize; auto.
      destruct Hwf as (Ht & H2 & _), Hvi as ((_ & Hf1) & _).
      rewrite long_max_val in *. lia. }
    unfold step in Hstep. rewrite Hpc in Hstep.
    destruct (consumer_write cfg t (g σ)) as [[s1 pc1]|] eqn:Hw; [|discriminate].
    unfold with_consumer in Hstep. injection Hstep as <-. cbn [g cpc fst snd] in *.
    destruct (consumer_write_inv _ _ _ _ _ Hw) as (f & Hf & Hf' & -> & _).
    rewrite Hch in *. split; [reflexivity|]. split; [eauto|]. split; [congruence | reflexivity].
  - intros evs σ ev σ' Hreach Hev Hstep.
    pose proof (reachable_stalled cfg Hok Hbig evs σ Hreach) as Hst.
    destruct (step_stalled cfg Hok Hbig _ _ _ Hst Hstep) as (_ & _ & Hrb).
    rewrite (Hrb Hev). reflexivity.
  - intros evs1 evs2 σ1 σ2 Hreach Hrun.
    eapply run_fill_grows; eauto. eapply reachable_stalled; eauto.
Qed.

Lemma oversize_packlen_never_drains_witness :
  let h := sample_packet 1 15 in
  let evs := [EvRecv 0 7824 h; EvReserve; EvStore; EvTally;
              EvCWake; EvCSnapStop; EvCFile; EvCClear; EvCSize; EvCOpen] in
  match run cfg_oversize evs (main_sys cfg_oversize) with
  | Some σ =>
      match step cfg_oversize EvCWrite σ with
      | Some σ' =>
          fillsize (ringbuffer (g σ)) = 7824 /\
          consumer_chunk cfg_oversize 7824 = 0 /\
          (exists f, outf (g σ) = Some f /\ outf (g σ') = Some (f ++ [0])) /\
          bytes_written_thisfile (g σ') = bytes_written_thisfile (g σ) /\
          cpc σ' = CRelease 0
      | None => False
      end
  | None => False
  end.
Proof.
  cbv zeta.
  destruct (run cfg_oversize _ (main_sys cfg_oversize)) as [σ|] eqn:H0;
    [|vm_compute in H0; discriminate H0].
  assert (Hpc : cpc σ = CWrite 7824)
    by (vm_compute in H0; injection H0 as <-; reflexivity).
  destruct (step cfg_oversize EvCWrite σ) as [σ'|] eqn:H1.
  - split; [vm_compute in H0; injection H0 as <-; reflexivity|].
    refine (proj1 (oversize_packlen_never_drains cfg_oversize cfg_oversize_ok _)
              _ σ 7824 σ' H0 Hpc H1).
    cbn. lia.
  - vm_compute in H0. injection H0 as <-. vm_compute in H1. discriminate H1.
Defined.

(** ** Whole packets only *)

Lemma sum_writes_whole L f : Forall (fun w => (L | w)) f -> (L | sum_writes f).
Proof.
  induction 1 as [|w ws Hw Hws IH]; cbn [sum_writes foldr].
  - apply Z.divide_0_r.
  - apply Z.divide_add_r; assumption.
Qed.

Section WholePackets.

Variable cfg : config.
Hypothesis Hok : config_ok cfg.
Hypothesis HL : 0 < packlen cfg.
Hypothesis Hnb : do_blocklen cfg = false.

Lemma producer_recv_whole i n h s :
  ppc_whole (packlen cfg) (snd (producer_recv cfg i n h s)).
Proof.
  destruct (producer_recv_pc cfg i n h s) as [-> | (-> & _ & _ & [E|E])];
    cbn [ppc_whole]; [exact I | lia | rewrite Hnb; exact E].
Qed.

Lemma step_whole k ev σ σ' :
  Z.of_nat (S k) * maxwrite cfg <= LONG_MAX ->
  whole cfg k σ -> step cfg ev σ = Some σ' -> whole cfg (S k) σ'.
Proof.
  intros Hk (Hinv & Hfill & Hbd & Hbb & Hp & Hc) Hstep.
  pose proof (step_sys_inv cfg ev σ σ' Hok Hinv Hstep) as Hinv'.
  split; [exact Hinv'|]. clear Hinv'.
  destruct Hinv as (Hwf & Hvi & Hpi & Hci).
  pose proof Hok as (_ & (Hm0 & Hm1) & _).
  assert (Hbb' : 0 <= bytes_written_thisfile (g σ) <= Z.of_nat (S k) * maxwrite cfg) by lia.
  assert (Hz : 0 <= 0 <= Z.of_nat (S k) * maxwrite cfg) by lia.
  rewrite long_max_val in *.
  destruct ev; step_cases Hstep;
    rewrite ?signal_handler_rb, ?producer_recv_rb, ?consumer_file_rb,
            ?signal_handler_bwt, ?producer_recv_bwt;
    cbn [ppc_whole cpc_whole ppc_inv cpc_inv] in *;
    try (split; [|split; [|split; [|split]]]; try assumption; try exact I;
         try apply producer_recv_whole; fail).
  - (* store *)
    destruct (producer_store_frame i thissize newpoi (g σ)) as (_ & Hb & _ & Hrb).
    cbv zeta in Hb, Hrb. rewrite Hb, Hrb.
    split; [|split; [|split; [|split]]]; try assumption.
    + destruct Hpi as (Hn & Hfit). destruct newpoi; cbn [is_open]; [|assumption].
      rewrite vrb_advance_new_eq by (auto; lia). cbn [fillsize].
      apply Z.divide_add_r; [assumption|]. subst thissize. apply Z.divide_refl.
    + unfold producer_store. destruct newpoi; cbn [snd ppc_whole]; auto.
  - (* consumer wakes *)
    split; [|split; [|split; [|split]]]; try assumption.
    unfold consumer_wake in *. case_match; simplify_eq. exact I.
  - (* file *)
    split; [|split; [|split; [|split]]]; try assumption.
    + destruct (consumer_file_bwt cfg oldpoi old_stopped (g σ)) as [-> | ->];
        [assumption | apply Z.divide_0_r].
    + destruct (consumer_file_bwt cfg oldpoi old_stopped (g σ)) as [-> | ->]; assumption.
    + destruct (consumer_file_pc cfg oldpoi old_stopped (g σ)) as [-> | ->]; exact I.
  - (* stop level cleared *)
    destruct (consumer_clear_frame oldpoi old_stopped (g σ)) as (Hrb & _ & Hb & _).
    cbv zeta in Hrb, Hb. rewrite Hrb, Hb.
    split; [|split; [|split; [|split]]]; try assumption.
    unfold consumer_clear; cbn [snd]. destruct (is_open oldpoi); exact I.
  - (* file opened *)
    destruct (consumer_open_frame cfg (g σ)) as (-> & _).
    split; [|split; [|split; [|split]]]; try assumption.
    + destruct (consumer_open_bwt cfg (g σ)) as [-> | ->];
        [assumption | apply Z.divide_0_r].
    + destruct (consumer_open_bwt cfg (g σ)) as [-> | ->]; assumption.
  - (* write *)
    match goal with H : consumer_write _ _ _ = Some ?r |- _ =>
      destruct r as [s1 pc1];
      destruct (consumer_write_inv _ _ _ _ _ H) as (f & _ & _ & -> & Hrb & _ & Hb) end.
    cbn [fst snd cpc_whole]. rewrite Hrb, Hb.
    destruct Hwf as (Ht & H2 & _), Hvi as ((_ & Hf1) & _). rewrite long_max_val in H2.
    assert (Hts : 0 <= thissize <= LONG_MAX) by (rewrite long_max_val; lia).
    destruct (consumer_chunk_spec cfg thissize Hok Hts) as (_ & Hch).
    pose proof (consumer_chunk_whole cfg thissize Hok HL Hts) as Hdiv.
    rewrite long_add_id by (apply in_long_bounds; lia).
    split; [|split; [|split; [|split]]]; try assumption.
    + apply Z.divide_add_r; assumption.
    + lia.
  - (* release *)
    unfold consumer_release; cbn [fst snd ringbuffer bytes_written_thisfile
      pthread_cond_signal_space set_space_available set_ringbuffer].
    rewrite vrb_advance_old_eq by assumption. cbn [fillsize].
    split; [|split; [|split; [|split]]]; try assumption; try exact I.
    apply Z.divide_sub_r; assumption.
Qed.

Lemma main_whole : whole cfg 0 (main_sys cfg).
Proof.
  split; [apply main_sys_inv, Hok|].
  unfold main_sys; cbn [g ppc cpc]. rewrite main_state_rb.
  destruct (main_state_files cfg) as (_ & _ & ->).
  change (fillsize (init_vrb (bufsize cfg) (pagesize cfg))) with 0.
  repeat split; try apply Z.divide_0_r; lia.
Qed.

Lemma run_whole evs : forall k σ σ',
  Z.of_nat (k + length evs) * maxwrite cfg <= LONG_MAX ->
  whole cfg k σ -> run cfg evs σ = Some σ' -> whole cfg (k + length evs) σ'.
Proof.
  pose proof Hok as (_ & (Hm0 & _) & _).
  induction evs as [|ev evs IH]; intros k σ σ' Hk Hw; cbn [run length].
  - intros [= <-]. rewrite Nat.add_0_r. exact Hw.
  - destruct (step cfg ev σ) as [σ1|] eqn:Hs; [|discriminate]. intros Hrun.
    cbn [length] in Hk.
    replace (k + S (length evs))%nat with (S k + length evs)%nat in * by lia.
    apply (IH (S k) σ1 σ' Hk); [|exact Hrun].
    apply (step_whole k ev σ σ1); [nia | exact Hw | exact Hs].
Qed.

End WholePackets.

(** C9. With a fixed packet length L > 0 and [--sizehead] off, as long as
    the byte count of a file cannot have overflowed: the size the producer
    reserves and commits is exactly L, every release is a multiple of L, and
    so are the fill level, [bytes_written_thisfile] and the size of every
    file, closed or open. *)
Theorem whole_packets_only cfg evs σ :
  config_ok cfg -> 0 < packlen cfg -> do_blocklen cfg = false ->
  Z.of_nat (length evs) * maxwrite cfg <= LONG_MAX ->
  run cfg evs (main_sys cfg) = Some σ ->
  (forall i n newpoi, ppc σ = PReserved i n newpoi -> n = packlen cfg) /\
  (forall t, cpc σ = CRelease t -> (packlen cfg | t)) /\
  (packlen cfg | fillsize (ringbuffer (g σ))) /\
  (packlen cfg | bytes_written_thisfile (g σ)) /\
  (forall f, f ∈ all_files (g σ) -> (packlen cfg | sum_writes f)).
Proof.
  intros Hok HL Hnb Hk Hrun.
  pose proof (run_whole cfg Hok HL Hnb evs 0 _ _ Hk (main_whole cfg Hok) Hrun)
    as (_ & Hfill & Hbd & _ & Hp & Hc).
  split; [intros i n p E; rewrite E in Hp; exact Hp|].
  split; [intros t E; rewrite E in Hc; exact Hc|].
  split; [exact Hfill|]. split; [exact Hbd|].
  intros f Hin. apply sum_writes_whole.
  pose proof (reachable_files_ok cfg evs σ Hok HL Hrun) as Hfiles.
  unfold files_all in Hfiles. rewrite Forall_forall in Hfiles.
  apply Hfiles, list_elem_of_In, Hin.
Qed.

(** ** The per-port counters *)

Lemma for_ports_ind (Q : stats -> Prop) n body t :
  (forall j t, Q t -> Q (body j t)) -> Q t -> Q (for_ports n body t).
Proof.
  intros Hbody. unfold for_ports. generalize (seq 0 (Z.to_nat n)).
  intros l. revert t. induction l as [|j l IH]; intros t Ht; cbn [foldl]; auto.
Qed.

Lemma for_ports_S (m : nat) body t :
  for_ports (Z.of_nat (S m)) body t = body m (for_ports (Z.of_nat m) body t).
Proof.
  unfold for_ports. rewrite !Nat2Z.id, seq_S, foldl_app. reflexivity.
Qed.

Lemma signal_report_counters cfg j t :
  packs_seen (signal_report cfg j t) = packs_seen t /\
  beamformed_good_packs (signal_report cfg j t) = beamformed_good_packs t /\
  beamformed_first_packno (signal_report cfg j t) = beamformed_first_packno t /\
  beamformed_last_packno (signal_report cfg j t) = beamformed_last_packno t /\
  packs_dropped (signal_report cfg j t) = packs_dropped t.
Proof. unfold signal_report. case_match; repeat split; reflexivity. Qed.

Lemma signal_handler_counters cfg n s :
  let t := stat s in
  let t' := stat (signal_handler cfg n s) in
  packs_seen t' = packs_seen t /\
  beamformed_good_packs t' = beamformed_good_packs t /\
  beamformed_first_packno t' = beamformed_first_packno t /\
  beamformed_last_packno t' = beamformed_last_packno t /\
  packs_dropped t' = packs_dropped t.
Proof.
  cbv zeta.
  assert (Hloop :
    let t1 := for_ports (nsock cfg) (signal_report cfg)
                (set_lasttotlen (totlen (stat s)) (stat s)) in
    packs_seen t1 = packs_seen (stat s) /\
    beamformed_good_packs t1 = beamformed_good_packs (stat s) /\
    beamformed_first_packno t1 = beamformed_first_packno (stat s) /\
    beamformed_last_packno t1 = beamformed_last_packno (stat s) /\
    packs_dropped t1 = packs_dropped (stat s)).
  { cbv zeta. apply for_ports_ind; [|repeat split; reflexivity].
    intros j t (H1 & H2 & H3 & H4 & H5).
    destruct (signal_report_counters cfg j t) as (-> & -> & -> & -> & ->). auto. }
  cbv zeta in Hloop. unfold signal_handler.
  repeat case_match; cbn [stat upd_stat set_stat set_stopped pthread_cond_signal_data
    set_data_available]; auto; repeat split; reflexivity.
Qed.

Lemma init_port_counters j t i :
  counters_len t i ->
  counters_len (init_port j t) i /\
  beamformed_last_packno (init_port j t) = beamformed_last_packno t /\
  (j = i -> seen_of (init_port j t) i = 0 /\ good_of (init_port j t) i = 0 /\
            first_of (init_port j t) i = -1) /\
  (j <> i -> seen_of (init_port j t) i = seen_of t i /\
             good_of (init_port j t) i = good_of t i /\
             first_of (init_port j t) i = first_of t i).
Proof.
  intros (L1 & L2 & L3 & L4).
  unfold counters_len, seen_of, good_of, first_of, init_port; cbn.
  rewrite !length_insert.
  split; [auto|]. split; [reflexivity|]. split.
  - intros ->. rewrite !list_lookup_total_insert_eq by assumption. auto.
  - intros Hne. rewrite !list_lookup_total_insert_ne by assumption. auto.
Qed.

Lemma init_ports_counters (m : nat) t i :
  counters_len t i ->
  let t' := for_ports (Z.of_nat m) init_port t in
  counters_len t' i /\ last_of t' i = last_of t i /\
  ((i < m)%nat -> seen_of t' i = 0 /\ good_of t' i = 0 /\ first_of t' i = -1) /\
  ((m <= i)%nat -> seen_of t' i = seen_of t i /\ good_of t' i = good_of t i /\
                   first_of t' i = first_of t i).
Proof.
  intros Hlen. cbv zeta. induction m as [|m IH].
  - unfold for_ports. change (seq 0 (Z.to_nat (Z.of_nat 0))) with (@nil nat).
    cbn [foldl]. split; [exact Hlen|]. split; [reflexivity|]. split; [lia | auto].
  - rewrite for_ports_S. destruct IH as (Hl & Hlast & Hlo & Hhi).
    destruct (init_port_counters m _ i Hl) as (Hl' & Hlast' & Heq & Hne).
    split; [exact Hl'|]. split; [unfold last_of in *; rewrite Hlast'; exact Hlast|].
    split.
    + intros Hi. destruct (Nat.eq_dec m i) as [E|E]; [apply Heq, E|].
      destruct (Hne E) as (-> & -> & ->). apply Hlo. lia.
    + intros Hi. destruct (Hne ltac:(lia)) as (-> & -> & ->). apply Hhi. lia.
Qed.

Lemma init_thisfilestat_port cfg t i :
  (Z.of_nat i < nsock cfg) -> counters_len t i ->
  counters_len (init_thisfilestat cfg t) i /\
  port_reset t (init_thisfilestat cfg t) i.
Proof.
  intros Hi Hlen.
  assert (Hn : nsock cfg = Z.of_nat (Z.to_nat (nsock cfg))) by lia.
  unfold init_thisfilestat. rewrite Hn.
  destruct (init_ports_counters (Z.to_nat (nsock cfg)) t i Hlen) as (Hl & Hlast & Hlo & _).
  destruct (Hlo ltac:(lia)) as (Hs & Hg & Hf).
  split; [exact Hl|]. unfold port_reset. auto.
Qed.

Lemma producer_recv_cases cfg j n h s :
  producer_recv cfg j n h s = (s, PIdle) \/
  producer_recv cfg j n h s
  = (upd_stat (producer_account cfg j (header_of_bytes h)) s,
     PAccounted j (if do_blocklen cfg then int_add n 2 else n)).
Proof. unfold producer_recv. repeat case_match; auto. Qed.

Lemma consumer_file_stat cfg p o s :
  stat (fst (consumer_file cfg p o s)) = stat s \/
  stat (fst (consumer_file cfg p o s)) = init_thisfilestat cfg (stat s).
Proof. unfold consumer_file, start_file. repeat case_match; cbn; auto. Qed.

Lemma consumer_open_stat cfg s : stat (consumer_open cfg s) = stat s.
Proof. unfold consumer_open, start_file. repeat case_match; reflexivity. Qed.

Lemma main_state_stat cfg :
  stat (main_state cfg) = set_totlen 0 (init_thisfilestat cfg zero_stats).
Proof. unfold main_state, start_file. repeat case_match; reflexivity. Qed.

Lemma main_port cfg i :
  config_ok cfg -> Z.of_nat i < nsock cfg ->
  counters_len (stat (main_state cfg)) i /\
  seen_of (stat (main_state cfg)) i = 0 /\ good_of (stat (main_state cfg)) i = 0 /\
  first_of (stat (main_state cfg)) i = -1.
Proof.
  intros (_ & _ & (_ & Hn) & _) Hi. unfold MAXNSOCK in Hn.
  assert (Hz : counters_len zero_stats i).
  { unfold counters_len, zero_stats;
      cbn [packs_seen beamformed_good_packs beamformed_first_packno beamformed_last_packno].
    rewrite length_replicate. change (Z.to_nat MAXNSOCK) with 12%nat. lia. }
  destruct (init_thisfilestat_port cfg zero_stats i Hi Hz) as (Hl & Hs & Hg & Hf & _).
  rewrite main_state_stat. auto.
Qed.

(** ** The statistics, access by access

    Without the other thread in between, the accesses of a stretch add up to
    the function that [step] takes for it. *)
Lemma account_accesses_account cfg i header t :
  account_accesses 7 (account_begin cfg i header) t
  = (producer_account cfg i header t, AIdle).
Proof.
  unfold account_begin, producer_account, incr.
  destruct (beamformed_check cfg); cbn [account_accesses account_access]; [|reflexivity].
  stat_simpl.
  destruct (beamformed_first_packno t !!! i =? -1);
    cbn [account_accesses account_access];
    destruct (beamformed_checkpack header); reflexivity.
Qed.

Lemma account_accesses_tally i thissize s :
  account_accesses 4 (ATotlen i thissize) (stat s)
  = (stat (fst (producer_tally i thissize s)), AIdle).
Proof. reflexivity. Qed.

Lemma reset_accesses_ports cfg (m : nat) : forall (j : nat) t,
  Z.of_nat (j + m) = nsock cfg ->
  reset_accesses cfg (6 * m + 1) (reset_loop cfg j) t
  = (set_n_filllevel 0 (set_maxsize 0 (set_totlen 0 (set_lasttotlen 0
       (foldl (fun t i => init_port i t) t (seq j m))))), RIdle).
Proof.
  induction m as [|m IH]; intros j t Hn.
  - unfold reset_loop.
    replace (Z.of_nat j <? nsock cfg) with false by (symmetry; apply Z.ltb_ge; lia).
    reflexivity.
  - unfold reset_loop at 1.
    replace (Z.of_nat j <? nsock cfg) with true by (symmetry; apply Z.ltb_lt; lia).
    replace (6 * S m + 1)%nat with (S (S (S (S (S (S (6 * m + 1)))))))%nat by lia.
    cbn [reset_accesses reset_access seq foldl]. rewrite IH by lia. reflexivity.
Qed.

Lemma reset_accesses_init cfg t :
  0 <= nsock cfg ->
  reset_accesses cfg (6 * Z.to_nat (nsock cfg) + 1) (reset_loop cfg 0) t
  = (init_thisfilestat cfg t, RIdle).
Proof.
  intros Hn. rewrite (reset_accesses_ports cfg (Z.to_nat (nsock cfg)) 0 t) by lia.
  reflexivity.
Qed.

(** What one access does to the four counters of port [p]. *)
Lemma account_access_port p pc t t' pc' :
  counters_len t p -> account_access pc t = Some (t', pc') ->
  counters_len t' p /\
  seen_of t' p
  = match pc with
    | ASeenStore j v => if (j =? p)%nat then long_add v 1 else seen_of t p
    | _ => seen_of t p
    end /\
  good_of t' p
  = match pc with
    | AGoodStore j v => if (j =? p)%nat then long_add v 1 else good_of t p
    | _ => good_of t p
    end /\
  first_of t' p
  = match pc with
    | AFirstStore j _ => if (j =? p)%nat then last_of t p else first_of t p
    | _ => first_of t p
    end /\
  last_of t' p
  = match pc with
    | ALast j header => if (j =? p)%nat then beamformed_packno header else last_of t p
    | _ => last_of t p
    end.
Proof.
  intros (L1 & L2 & L3 & L4) H.
  unfold counters_len, seen_of, good_of, first_of, last_of.
  destruct pc; cbn [account_access] in H; try discriminate H;
    injection H as <- <-; stat_simpl; rewrite ?length_insert;
    (split; [auto|]);
    try (destruct (Nat.eqb_spec i p) as [->|Hne];
         rewrite ?list_lookup_total_insert_eq, ?list_lookup_total_insert_ne by assumption);
    auto.
Qed.

Lemma reset_access_port cfg p pc t t' pc' :
  counters_len t p -> reset_access cfg pc t = Some (t', pc') ->
  counters_len t' p /\
  seen_of t' p
  = match pc with
    | RSeen j => if (j =? p)%nat then 0 else seen_of t p
    | _ => seen_of t p
    end /\
  good_of t' p
  = match pc with
    | RGood j => if (j =? p)%nat then 0 else good_of t p
    | _ => good_of t p
    end /\
  first_of t' p
  = match pc with
    | RFirst j => if (j =? p)%nat then -1 else first_of t p
    | _ => first_of t p
    end /\
  last_of t' p = last_of t p.
Proof.
  intros (L1 & L2 & L3 & L4) H.
  unfold counters_len, seen_of, good_of, first_of, last_of.
  destruct pc; cbn [reset_access] in H; try discriminate H;
    injection H as <- <-; stat_simpl; rewrite ?length_insert;
    (split; [auto|]);
    try (destruct (Nat.eqb_spec j p) as [->|Hne];
         rewrite ?list_lookup_total_insert_eq, ?list_lookup_total_insert_ne by assumption);
    auto.
Qed.

(** The loop of [signal_handler] over the sockets leaves the counters and
    the byte totals as they are. *)
Lemma signal_reports_stat cfg t :
  let t' := for_ports (nsock cfg) (signal_report cfg) (set_lasttotlen (totlen t) t) in
  packs_seen t' = packs_seen t /\
  beamformed_good_packs t' = beamformed_good_packs t /\
  beamformed_first_packno t' = beamformed_first_packno t /\
  beamformed_last_packno t' = beamformed_last_packno t /\
  bytes_written t' = bytes_written t /\ totlen t' = totlen t.
Proof.
  cbv zeta. apply for_ports_ind; [|repeat split; reflexivity].
  intros j t1 (H1 & H2 & H3 & H4 & H5 & H6).
  destruct (signal_report_counters cfg j t1) as (-> & -> & -> & -> & _).
  assert (Hb : bytes_written (signal_report cfg j t1) = bytes_written t1 /\
               totlen (signal_report cfg j t1) = totlen t1)
    by (unfold signal_report; case_match; split; reflexivity).
  destruct Hb as (-> & ->). auto 10.
Qed.

Lemma access_step_port cfg p a σ σ' :
  counters_len (cnt σ) p -> access_step cfg a σ = Some σ' ->
  counters_len (cnt σ') p /\
  match a with
  | AcProducer | AcConsumer => True
  | _ =>
      seen_of (cnt σ') p = seen_of (cnt σ) p /\ good_of (cnt σ') p = good_of (cnt σ) p /\
      first_of (cnt σ') p = first_of (cnt σ) p /\ last_of (cnt σ') p = last_of (cnt σ) p
  end.
Proof.
  intros Hlen Hstep. destruct σ as [t pc rp].
  destruct a; cbn [access_step cnt apc rpc] in *.
  - destruct pc; try discriminate Hstep. destruct (_ <? _); [|discriminate Hstep].
    injection Hstep as <-. auto.
  - destruct pc; try discriminate Hstep. destruct (_ && _); [|discriminate Hstep].
    injection Hstep as <-. auto.
  - destruct (account_access pc t) as [[t1 pc1]|] eqn:E; [|discriminate Hstep].
    injection Hstep as <-. split; [|exact I].
    apply (account_access_port p pc t t1 pc1 Hlen E).
  - destruct rp; try discriminate Hstep. injection Hstep as <-. auto.
  - destruct (reset_access cfg rp t) as [[t1 pc1]|] eqn:E; [|discriminate Hstep].
    injection Hstep as <-. split; [|exact I].
    apply (reset_access_port cfg p rp t t1 pc1 Hlen E).
  - injection Hstep as <-. cbn [cnt].
    destruct (signal_reports_stat cfg t) as (H1 & H2 & H3 & H4 & _).
    unfold counters_len, seen_of, good_of, first_of, last_of in *.
    rewrite H1, H2, H3, H4. auto.
Qed.

Section PortAccesses.

Variable cfg : config.
Variable p : nat.

Lemma step_counts_at k a σ σ' :
  Z.of_nat (S k) <= LONG_MAX -> counters_len (cnt σ) p ->
  apart accounting σ = true -> apart accounting σ' = true ->
  counts_at σ p k -> access_step cfg a σ = Some σ' -> counts_at σ' p (S k).
Proof.
  intros Hk Hlen Hex Hex' Hc Hstep. rewrite long_max_val in Hk.
  destruct (access_step_port cfg p a σ σ' Hlen Hstep) as (_ & Hsame).
  destruct σ as [t pc rp]. unfold apart, counts_at in *. cbn [cnt apc rpc] in *.
  destruct Hc as (Hg0 & Hs & Hgs & Hpc & Hrp).
  destruct a; cbn [access_step cnt apc rpc] in Hstep.
  - (* a packet enters the accounting *)
    destruct pc; try discriminate Hstep. destruct (_ <? _); [|discriminate Hstep].
    injection Hstep as <-. cbn [cnt apc rpc] in *.
    split; [exact Hg0|]. split; [lia|]. split; [exact Hgs|]. split; [|exact Hrp].
    unfold account_begin. destruct (beamformed_check cfg); auto.
  - (* a packet enters the tally *)
    destruct pc; try discriminate Hstep.
    match type of Hstep with (if ?b then _ else _) = _ => destruct b end;
      [|discriminate Hstep].
    injection Hstep as <-. cbn [cnt apc rpc] in *.
    split; [exact Hg0|]. split; [lia|]. split; [exact Hgs|]. split; [exact Hpc | exact Hrp].
  - (* the producer's next access *)
    destruct (account_access pc t) as [[t1 pc1]|] eqn:E; [|discriminate Hstep].
    injection Hstep as <-. cbn [cnt apc rpc] in *.
    destruct (account_access_port p pc t t1 pc1 Hlen E) as (_ & HS & HG & _ & _).
    destruct pc; cbn [account_access] in E; try discriminate E; injection E as <- <-;
      (destruct rp; cbn in Hex; try discriminate Hex); try rewrite HS; try rewrite HG; clear HS HG;
      try (repeat split; auto; lia).
    all: try match goal with
             | |- context [if beamformed_checkpack ?h then _ else _] =>
                 destruct (beamformed_checkpack h)
             | |- context [if ?x =? -1 then _ else _] => destruct (x =? -1)
             end.
    all: port_cases i p.
    all: try (destruct Hpc as (Hpc & Hv)).
    all: subst; rewrite ?long_add_id by (apply in_long_bounds; lia).
    all: repeat split; intros; auto; try lia; try contradiction; reflexivity.
  - (* the consumer enters the reset *)
    destruct rp; try discriminate Hstep. injection Hstep as <-. cbn [cnt apc rpc] in *.
    split; [exact Hg0|]. split; [lia|]. split; [exact Hgs|]. split; [exact Hpc|].
    unfold reset_loop. destruct (_ <? _); exact I.
  - (* the consumer's next store *)
    destruct (reset_access cfg rp t) as [[t1 pc1]|] eqn:E; [|discriminate Hstep].
    injection Hstep as <-. cbn [cnt apc rpc] in *.
    destruct (reset_access_port cfg p rp t t1 pc1 Hlen E) as (_ & HS & HG & _ & _).
    destruct rp; cbn [reset_access] in E; try discriminate E; injection E as <- <-;
      (destruct pc; cbn in Hex; try discriminate Hex); try rewrite HS; try rewrite HG; clear HS HG;
      try (unfold reset_loop; destruct (_ <? _));
      try (repeat split; auto; lia).
    all: port_cases j p; subst.
    all: repeat split; intros; auto; try lia; try contradiction; reflexivity.
  - (* the regular printout *)
    injection Hstep as <-. cbn [cnt apc rpc] in *.
    destruct Hsame as (-> & -> & _). repeat split; auto; try lia.
    all: destruct pc; auto; destruct rp; auto.
Qed.

Lemma step_span_at k a σ σ' rest :
  beamformed_check cfg = true ->
  Z.of_nat (S k) <= LONG_MAX -> counters_len (cnt σ) p ->
  apart accounting σ = true -> apart accounting σ' = true ->
  counts_at σ p k ->
  access_step cfg a σ = Some σ' ->
  StronglySorted Z.lt (accounted_packno p a ++ rest) ->
  Forall (fun q => q <> -1) (accounted_packno p a ++ rest) ->
  span_at σ p (accounted_packno p a ++ rest) ->
  span_at σ' p rest.
Proof.
  intros Hchk Hk Hlen Hex Hex' Hc Hstep Hsort Hne Hsp. rewrite long_max_val in Hk.
  destruct (access_step_port cfg p a σ σ' Hlen Hstep) as (_ & Hsame).
  destruct σ as [t pc rp]. unfold apart, counts_at in *. cbn [cnt apc rpc] in *.
  destruct Hc as (Hg0 & Hs & Hgs & Hpc & Hrp).
  destruct a; cbn [access_step cnt apc rpc] in Hstep.
  - (* a packet enters the accounting *)
    destruct pc; try discriminate Hstep. destruct (_ <? _); [|discriminate Hstep].
    injection Hstep as <-. unfold account_begin in *. rewrite Hchk in *.
    cbn [cnt apc rpc] in *. destruct rp; cbn in Hex'; try discriminate Hex'.
    unfold span_at in *; cbn [cnt apc rpc accounted_packno] in *.
    unfold span_quiet, span_entered in *.
    destruct (Nat.eqb_spec i p) as [->|Hip]; cbn [app] in *.
    + apply StronglySorted_inv in Hsort. destruct Hsort as (_ & Hlt).
      pose proof (Forall_inv Hne) as Hn1.
      destruct Hsp as (H0 & H1).
      split; [split; [exact H0|]|].
      * intros H. destruct (H1 H) as (Hf & Hsp & Hall).
        split; [exact Hf|]. split; [exact Hsp|]. exact (Forall_inv_tail Hall).
      * intros _. split; [split; [exact Hn1|]; split; [exact Hlt|]; split; [exact H0|]|].
        -- intros H. apply (H1 H).
        -- intros H. destruct (H1 H) as (_ & _ & Hall). exact (Forall_inv Hall).
    + split; [exact Hsp | intros E; contradiction].
  - (* a packet enters the tally *)
    destruct pc; try discriminate Hstep.
    match type of Hstep with (if ?b then _ else _) = _ => destruct b end;
      [|discriminate Hstep].
    injection Hstep as <-. cbn [cnt apc rpc] in *. destruct rp; exact Hsp.
  - (* the producer's next access *)
    destruct (account_access pc t) as [[t1 pc1]|] eqn:E; [|discriminate Hstep].
    injection Hstep as <-. cbn [cnt apc rpc] in *.
    destruct (account_access_port p pc t t1 pc1 Hlen E) as (_ & HS & HG & HF & HL).
    destruct pc; cbn [account_access] in E; try discriminate E; injection E as <- <-;
      (destruct rp; cbn in Hex; try discriminate Hex); cbn [accounted_packno app] in *;
      unfold span_at in *; cbn [cnt apc rpc] in *;
      unfold span_quiet, span_entered, span_counted in *;
      try rewrite HS; try rewrite HF; try rewrite HL; clear HS HG HF HL.
    all: try match goal with
             | |- context [if beamformed_checkpack ?h then _ else _] =>
                 destruct (beamformed_checkpack h)
             | |- context [if beamformed_first_packno ?t0 !!! ?j =? -1 then _ else _] =>
                 destruct (Z.eqb_spec (beamformed_first_packno t0 !!! j) (-1)) as [Ef|Ef];
                 change (beamformed_first_packno t0 !!! j) with (first_of t0 j) in Ef
             end.
    all: repeat match goal with H : _ /\ _ |- _ => destruct H end.
    all: port_cases i p; subst.
    all: repeat match goal with H : _ /\ _ |- _ => destruct H end.
    all: repeat match goal with
                | H : last_of _ _ = beamformed_packno _ |- _ => rewrite H in *
                end.
    all: rewrite ?long_add_id by (apply in_long_bounds; lia).
    all: intuition (try lia; try congruence; auto).
  - (* the consumer enters the reset *)
    destruct rp; try discriminate Hstep. injection Hstep as <-. cbn [cnt apc rpc] in *.
    unfold reset_loop in *.
    destruct (_ <? _); destruct pc; cbn in Hex'; try discriminate Hex'; exact Hsp.
  - (* the consumer's next store *)
    destruct (reset_access cfg rp t) as [[t1 pc1]|] eqn:E; [|discriminate Hstep].
    injection Hstep as <-. cbn [cnt apc rpc] in *.
    destruct (reset_access_port cfg p rp t t1 pc1 Hlen E) as (_ & HS & HG & HF & HL).
    destruct rp; cbn [reset_access] in E; try discriminate E; injection E as <- <-;
      (destruct pc; cbn in Hex; try discriminate Hex); cbn [accounted_packno app] in *;
      unfold span_at in *; cbn [cnt apc rpc] in *;
      try (unfold reset_loop; destruct (_ <? _));
      unfold span_quiet, span_entered, span_counted in *;
      try rewrite HS; try rewrite HF; try rewrite HL; clear HS HG HF HL.
    all: try exact Hsp.
    all: repeat match goal with H : _ /\ _ |- _ => destruct H end.
    all: port_cases j p; subst.
    all: repeat match goal with H : _ /\ _ |- _ => destruct H end.
    all: intuition (try lia; try congruence; auto).
  - (* the regular printout *)
    injection Hstep as <-. cbn [accounted_packno app] in *.
    unfold span_at in *; cbn [cnt apc rpc] in *.
    unfold span_quiet, span_entered, span_counted in *.
    destruct Hsame as (-> & _ & -> & ->). exact Hsp.
Qed.

End PortAccesses.

Lemma apart_run_head busy cfg acs σ :
  apart_run busy cfg acs σ = true -> apart busy σ = true.
Proof. destruct acs; cbn [apart_run]; intros H; apply andb_prop in H; apply H. Qed.

Lemma apart_run_cons busy cfg a acs σ σ' :
  access_step cfg a σ = Some σ' -> apart_run busy cfg (a :: acs) σ = true ->
  apart busy σ = true /\ apart busy σ' = true /\ apart_run busy cfg acs σ' = true.
Proof.
  intros Hs H. cbn [apart_run] in H. rewrite Hs in H. apply andb_prop in H.
  destruct H as (H1 & H2). eauto using apart_run_head.
Qed.

Lemma run_counters cfg p acs : forall k σ σ',
  beamformed_check cfg = true ->
  Z.of_nat (k + length acs) <= LONG_MAX ->
  counters_len (cnt σ) p -> counts_at σ p k ->
  access_run cfg acs σ = Some σ' -> apart_run accounting cfg acs σ = true ->
  counts_at σ' p (k + length acs) /\
  (StronglySorted Z.lt (accounted_packnos p acs) ->
   Forall (fun q => q <> -1) (accounted_packnos p acs) ->
   span_at σ p (accounted_packnos p acs) -> span_at σ' p []).
Proof.
  induction acs as [|a acs IH]; intros k σ σ' Hchk Hk Hlen Hc;
    cbn [access_run length accounted_packnos flat_map].
  - intros [= <-] _. rewrite Nat.add_0_r. auto.
  - destruct (access_step cfg a σ) as [σ1|] eqn:Hs; [|discriminate].
    intros Hrun Hex. cbn [length] in Hk.
    destruct (apart_run_cons _ cfg a acs σ σ1 Hs Hex) as (Hx & Hx1 & Hexr).
    replace (k + S (length acs))%nat with (S k + length acs)%nat in * by lia.
    assert (Hk1 : Z.of_nat (S k) <= LONG_MAX) by lia.
    pose proof (step_counts_at cfg p k a σ σ1 Hk1 Hlen Hx Hx1 Hc Hs) as Hc1.
    destruct (access_step_port cfg p a σ σ1 Hlen Hs) as (Hlen1 & _).
    destruct (IH (S k) σ1 σ' Hchk Hk Hlen1 Hc1 Hrun Hexr) as (Hc' & Hsp').
    split; [exact Hc'|]. intros Hsort Hne Hsp. apply Hsp'.
    + clear -Hsort. induction (accounted_packno p a) as [|q l IHl]; [exact Hsort|].
      apply IHl. cbn [app] in Hsort. apply StronglySorted_inv in Hsort. apply Hsort.
    + apply Forall_app in Hne. apply Hne.
    + apply (step_span_at cfg p k a σ σ1); auto.
Qed.




(** Why the theorem asks for a run in which the reset does not overlap the
    accounting.  When the consumer closes a file while the producer is
    between the test of [beamformed_first_packno] and the increment of
    [packs_seen], the reset takes away the first packet number and the
    count, but not the packet: three packets with increasing numbers leave
    [seen] at 2 with [first_packno = last_packno]. *)
Example reset_inside_accounting_breaks_span :
  let h1 := header_of_bytes (sample_packet 1 15) in
  let h2 := header_of_bytes (sample_packet 1 47) in
  let h3 := header_of_bytes (sample_packet 2 47) in
  let acs := [AcPacket 0 h1; AcProducer; AcProducer; AcProducer; AcProducer;
              AcProducer; AcProducer; AcProducer;
              AcPacket 0 h2; AcProducer; AcProducer;
              AcReset; AcConsumer; AcConsumer; AcConsumer; AcConsumer;
              AcConsumer; AcConsumer; AcConsumer;
              AcProducer; AcProducer; AcProducer; AcProducer;
              AcPacket 0 h3; AcProducer; AcProducer; AcProducer; AcProducer;
              AcProducer; AcProducer; AcProducer] in
  accounted_packnos 0 acs = [12208; 12210; 24417] /\
  apart_run accounting cfg_check acs (main_stat_sys cfg_check) = false /\
  match access_run cfg_check acs (main_stat_sys cfg_check) with
  | Some σ =>
      apc σ = AIdle /\ rpc σ = RIdle /\
      seen_of (cnt σ) 0 = 2 /\
      first_of (cnt σ) 0 = 24417 /\ last_of (cnt σ) 0 = 24417
  | None => False
  end.
Proof. vm_compute. repeat split. Qed.

(** And when the reset clears [beamformed_good_packs] before, and
    [packs_seen] after, the two increments of the producer, a good packet
    is counted while no packet is seen. *)
Example reset_inside_accounting_breaks_good :
  let h := header_of_bytes (sample_packet 1 15) in
  let acs := [AcPacket 0 h; AcProducer; AcProducer; AcProducer;
              AcReset; AcConsumer; AcConsumer;
              AcProducer; AcProducer; AcProducer; AcProducer;
              AcConsumer; AcConsumer; AcConsumer; AcConsumer; AcConsumer] in
  apart_run accounting cfg_check acs (main_stat_sys cfg_check) = false /\
  match access_run cfg_check acs (main_stat_sys cfg_check) with
  | Some σ =>
      apc σ = AIdle /\ rpc σ = RIdle /\
      good_of (cnt σ) 0 = 1 /\ seen_of (cnt σ) 0 = 0
  | None => False
  end.
Proof. vm_compute. repeat split. Qed.

(** Between the two increments [good] exceeds [seen], also without a
    reset. *)
Example good_exceeds_seen_between_increments :
  let h := header_of_bytes (sample_packet 1 15) in
  let acs := [AcPacket 0 h; AcProducer; AcProducer; AcProducer; AcProducer;
              AcProducer] in
  apart_run accounting cfg_check acs (main_stat_sys cfg_check) = true /\
  match access_run cfg_check acs (main_stat_sys cfg_check) with
  | Some σ => apc σ = ASeen 0 /\ good_of (cnt σ) 0 = 1 /\ seen_of (cnt σ) 0 = 0
  | None => False
  end.
Proof. vm_compute. repeat split. Qed.

Lemma whole_packets_only_witness :
  let h := sample_packet 1 15 in
  let evs := [EvRecv 0 8 h; EvReserve; EvStore; EvTally;
              EvCWake; EvCSnapStop; EvCFile; EvCClear; EvCSize;
              EvRecv 1 8 h; EvReserve; EvStore; EvTally;
              EvCOpen; EvCWrite; EvSignal SIGHUP; EvCRelease;
              EvCWake; EvCSnapStop; EvCFile] in
  match run cfg_udp evs (main_sys cfg_udp) with
  | Some σ =>
      disk (g σ) = [[8]] /\ fillsize (ringbuffer (g σ)) = 8 /\
      (forall i n newpoi, ppc σ = PReserved i n newpoi -> n = packlen cfg_udp) /\
      (forall t, cpc σ = CRelease t -> (packlen cfg_udp | t)) /\
      (packlen cfg_udp | fillsize (ringbuffer (g σ))) /\
      (packlen cfg_udp | bytes_written_thisfile (g σ)) /\
      (forall f, f ∈ all_files (g σ) -> (packlen cfg_udp | sum_writes f))
  | None => False
  end.
Proof.
  cbv zeta.
  destruct (run cfg_udp _ (main_sys cfg_udp)) as [σ|] eqn:Hrun;
    [|vm_compute in Hrun; discriminate Hrun].
  split; [vm_compute in Hrun; injection Hrun as <-; reflexivity|].
  split; [vm_compute in Hrun; injection Hrun as <-; reflexivity|].
  refine (whole_packets_only cfg_udp _ σ cfg_udp_ok _ eq_refl _ Hrun).
  - cbn. lia.
  - cbn. rewrite long_max_val. lia.
Defined.

(** ** Reading from stdin *)

Lemma init_thisfilestat_dropped cfg t :
  Forall (fun d => d = 0) (packs_dropped t) ->
  Forall (fun d => d = 0) (packs_dropped (init_thisfilestat cfg t)).
Proof.
  intros H. unfold init_thisfilestat.
  cbn [packs_dropped set_n_filllevel set_maxsize set_totlen set_lasttotlen].
  apply (for_ports_ind (fun t => Forall (fun d => d = 0) (packs_dropped t))); [|exact H].
  intros j t1 H1. unfold init_port; cbn. apply Forall_insert; auto.
Qed.

Lemma consumer_file_dropped cfg p o s :
  Forall (fun d => d = 0) (packs_dropped (stat s)) ->
  Forall (fun d => d = 0) (packs_dropped (stat (fst (consumer_file cfg p o s)))).
Proof.
  intros H. destruct (consumer_file_stat cfg p o s) as [-> | ->];
    [exact H | apply init_thisfilestat_dropped, H].
Qed.

Lemma producer_recv_dropped cfg i n h s :
  packs_dropped (stat (fst (producer_recv cfg i n h s))) = packs_dropped (stat s).
Proof.
  destruct (producer_recv_cases cfg i n h s) as [-> | ->];
    cbn [fst stat upd_stat set_stat]; [reflexivity|].
  apply (producer_account_frame cfg i (header_of_bytes h) (stat s)).
Qed.

Section Stdin.

Variable cfg : config.
Hypothesis Hok : config_ok cfg.
Hypothesis Hstdin : stdin_mode cfg = true.
Hypothesis Hnb : do_blocklen cfg = false.

Lemma step_lossless ev σ σ' :
  lossless cfg σ -> step cfg ev σ = Some σ' -> lossless cfg σ'.
Proof.
  intros (Hinv & Hw & Hd) Hstep.
  pose proof (step_sys_inv cfg ev σ σ' Hok Hinv Hstep) as Hinv'.
  split; [exact Hinv'|]. clear Hinv'.
  destruct Hinv as (Hwf & Hvi & Hpi & Hci).
  pose proof Hok as ((HL0 & HL1) & _). unfold MMAXLEN in HL1.
  destruct ev; step_cases Hstep;
    rewrite ?signal_handler_rb, ?producer_recv_rb, ?consumer_file_rb;
    rewrite ?(proj2 (proj2 (proj2 (proj2 (signal_handler_counters cfg _ _)))));
    cbn [ppc_waited ppc_inv cpc_inv] in *;
    try (split; [assumption || exact I | assumption]; fail);
    try (rewrite Hstdin in *; discriminate).
  - (* stdin: room seen *)
    split; [|assumption].
    match goal with H : _ && is_open (vrb_poi_new _ _) = true |- _ =>
      apply andb_prop in H; destruct H as (_ & H);
      destruct (vrb_poi_new (ringbuffer (g σ)) (packlen cfg)) eqn:E; [|discriminate H] end.
    eapply vrb_poi_new_Some_fits; eauto. rewrite int_max_val. lia.
  - (* stdin: a packet *)
    rewrite producer_recv_dropped.
    destruct (producer_recv_pc cfg 0 size buff2 (g σ)) as [-> | (-> & _ & _ & Hlen)];
      cbn [ppc_waited]; (split; [|assumption]); [exact I|].
    rewrite Hnb.
    destruct Hlen as [Hz | ->]; [|auto].
    destruct Hok as (_ & _ & _ & _ & _ & Hs & _). specialize (Hs Hstdin). lia.
  - (* reserve *)
    unfold producer_reserve; cbn [fst snd ringbuffer stat upd_stat set_stat ppc_waited
      packs_dropped set_n_filllevel].
    split; [|assumption]. destruct Hw as (-> & Hfit).
    rewrite vrb_poi_new_fits_Some; auto. rewrite int_max_val. lia.
  - (* store *)
    destruct newpoi as [p|]; [|discriminate Hw].
    unfold producer_store; cbn [fst snd ppc_waited].
    split; [exact I|]. case_match; cbn; assumption.
  - (* file *)
    split; [assumption | apply consumer_file_dropped; assumption].
  - (* stop level cleared *)
    destruct (consumer_clear_frame oldpoi old_stopped (g σ)) as (Hrb & _).
    cbv zeta in Hrb. rewrite Hrb.
    assert (Hs : stat (fst (consumer_clear oldpoi old_stopped (g σ))) = stat (g σ))
      by (unfold consumer_clear; case_match; reflexivity).
    rewrite Hs. split; assumption.
  - (* file opened *)
    destruct (consumer_open_frame cfg (g σ)) as (-> & _).
    rewrite consumer_open_stat. split; assumption.
  - (* write *)
    match goal with H : consumer_write _ _ _ = Some ?r |- _ =>
      unfold consumer_write in H; case_match; simplify_eq end.
    cbn [fst stat ringbuffer set_bytes_written_thisfile set_outf]. split; assumption.
  - (* release *)
    unfold consumer_release; cbn [fst snd ringbuffer stat pthread_cond_signal_space
      set_space_available set_ringbuffer].
    split; [|assumption].
    rewrite vrb_advance_old_eq by assumption.
    destruct (ppc σ); cbn [ppc_waited fillsize totsize] in *; auto; lia.
Qed.

Lemma main_lossless : lossless cfg (main_sys cfg).
Proof.
  split; [apply main_sys_inv, Hok|]. split; [exact I|].
  unfold main_sys; cbn [g]. rewrite main_state_stat.
  cbn [packs_dropped set_totlen]. apply init_thisfilestat_dropped.
  unfold zero_stats; cbn [packs_dropped]. apply Forall_replicate. reflexivity.
Qed.

End Stdin.

(** X1. Without [--sizehead] the stdin mode keeps what the source promises: the
    reserve that follows the wait always succeeds and no packet is ever
    dropped. *)
Theorem stdin_without_sizehead_never_drops cfg evs σ :
  config_ok cfg -> stdin_mode cfg = true -> do_blocklen cfg = false ->
  run cfg evs (main_sys cfg) = Some σ ->
  (forall i n newpoi, ppc σ = PReserved i n newpoi -> is_open newpoi = true) /\
  Forall (fun d => d = 0) (packs_dropped (stat (g σ))).
Proof.
  intros Hok Hstdin Hnb Hrun.
  assert (Hl : lossless cfg σ).
  { revert Hrun. apply run_invariant; [|apply main_lossless; assumption].
    intros ev σ1 σ2. apply step_lossless; assumption. }
  destruct Hl as (_ & Hw & Hd). split; [|exact Hd].
  intros i n p E. rewrite E in Hw. exact Hw.
Qed.

(** * Further properties of the code *)

(** ** [init_vrb] *)

(** X2. The size [init_vrb] gives the buffer is the smallest multiple of the page
    size that holds [minsize] bytes, and the buffer starts empty. *)
Theorem init_vrb_page_rounding minsize pagesize :
  vrb_init_ok minsize pagesize ->
  let v := init_vrb minsize pagesize in
  fillsize v = 0 /\ front v = 0 /\ rear v = 0 /\
  minsize <= totsize v /\ (pagesize | totsize v) /\
  forall m, (pagesize | m) -> minsize <= m -> totsize v <= m.
Proof.
  intros Hok. cbv zeta.
  destruct (init_vrb_covers _ _ Hok) as ((Hlo & Hhi) & Hmod).
  destruct Hok as (Hm & Hp & _).
  split; [reflexivity|]. split; [reflexivity|]. split; [reflexivity|].
  split; [exact Hlo|].
  apply Z.mod_divide in Hmod; [|lia]. split; [exact Hmod|].
  intros m (a & ->) Hge. destruct Hmod as (b & Hb). rewrite Hb in *.
  destruct (Z_lt_le_dec a b) as [Hab|Hab]; [|nia].
  assert (a * pagesize <= (b - 1) * pagesize) by (apply Z.mul_le_mono_nonneg_r; lia).
  lia.
Qed.

Lemma init_vrb_page_rounding_witness :
  let v := init_vrb 104857601 4096 in
  totsize v = 104861696 /\
  fillsize v = 0 /\ front v = 0 /\ rear v = 0 /\
  104857601 <= totsize v /\ (4096 | totsize v) /\
  forall m, (4096 | m) -> 104857601 <= m -> totsize v <= m.
Proof.
  split; [reflexivity|].
  apply (init_vrb_page_rounding 104857601 4096).
  unfold vrb_init_ok. rewrite long_max_val. lia.
Defined.

(** ** The regions the two threads touch *)

Lemma step_ptr_inv cfg ev σ σ' :
  config_ok cfg -> sys_inv σ -> ptr_inv σ -> step cfg ev σ = Some σ' -> ptr_inv σ'.
Proof.
  intros Hok (Hwf & Hinv & Hp & Hc) Hptr Hstep.
  destruct ev; step_cases Hstep; destruct Hptr as (Hpp & Hcp);
    try match goal with H : ppc σ = _ |- _ => rewrite H in Hpp end;
    try match goal with H : cpc σ = _ |- _ => rewrite H in Hcp end;
    unfold ptr_inv; cbn [g ppc cpc];
    rewrite ?signal_handler_rb, ?producer_recv_rb, ?consumer_file_rb;
    try (split; [assumption || exact I | assumption || exact I]; fail).
  - (* stdin: a packet *)
    split; [|assumption].
    destruct (producer_recv_pc cfg 0 size buff2 (g σ)) as [-> | (-> & _)]; exact I.
  - (* recvfrom *)
    split; [|assumption].
    destruct (producer_recv_pc cfg i size buff2 (g σ)) as [-> | (-> & _)]; exact I.
  - (* reserve *)
    unfold producer_reserve; cbn [fst snd ringbuffer upd_stat set_stat].
    split; [|assumption]. unfold vrb_poi_new.
    destruct (_ >? _); [exact I | reflexivity].
  - (* store *)
    destruct (producer_store_frame i thissize newpoi (g σ)) as (_ & _ & _ & Hrb).
    cbv zeta in Hrb. rewrite Hrb. cbn [ppc_inv] in Hp. destruct Hp as (Hn & Hfit).
    destruct newpoi as [p|]; cbn [is_open producer_store snd]; [|split; [exact I | assumption]].
    split; [exact I|].
    rewrite vrb_advance_new_eq by (auto; lia). cbn [front]. exact Hcp.
  - (* consumer wakes *)
    split; [assumption|].
    match goal with H : consumer_wake _ = Some _ |- _ =>
      unfold consumer_wake in H; destruct (_ && _) in H; [discriminate H|];
      injection H as <- end.
    unfold vrb_poi_old. destruct (_ =? _); [exact I | reflexivity].
  - (* file *)
    split; [assumption|].
    destruct (consumer_file_pc cfg oldpoi old_stopped (g σ)) as [-> | ->]; [exact I | exact Hcp].
  - (* stop level cleared *)
    destruct (consumer_clear_frame oldpoi old_stopped (g σ)) as (Hrb & _).
    cbv zeta in Hrb. rewrite Hrb. split; [assumption|].
    unfold consumer_clear; cbn [snd]. destruct (is_open oldpoi); exact I.
  - (* file opened *)
    destruct (consumer_open_frame cfg (g σ)) as (-> & _). split; [assumption | exact I].
  - (* write *)
    match goal with H : consumer_write _ _ _ = Some ?r |- _ =>
      destruct r as [s1 pc1];
      destruct (consumer_write_inv _ _ _ _ _ H) as (f & _ & _ & -> & Hrb & _) end.
    cbn [fst snd]. rewrite Hrb. split; [assumption | exact I].
Qed.

Lemma reachable_ptr_inv cfg evs σ :
  config_ok cfg -> run cfg evs (main_sys cfg) = Some σ -> sys_inv σ /\ ptr_inv σ.
Proof.
  intros Hok. apply run_invariant with (P := fun σ => sys_inv σ /\ ptr_inv σ).
  - intros ev σ1 σ2 (Hi & Hp) Hstep. split.
    + eapply step_sys_inv; eauto.
    + eapply step_ptr_inv; eauto.
  - split; [apply main_sys_inv, Hok|]. split; exact I.
Qed.

(** X3. In every state of every run: the region a successful [vrb_poi_new] handed
    to the producer still starts at the rear of the buffer, holds the packet
    next to the data stored (which the consumer may have reduced meanwhile)
    and lies inside the doubled mapping; the pointer [vrb_poi_old] handed to
    the consumer is still the front of the buffer, with the data it points to
    inside the doubled mapping. *)
Theorem buffer_regions_valid cfg evs σ :
  config_ok cfg -> run cfg evs (main_sys cfg) = Some σ ->
  let v := ringbuffer (g σ) in
  (forall i n p, ppc σ = PReserved i n (Some p) ->
     p = rear v /\ 0 <= p /\ 0 < n /\
     fillsize v + n <= totsize v /\ p + n <= 2 * totsize v) /\
  (forall p o, cpc σ = CWoken (Some p) \/ cpc σ = CDecide (Some p) o \/
               cpc σ = CClear (Some p) o ->
     p = front v /\ 0 <= p /\ 0 < fillsize v /\ p + fillsize v <= 2 * totsize v).
Proof.
  intros Hok Hrun. cbv zeta.
  destruct (reachable_ptr_inv cfg evs σ Hok Hrun) as ((Hwf & Hinv & Hp & Hc) & (Hpp & Hcp)).
  pose proof (vrb_rear_range _ Hwf Hinv) as Hr.
  destruct Hwf as (Ht & H2 & Hfr). destruct Hinv as ((Hf0 & Hf1) & _).
  split.
  - intros i n p E. rewrite E in Hp, Hpp. cbn [ppc_inv] in Hp.
    destruct Hp as (Hn & Hfit). specialize (Hfit eq_refl). subst p. lia.
  - intros p o [E | [E | E]]; rewrite E in Hc, Hcp; cbn [cpc_inv] in Hc;
      specialize (Hc eq_refl); subst p; lia.
Qed.

Lemma buffer_regions_valid_witness :
  let evs := [EvRecv 0 8 (sample_packet 1 15); EvReserve; EvStore; EvTally;
              EvCWake; EvRecv 1 8 (sample_packet 1 31); EvReserve] in
  match run cfg_udp evs (main_sys cfg_udp) with
  | Some σ =>
      let v := ringbuffer (g σ) in
      ppc σ = PReserved 1 8 (Some 8) /\ cpc σ = CWoken (Some 0) /\
      (forall i n p, ppc σ = PReserved i n (Some p) ->
         p = rear v /\ 0 <= p /\ 0 < n /\
         fillsize v + n <= totsize v /\ p + n <= 2 * totsize v) /\
      (forall p o, cpc σ = CWoken (Some p) \/ cpc σ = CDecide (Some p) o \/
                   cpc σ = CClear (Some p) o ->
         p = front v /\ 0 <= p /\ 0 < fillsize v /\ p + fillsize v <= 2 * totsize v)
  | None => False
  end.
Proof.
  cbv zeta.
  destruct (run cfg_udp _ (main_sys cfg_udp)) as [σ|] eqn:Hrun;
    [|vm_compute in Hrun; discriminate Hrun].
  split; [vm_compute in Hrun; injection Hrun as <-; reflexivity|].
  split; [vm_compute in Hrun; injection Hrun as <-; reflexivity|].
  exact (buffer_regions_valid cfg_udp _ σ cfg_udp_ok Hrun).
Defined.

(** X4. [assert (thissize)] in the consumer never fails: whenever the consumer
    is about to read the fill level, the buffer holds data, the step is
    taken and the level read is positive. *)
Theorem consumer_assert_holds cfg evs σ :
  config_ok cfg -> run cfg evs (main_sys cfg) = Some σ -> cpc σ = CSize ->
  0 < fillsize (ringbuffer (g σ)) /\
  step cfg EvCSize σ
  = Some {| g := g σ; ppc := ppc σ; cpc := COpen (fillsize (ringbuffer (g σ))) |}.
Proof.
  intros Hok Hrun Hpc.
  destruct (reachable_sys_inv cfg evs σ Hok Hrun) as (_ & _ & _ & Hc).
  rewrite Hpc in Hc. cbn [cpc_inv] in Hc. split; [exact Hc|].
  unfold step. rewrite Hpc.
  destruct (Z.eqb_spec (fillsize (ringbuffer (g σ))) 0); [lia | reflexivity].
Qed.

Lemma consumer_assert_holds_witness :
  let evs := [EvRecv 0 8 (sample_packet 1 15); EvReserve; EvStore; EvTally;
              EvCWake; EvCSnapStop; EvCFile; EvCClear] in
  match run cfg_udp evs (main_sys cfg_udp) with
  | Some σ =>
      0 < fillsize (ringbuffer (g σ)) /\
      step cfg_udp EvCSize σ
      = Some {| g := g σ; ppc := ppc σ; cpc := COpen (fillsize (ringbuffer (g σ))) |}
  | None => False
  end.
Proof.
  cbv zeta.
  destruct (run cfg_udp _ (main_sys cfg_udp)) as [σ|] eqn:Hrun;
    [|vm_compute in Hrun; discriminate Hrun].
  apply (consumer_assert_holds cfg_udp _ σ cfg_udp_ok Hrun).
  vm_compute in Hrun. injection Hrun as <-. reflexivity.
Defined.

(** ** The stop level *)

Lemma signal_handler_stopped cfg signum s :
  stopped (signal_handler cfg signum s) = stopped s \/
  (stopped s = 0 /\ stopped (signal_handler cfg signum s) = 1) \/
  stopped (signal_handler cfg signum s) = 2.
Proof.
  unfold signal_handler.
  repeat case_match; cbn; auto;
    match goal with H : (stopped _ =? 0) = true |- _ =>
      cbn in H; apply Z.eqb_eq in H; auto end.
Qed.

Lemma producer_steps_stopped cfg i n p h s :
  stopped (fst (producer_recv cfg i n h s)) = stopped s /\
  stopped (fst (producer_reserve i n s)) = stopped s /\
  stopped (fst (producer_store i n p s)) = stopped s /\
  stopped (fst (producer_tally i n s)) = stopped s.
Proof.
  unfold producer_recv, producer_reserve, producer_store, producer_tally.
  repeat case_match; repeat split; reflexivity.
Qed.

Lemma consumer_file_stopped cfg p o s :
  stopped (fst (consumer_file cfg p o s)) = stopped s.
Proof. unfold consumer_file, start_file. repeat case_match; reflexivity. Qed.

Lemma consumer_clear_stopped p o s :
  let s' := fst (consumer_clear p o s) in
  (stopped s = 2 -> stopped s' = 2) /\
  (stopped s' = stopped s \/ stopped s' = 0) /\
  (stopped s <> o -> stopped s' = stopped s).
Proof.
  cbv zeta. unfold consumer_clear.
  destruct (Z.eqb_spec (stopped s) o), (Z.eqb_spec (stopped s) 2); cbn; auto; lia.
Qed.

Lemma consumer_rest_stopped cfg t s s' pc :
  stopped (consumer_open cfg s) = stopped s /\
  stopped (fst (consumer_release t s)) = stopped s /\
  (consumer_write cfg t s = Some (s', pc) -> stopped s' = stopped s).
Proof.
  unfold consumer_open, start_file, consumer_release, consumer_write.
  repeat case_match; repeat split; try reflexivity; intros; simplify_eq; reflexivity.
Qed.

(** One step: the stop level stays, or goes from 0 to 1, or to 2, or is
    cleared to 0 by the consumer from a level other than 2. *)
Lemma step_stopped cfg ev σ σ' :
  step cfg ev σ = Some σ' ->
  stopped (g σ') = stopped (g σ) \/
  (stopped (g σ) = 0 /\ stopped (g σ') = 1) \/
  stopped (g σ') = 2 \/
  (stopped (g σ) <> 2 /\ stopped (g σ') = 0).
Proof.
  intros Hstep.
  destruct ev; step_cases Hstep; auto;
    try (match goal with |- context [signal_handler cfg ?n _] =>
           destruct (signal_handler_stopped cfg n (g σ)) as [H' | [H' | H']] end;
         auto; fail).
  - destruct (producer_steps_stopped cfg 0 size None buff2 (g σ)) as (-> & _). auto.
  - destruct (producer_steps_stopped cfg i size None buff2 (g σ)) as (-> & _). auto.
  - destruct (producer_steps_stopped cfg i thissize newpoi [] (g σ)) as (_ & _ & -> & _). auto.
  - rewrite consumer_file_stopped. auto.
  - destruct (consumer_clear_stopped oldpoi old_stopped (g σ)) as (H2 & [H' | H'] & _); auto.
    destruct (Z.eq_dec (stopped (g σ)) 2); [left; rewrite H2; auto | auto].
  - destruct (consumer_rest_stopped cfg 0 (g σ) (g σ) CTop) as (-> & _). auto.
  - match goal with H : consumer_write _ _ _ = Some ?r |- _ =>
      destruct r as [s1 pc1];
      destruct (consumer_rest_stopped cfg thissize (g σ) s1 pc1) as (_ & _ & Hw);
      cbn [fst]; rewrite (Hw H) end. auto.
Qed.

Lemma main_stopped cfg : stopped (main_state cfg) = 0.
Proof. unfold main_state, start_file. repeat case_match; reflexivity. Qed.

Lemma stop_range cfg evs σ :
  run cfg evs (main_sys cfg) = Some σ ->
  stopped (g σ) = 0 \/ stopped (g σ) = 1 \/ stopped (g σ) = 2.
Proof.
  intros Hrun. revert Hrun.
  apply run_invariant with
    (P := fun σ => stopped (g σ) = 0 \/ stopped (g σ) = 1 \/ stopped (g σ) = 2).
  - intros ev σ1 σ2 H1 Hs. destruct (step_stopped cfg ev σ1 σ2 Hs) as [E | [E | [E | E]]]; lia.
  - left. apply main_stopped.
Qed.

Lemma step_two_stays cfg ev σ σ' :
  step cfg ev σ = Some σ' -> stopped (g σ) = 2 -> stopped (g σ') = 2.
Proof.
  intros Hs H2. destruct (step_stopped cfg ev σ σ' Hs) as [E | [E | [E | E]]]; lia.
Qed.

Lemma step_outf_consumer_only cfg ev σ σ' :
  consumer_event ev = false -> step cfg ev σ = Some σ' -> outf (g σ') = outf (g σ).
Proof.
  intros Hev Hstep. destruct ev; try discriminate Hev; step_cases Hstep;
    rewrite ?signal_handler_outf, ?producer_recv_outf; try reflexivity.
  apply (producer_store_frame i thissize newpoi (g σ)).
Qed.

(** When the consumer ends, it read stop level 2 and found the buffer empty,
    and it leaves no file open. *)
Lemma consumer_file_exit cfg p o s :
  (snd (consumer_file cfg p o s) = CExited <-> p = None /\ o = 2) /\
  (snd (consumer_file cfg p o s) = CExited -> outf (fst (consumer_file cfg p o s)) = None).
Proof.
  unfold consumer_file, consumer_my_stopped.
  destruct (Z.eqb_spec o 0) as [E0|E0]; cbn [andb].
  - subst o. destruct (split_wanted (maxfilesize cfg) (bytes_written_thisfile s)); cbn;
      (split; [split; [discriminate | intros (_ & ?); discriminate] | discriminate]).
  - destruct (Z.eqb_spec o 2) as [E2|E2]; cbn [andb].
    + subst o. destruct p as [p|]; cbn.
      * split; [split; [discriminate | intros (? & _); discriminate] | discriminate].
      * split; [split; auto|]. intros _. destruct (outf s) eqn:Eo; cbn; [reflexivity | exact Eo].
    + split; [split; [discriminate | intros (_ & ?); contradiction] | discriminate].
Qed.

Lemma step_exit_inv cfg ev σ σ' :
  exit_inv σ -> step cfg ev σ = Some σ' -> exit_inv σ'.
Proof.
  intros Hinv Hstep.
  destruct (consumer_event ev) eqn:Hev.
  - pose proof (step_two_stays cfg ev σ σ' Hstep) as H2.
    destruct ev; try discriminate Hev; step_cases Hstep; unfold exit_inv in *;
      cbn [g cpc] in *;
      try match goal with H : cpc σ = _ |- _ => rewrite H in Hinv end;
      try exact I; try (intros; assumption).
    + (* consumer wakes *)
      match goal with H : consumer_wake _ = Some _ |- _ =>
        unfold consumer_wake in H; destruct (_ && _) in H; [discriminate H|];
        injection H as <- end. exact I.
    + (* file *)
      rewrite consumer_file_stopped in *.
      destruct (consumer_file_exit cfg oldpoi old_stopped (g σ)) as (Hiff & Hout).
      destruct (consumer_file_pc cfg oldpoi old_stopped (g σ)) as [E | E].
      * rewrite E. split; [apply Hout, E|].
        apply Hinv. apply (proj1 Hiff E).
      * rewrite E. exact Hinv.
    + (* stop level cleared *)
      unfold consumer_clear; cbn [snd]. destruct (is_open oldpoi); exact I.
    + (* write *)
      match goal with H : consumer_write _ _ _ = Some ?r |- _ =>
        destruct r as [s1 pc1];
        destruct (consumer_write_inv _ _ _ _ _ H) as (f & _ & _ & -> & _) end.
      exact I.
  - pose proof (step_keeps_consumer cfg ev σ σ' Hev Hstep) as Hc.
    pose proof (step_outf_consumer_only cfg ev σ σ' Hev Hstep) as Ho.
    pose proof (step_two_stays cfg ev σ σ' Hstep) as H2.
    unfold exit_inv in *. rewrite Hc, Ho.
    destruct (cpc σ); auto. destruct Hinv as (H1 & H3). auto.
Qed.

Lemma step_disk_consumer_only cfg ev σ σ' :
  consumer_event ev = false -> step cfg ev σ = Some σ' -> disk (g σ') = disk (g σ).
Proof.
  intros Hev Hstep. destruct ev; try discriminate Hev; step_cases Hstep;
    rewrite ?signal_handler_disk, ?producer_recv_disk; try reflexivity.
  apply (producer_store_frame i thissize newpoi (g σ)).
Qed.

(** The consumer makes no step once it has ended. *)
Lemma step_consumer_ended cfg ev σ :
  consumer_event ev = true -> cpc σ = CExited -> step cfg ev σ = None.
Proof.
  intros Hev Hpc. destruct ev; try discriminate Hev; unfold step; rewrite Hpc; reflexivity.
Qed.

Lemma step_closed_at_exit cfg ev σ σ' :
  (cpc σ = CExited -> outf (g σ) = None) -> step cfg ev σ = Some σ' ->
  cpc σ' = CExited -> outf (g σ') = None.
Proof.
  intros Hinv Hstep.
  destruct (consumer_event ev) eqn:Hev.
  - destruct ev; try discriminate Hev; step_cases Hstep; try discriminate.
    + (* consumer wakes *)
      match goal with H : consumer_wake _ = Some _ |- _ =>
        unfold consumer_wake in H; destruct (_ && _) in H; [discriminate H|];
        injection H as <- end. discriminate.
    + (* file *)
      apply (consumer_file_exit cfg oldpoi old_stopped (g σ)).
    + (* stop level cleared *)
      unfold consumer_clear; cbn [snd]. destruct (is_open oldpoi); discriminate.
    + (* write *)
      match goal with H : consumer_write _ _ _ = Some ?r |- _ =>
        destruct r as [s1 pc1];
        destruct (consumer_write_inv _ _ _ _ _ H) as (f & _ & _ & -> & _) end.
      discriminate.
  - rewrite (step_keeps_consumer cfg ev σ σ' Hev Hstep),
      (step_outf_consumer_only cfg ev σ σ' Hev Hstep). exact Hinv.
Qed.

(** X6. In every state after the consumer thread has ended no output file is
    open, so that every file written is closed and on [disk]; and from then
    on the consumer stays ended, no file is opened and [disk] stays as it
    is, whatever the producer and the signals do. *)
Theorem consumer_exit_closes_file cfg evs σ :
  run cfg evs (main_sys cfg) = Some σ -> cpc σ = CExited ->
  outf (g σ) = None /\ all_files (g σ) = disk (g σ) /\
  forall evs' σ', run cfg evs' σ = Some σ' ->
    cpc σ' = CExited /\ outf (g σ') = None /\ disk (g σ') = disk (g σ).
Proof.
  intros Hrun E.
  assert (Ho : outf (g σ) = None).
  { refine (run_invariant cfg (fun σ => cpc σ = CExited -> outf (g σ) = None)
              _ evs _ σ _ Hrun E).
    - intros ev σ1 σ2. apply step_closed_at_exit.
    - discriminate. }
  split; [exact Ho|]. split; [unfold all_files; rewrite Ho; apply app_nil_r|].
  intros evs' σ' Hrun'.
  refine (run_invariant cfg
            (fun σ' => cpc σ' = CExited /\ outf (g σ') = None /\ disk (g σ') = disk (g σ))
            _ evs' σ σ' _ Hrun'); [|auto].
  intros ev σ1 σ2 (E1 & Ho1 & Hd1) Hs.
  destruct (consumer_event ev) eqn:Hev.
  - rewrite (step_consumer_ended cfg ev σ1 Hev E1) in Hs. discriminate Hs.
  - rewrite (step_keeps_consumer cfg ev σ1 σ2 Hev Hs),
      (step_outf_consumer_only cfg ev σ1 σ2 Hev Hs),
      (step_disk_consumer_only cfg ev σ1 σ2 Hev Hs). auto.
Qed.

Lemma consumer_exit_closes_file_witness :
  let evs := [EvRecv 0 8 (sample_packet 1 15); EvReserve; EvStore; EvTally;
              EvCWake; EvCSnapStop; EvCFile; EvCClear; EvCSize; EvCOpen;
              EvSignal SIGTERM; EvCWrite; EvCRelease; EvCWake;
              EvCSnapStop; EvCFile] in
  let evs' := [EvSignal SIGHUP; EvTimeout; EvProducerExit] in
  match run cfg_udp evs (main_sys cfg_udp) with
  | Some σ =>
      match run cfg_udp evs' σ with
      | Some σ' =>
          cpc σ = CExited /\ disk (g σ) = [[8]] /\ ppc σ' = PExited /\
          outf (g σ) = None /\ all_files (g σ) = disk (g σ) /\
          cpc σ' = CExited /\ outf (g σ') = None /\ disk (g σ') = disk (g σ)
      | None => False
      end
  | None => False
  end.
Proof.
  cbv zeta.
  destruct (run cfg_udp _ (main_sys cfg_udp)) as [σ|] eqn:Hrun;
    [|vm_compute in Hrun; discriminate Hrun].
  assert (E : cpc σ = CExited)
    by (vm_compute in Hrun; injection Hrun as <-; reflexivity).
  destruct (run cfg_udp _ σ) as [σ'|] eqn:Hrun'.
  - split; [exact E|].
    split; [vm_compute in Hrun; injection Hrun as <-; reflexivity|].
    split; [vm_compute in Hrun; injection Hrun as <-; vm_compute in Hrun';
            injection Hrun' as <-; reflexivity|].
    destruct (consumer_exit_closes_file cfg_udp _ σ Hrun E) as (Ho & Ha & Hafter).
    split; [exact Ho|]. split; [exact Ha|]. exact (Hafter _ σ' Hrun').
  - vm_compute in Hrun. injection Hrun as <-. vm_compute in Hrun'. discriminate Hrun'.
Defined.

(** ** What ends the program *)

Lemma signal_handler_not_two cfg signum s :
  stdin_mode cfg = false ->
  (signum =? SIGINT) || (signum =? SIGTERM) || (signum =? SIGALRM) = false ->
  stopped s <> 2 -> stopped (signal_handler cfg signum s) <> 2.
Proof.
  intros Hudp Hsig H2. unfold signal_handler. rewrite Hudp, Hsig.
  repeat case_match; cbn; auto; discriminate.
Qed.

Lemma step_running cfg ev σ σ' :
  stdin_mode cfg = false -> is_final_signal ev = false ->
  running σ -> step cfg ev σ = Some σ' -> running σ'.
Proof.
  intros Hudp Hev Hr Hstep.
  assert (Hst : stopped (g σ') <> 2).
  { pose proof (proj1 Hr) as H2. clear Hr.
    destruct ev; step_cases Hstep; auto;
      try (apply signal_handler_not_two; auto; fail).
    - destruct (producer_steps_stopped cfg 0 size None buff2 (g σ)) as (-> & _). auto.
    - destruct (producer_steps_stopped cfg i size None buff2 (g σ)) as (-> & _). auto.
    - destruct (producer_steps_stopped cfg i thissize newpoi [] (g σ)) as (_ & _ & -> & _). auto.
    - rewrite consumer_file_stopped. auto.
    - destruct (consumer_clear_stopped oldpoi old_stopped (g σ)) as (_ & [-> | ->] & _); auto.
    - destruct (consumer_rest_stopped cfg 0 (g σ) (g σ) CTop) as (-> & _). auto.
    - match goal with H : consumer_write _ _ _ = Some ?r |- _ =>
        destruct r as [s1 pc1];
        destruct (consumer_rest_stopped cfg thissize (g σ) s1 pc1) as (_ & _ & Hw);
        cbn [fst]; rewrite (Hw H) end. auto. }
  destruct ev; step_cases Hstep; destruct Hr as (Hs2 & Hp & Hc & Ho);
    (split; [exact Hst|]); clear Hst; cbn [g ppc cpc];
    try match goal with H : ppc σ = _ |- _ => rewrite H in Hp end;
    try match goal with H : cpc σ = _ |- _ => rewrite H in Hc, Ho end;
    try (split; [assumption || discriminate
                | split; [assumption || discriminate | assumption || exact I]]; fail).
  - (* producer exits *)
    match goal with H : _ && (stopped _ =? 2) = true |- _ =>
      apply andb_prop in H; destruct H as (_ & H); apply Z.eqb_eq in H end.
    contradiction.
  - (* stdin: a packet *)
    split; [|split; assumption].
    destruct (producer_recv_pc cfg 0 size buff2 (g σ)) as [-> | (-> & _)]; discriminate.
  - (* recvfrom *)
    split; [|split; assumption].
    destruct (producer_recv_pc cfg i size buff2 (g σ)) as [-> | (-> & _)]; discriminate.
  - (* store *)
    split; [|split; assumption].
    unfold producer_store. destruct newpoi; discriminate.
  - (* consumer wakes *)
    match goal with H : consumer_wake _ = Some _ |- _ =>
      unfold consumer_wake in H; destruct (_ && _) in H; [discriminate H|];
      injection H as <- end.
    split; [assumption | split; [discriminate | exact I]].
  - (* file *)
    split; [assumption|].
    destruct (consumer_file_exit cfg oldpoi old_stopped (g σ)) as (Hiff & _).
    destruct (consumer_file_pc cfg oldpoi old_stopped (g σ)) as [E | E].
    + destruct (proj1 Hiff E) as (_ & E2). contradiction.
    + rewrite E. split; [discriminate | exact Ho].
  - (* stop level cleared *)
    split; [assumption|]. unfold consumer_clear; cbn [snd].
    destruct (is_open oldpoi); split; try discriminate; exact I.
  - (* write *)
    match goal with H : consumer_write _ _ _ = Some ?r |- _ =>
      destruct r as [s1 pc1];
      destruct (consumer_write_inv _ _ _ _ _ H) as (f & _ & _ & -> & _) end.
    split; [assumption | split; [discriminate | exact I]].
Qed.

(** X7. Receiving from UDP ports, only SIGINT, SIGTERM or SIGALRM end the program:
    in a run without them the stop level never becomes 2 and neither thread
    ends, whatever timeouts, SIGHUPs and packets there are. *)
Theorem udp_runs_until_signalled cfg evs σ :
  stdin_mode cfg = false ->
  Forall (fun ev => is_final_signal ev = false) evs ->
  run cfg evs (main_sys cfg) = Some σ ->
  (stopped (g σ) = 0 \/ stopped (g σ) = 1) /\
  ppc σ <> PExited /\ cpc σ <> CExited.
Proof.
  intros Hudp Hall Hrun.
  assert (Hr : running σ).
  { assert (H0 : running (main_sys cfg)).
    { unfold running, main_sys; cbn [g ppc cpc]. rewrite main_stopped.
      repeat split; discriminate. }
    revert H0 Hrun. generalize (main_sys cfg). induction Hall as [|ev evs Hev Hall IH];
      intros σ0 H0; cbn [run].
    - intros [= <-]. exact H0.
    - destruct (step cfg ev σ0) as [σ1|] eqn:Hs; [|discriminate].
      apply IH. eapply step_running; eauto. }
  destruct Hr as (H2 & Hp & Hc & _).
  destruct (stop_range cfg evs σ Hrun) as [E | [E | E]]; auto. contradiction.
Qed.

Lemma udp_runs_until_signalled_witness :
  let evs := [EvTimeout; EvRecv 0 8 (sample_packet 1 15); EvReserve; EvStore; EvTally;
              EvCWake; EvCSnapStop; EvCFile; EvCClear; EvCSize; EvCOpen;
              EvSignal SIGHUP; EvCWrite; EvCRelease; EvTimeout; EvCWake;
              EvCSnapStop; EvCFile; EvCClear] in
  match run cfg_udp evs (main_sys cfg_udp) with
  | Some σ =>
      disk (g σ) = [[8]] /\
      (stopped (g σ) = 0 \/ stopped (g σ) = 1) /\
      ppc σ <> PExited /\ cpc σ <> CExited
  | None => False
  end.
Proof.
  cbv zeta.
  destruct (run cfg_udp _ (main_sys cfg_udp)) as [σ|] eqn:Hrun;
    [|vm_compute in Hrun; discriminate Hrun].
  split; [vm_compute in Hrun; injection Hrun as <-; reflexivity|].
  refine (udp_runs_until_signalled cfg_udp _ σ eq_refl _ Hrun).
  repeat constructor.
Defined.

Lemma cfg_stdin_ok : config_ok cfg_stdin.
Proof.
  unfold config_ok, cfg_stdin, MMAXLEN, MAXNSOCK, stdin_mode; cbn.
  rewrite long_max_val, int_max_val. repeat split; try lia; discriminate.
Qed.

Lemma stdin_without_sizehead_never_drops_witness :
  let p := sample_packet 1 15 in
  let evs := [EvStdinWait; EvStdinRead 6143 p; EvReserve; EvStore; EvTally;
              EvCWake; EvCSnapStop; EvCFile; EvCClear; EvCSize; EvCOpen;
              EvStdinWait; EvStdinRead 6143 p; EvReserve; EvStore; EvTally;
              EvCWrite; EvCRelease; EvStdinWait; EvStdinRead 6143 p; EvReserve] in
  match run cfg_stdin evs (main_sys cfg_stdin) with
  | Some σ =>
      packs_seen (stat (g σ)) !!! 0%nat = 3 /\
      (forall i n newpoi, ppc σ = PReserved i n newpoi -> is_open newpoi = true) /\
      Forall (fun d => d = 0) (packs_dropped (stat (g σ)))
  | None => False
  end.
Proof.
  cbv zeta.
  destruct (run cfg_stdin _ (main_sys cfg_stdin)) as [σ|] eqn:Hrun;
    [|vm_compute in Hrun; discriminate Hrun].
  split; [vm_compute in Hrun; injection Hrun as <-; reflexivity|].
  exact (stdin_without_sizehead_never_drops cfg_stdin _ σ cfg_stdin_ok eq_refl eq_refl Hrun).
Defined.

(** ** Where the bytes are *)

Lemma sum_writes_app f1 f2 : sum_writes (f1 ++ f2) = sum_writes f1 + sum_writes f2.
Proof.
  unfold sum_writes. induction f1 as [|w f1 IH]; cbn [foldr app]; [reflexivity|].
  rewrite IH. lia.
Qed.

Lemma all_writes_same s s' :
  outf s' = outf s -> disk s' = disk s -> all_writes s' = all_writes s.
Proof. unfold all_writes, all_files. intros -> ->. reflexivity. Qed.

Lemma start_file_writes cfg s :
  all_writes (start_file cfg s) = concat (disk s).
Proof.
  destruct (start_file_frame cfg s) as (_ & Hd & Ho & _).
  unfold all_writes, all_files. rewrite Hd, Ho, concat_app. cbn. apply app_nil_r.
Qed.

Lemma consumer_file_writes cfg p o s :
  all_writes (fst (consumer_file cfg p o s)) = all_writes s.
Proof.
  unfold consumer_file.
  destruct (outf s) as [f|] eqn:Eo.
  2: { destruct (_ && _); cbn [fst]; reflexivity. }
  set (my := consumer_my_stopped cfg o s).
  destruct ((my =? 2) && negb (is_open p) || abs_is my 1) eqn:Eclose.
  2: { destruct (_ && _); cbn [fst]; reflexivity. }
  assert (Hclosed : forall sa, outf sa = outf s -> disk sa = disk s ->
            all_writes (set_outf None (set_disk (disk sa ++ [f]) sa)) = all_writes s).
  { intros sa Ho Hd. unfold all_writes, all_files.
    cbn [outf disk set_outf set_disk]. rewrite Hd, Eo, app_nil_r. reflexivity. }
  assert (Hstarted : forall sa, outf sa = outf s -> disk sa = disk s ->
            all_writes (start_file cfg (set_outf None (set_disk (disk sa ++ [f]) sa)))
            = all_writes s).
  { intros sa Ho Hd. rewrite start_file_writes. cbn [disk set_outf set_disk].
    unfold all_writes, all_files. rewrite Hd, Eo. reflexivity. }
  destruct (negb (my =? -1) || stat_per_splitfile cfg), (my =? -1),
    ((my =? 2) && negb (is_open p)); cbn [fst];
    first [apply Hclosed | apply Hstarted]; reflexivity.
Qed.

Lemma consumer_open_writes cfg s : all_writes (consumer_open cfg s) = all_writes s.
Proof.
  unfold consumer_open. destruct (outf s) as [f|] eqn:Eo; [reflexivity|].
  rewrite start_file_writes. unfold all_writes, all_files. rewrite Eo, app_nil_r.
  destruct (_ >? _); reflexivity.
Qed.

Lemma consumer_write_writes cfg t s s' pc :
  consumer_write cfg t s = Some (s', pc) ->
  all_writes s' = all_writes s ++ [consumer_chunk cfg t].
Proof.
  intros H. destruct (consumer_write_inv _ _ _ _ _ H) as (f & Hf & Hf' & _ & _ & Hd & _).
  unfold all_writes, all_files. rewrite Hd, Hf, Hf', !concat_app. cbn.
  rewrite !app_nil_r, app_assoc. reflexivity.
Qed.

Lemma step_bytes cfg ev σ σ' :
  config_ok cfg -> sys_inv σ -> step cfg ev σ = Some σ' ->
  unwritten σ' + sum_writes (all_writes (g σ'))
  = unwritten σ + sum_writes (all_writes (g σ)) + stored_bytes_step ev σ.
Proof.
  intros Hok (Hwf & Hinv & Hp & Hc) Hstep.
  destruct ev; step_cases Hstep; unfold unwritten, stored_bytes_step;
    cbn [g ppc cpc in_flight];
    try match goal with H : ppc σ = _ |- _ => rewrite H in * end;
    try match goal with H : cpc σ = _ |- _ => rewrite H in * end;
    cbn [in_flight ppc_inv cpc_inv] in *;
    rewrite ?signal_handler_rb, ?producer_recv_rb, ?consumer_file_rb,
            ?consumer_file_writes, ?consumer_open_writes;
    try (rewrite (all_writes_same (g σ) (signal_handler cfg _ (g σ)))
           by auto using signal_handler_outf, signal_handler_disk);
    try (rewrite (all_writes_same (g σ) (fst (producer_recv cfg _ _ _ (g σ))))
           by auto using producer_recv_outf, producer_recv_disk);
    try lia.
  - (* reserve *)
    unfold producer_reserve; cbn [fst]. rewrite (all_writes_same (g σ)) by reflexivity.
    cbn [ringbuffer upd_stat set_stat]. lia.
  - (* store *)
    destruct (producer_store_frame i thissize newpoi (g σ)) as (Ho & _ & Hd & Hrb).
    cbv zeta in Ho, Hd, Hrb. rewrite (all_writes_same _ _ Ho Hd), Hrb.
    destruct Hp as (Hn & Hfit). destruct newpoi as [p|]; cbn [is_open]; [|lia].
    rewrite vrb_advance_new_eq by (auto; lia). cbn [fillsize]. lia.
  - (* tally *)
    unfold producer_tally; cbn [fst]. rewrite (all_writes_same (g σ)) by reflexivity.
    cbn [ringbuffer upd_stat set_stat]. lia.
  - (* consumer wakes *)
    match goal with H : consumer_wake _ = Some _ |- _ =>
      unfold consumer_wake in H; destruct (_ && _) in H; [discriminate H|];
      injection H as <- end. cbn [in_flight]. lia.
  - (* file *)
    destruct (consumer_file_pc cfg oldpoi old_stopped (g σ)) as [-> | ->];
      cbn [in_flight]; lia.
  - (* stop level cleared *)
    destruct (consumer_clear_frame oldpoi old_stopped (g σ)) as (Hrb & Ho & _ & Hd).
    cbv zeta in Hrb, Ho, Hd. rewrite (all_writes_same _ _ Ho Hd), Hrb.
    unfold consumer_clear; cbn [snd]. destruct (is_open oldpoi); cbn [in_flight]; lia.
  - (* file opened *)
    destruct (consumer_open_frame cfg (g σ)) as (-> & _). lia.
  - (* write *)
    match goal with H : consumer_write _ _ _ = Some ?r |- _ =>
      destruct r as [s1 pc1];
      pose proof (consumer_write_writes _ _ _ _ _ H) as Hw;
      destruct (consumer_write_inv _ _ _ _ _ H) as (f & _ & _ & -> & Hrb & _) end.
    cbn [fst snd in_flight]. rewrite Hw, Hrb, sum_writes_app.
    unfold sum_writes at 2. cbn [foldr]. lia.
  - (* release *)
    unfold consumer_release; cbn [fst snd ringbuffer pthread_cond_signal_space
      set_space_available set_ringbuffer in_flight].
    rewrite vrb_advance_old_eq by assumption. cbn [fillsize].
    rewrite (all_writes_same (g σ)) by reflexivity. lia.
Qed.

Lemma run_bytes cfg evs : forall σ σ',
  config_ok cfg -> sys_inv σ -> run cfg evs σ = Some σ' ->
  unwritten σ' + sum_writes (all_writes (g σ'))
  = unwritten σ + sum_writes (all_writes (g σ)) + stored_bytes cfg evs σ.
Proof.
  induction evs as [|ev evs IH]; intros σ σ' Hok Hinv; cbn [run stored_bytes].
  - intros [= <-]. lia.
  - destruct (step cfg ev σ) as [σ1|] eqn:Hs; [|discriminate]. intros Hrun.
    rewrite (IH σ1 σ' Hok (step_sys_inv cfg ev σ σ1 Hok Hinv Hs) Hrun).
    rewrite (step_bytes cfg ev σ σ1 Hok Hinv Hs). lia.
Qed.

(** X9. Every byte the producer has put into the ring buffer is either still in
    the buffer or in exactly one write to a file: at every point of a run the
    bytes stored so far are the fill level plus the sum of all writes, less
    the block that is written but not yet released. *)
Theorem stored_bytes_accounted cfg evs σ :
  config_ok cfg -> run cfg evs (main_sys cfg) = Some σ ->
  stored_bytes cfg evs (main_sys cfg)
  = fillsize (ringbuffer (g σ)) + sum_writes (all_writes (g σ)) - in_flight (cpc σ).
Proof.
  intros Hok Hrun.
  pose proof (run_bytes cfg evs _ _ Hok (main_sys_inv cfg Hok) Hrun) as H.
  assert (Hu : unwritten (main_sys cfg) = 0).
  { unfold unwritten, main_sys; cbn [g cpc in_flight]. rewrite main_state_rb. reflexivity. }
  assert (Hw : sum_writes (all_writes (g (main_sys cfg))) = 0).
  { unfold all_writes, all_files, main_sys; cbn [g].
    destruct (main_state_files cfg) as (-> & [-> | ->] & _); reflexivity. }
  rewrite Hu, Hw in H. unfold unwritten in H. lia.
Qed.

Lemma stored_bytes_accounted_witness :
  let p := sample_packet 1 15 in
  let evs := [EvRecv 0 8 p; EvReserve; EvStore; EvTally;
              EvRecv 1 8 p; EvReserve; EvStore; EvTally;
              EvCWake; EvCSnapStop; EvCFile; EvCClear; EvCSize; EvCOpen;
              EvRecv 0 8 p; EvReserve; EvStore; EvCWrite] in
  match run cfg_udp evs (main_sys cfg_udp) with
  | Some σ =>
      fillsize (ringbuffer (g σ)) = 24 /\ all_writes (g σ) = [16] /\
      cpc σ = CRelease 16 /\
      stored_bytes cfg_udp evs (main_sys cfg_udp)
      = fillsize (ringbuffer (g σ)) + sum_writes (all_writes (g σ)) - in_flight (cpc σ)
  | None => False
  end.
Proof.
  cbv zeta.
  destruct (run cfg_udp _ (main_sys cfg_udp)) as [σ|] eqn:Hrun;
    [|vm_compute in Hrun; discriminate Hrun].
  split; [vm_compute in Hrun; injection Hrun as <-; reflexivity|].
  split; [vm_compute in Hrun; injection Hrun as <-; reflexivity|].
  split; [vm_compute in Hrun; injection Hrun as <-; reflexivity|].
  exact (stored_bytes_accounted cfg_udp _ σ cfg_udp_ok Hrun).
Defined.

(** ** The open file: its byte count, its number and its size *)

Lemma run_invariant_upto cfg (P : nat -> sys -> Prop) (N : nat) :
  (forall k ev σ σ', (S k <= N)%nat -> P k σ -> step cfg ev σ = Some σ' -> P (S k) σ') ->
  forall evs k σ σ', (k + length evs <= N)%nat -> P k σ -> run cfg evs σ = Some σ' ->
    P (k + length evs)%nat σ'.
Proof.
  intros Hstep. induction evs as [|ev evs IH]; intros k σ σ' Hk HP; cbn [run length] in *.
  - intros [= <-]. rewrite Nat.add_0_r. exact HP.
  - destruct (step cfg ev σ) as [σ1|] eqn:Hs; [|discriminate]. intros Hrun.
    replace (k + S (length evs))%nat with (S k + length evs)%nat in * by lia.
    apply (IH (S k) σ1 σ' Hk); [|exact Hrun].
    apply (Hstep k ev σ σ1); [lia | exact HP | exact Hs].
Qed.

Lemma abs_is_one j : abs_is j 1 = true <-> j = 1 \/ j = -1.
Proof.
  unfold abs_is, abs. destruct (Z.eqb_spec j INT_MIN) as [E|E].
  - split; [discriminate|]. rewrite E. unfold INT_MIN.
    change (2 ^ 31) with 2147483648. lia.
  - rewrite Z.eqb_eq. lia.
Qed.

Lemma start_file_filenumber cfg s :
  filenumber (start_file cfg s)
  = if devnull cfg then filenumber s
    else if 0 <=? filenumber s then int_add (filenumber s) 1 else filenumber s.
Proof. unfold start_file. destruct (devnull cfg), (0 <=? filenumber s); reflexivity. Qed.

(** [consumer_file] leaves the file as it is, or closes it, or closes it and
    starts the next split file. *)
Lemma consumer_file_cases cfg p o s :
  let my := consumer_my_stopped cfg o s in
  let s' := fst (consumer_file cfg p o s) in
  (outf s' = outf s /\ disk s' = disk s /\
   bytes_written_thisfile s' = bytes_written_thisfile s /\
   filenumber s' = filenumber s /\
   (outf s = None \/ (my <> 1 /\ my <> -1))) \/
  (exists f, outf s = Some f /\ disk s' = disk s ++ [f] /\
     ((my <> -1 /\ outf s' = None /\ filenumber s' = filenumber s) \/
      (my = -1 /\ outf s' = Some [] /\ bytes_written_thisfile s' = 0 /\
       filenumber s' = (if devnull cfg then filenumber s
                        else if 0 <=? filenumber s then int_add (filenumber s) 1
                        else filenumber s)))).
Proof.
  cbv zeta. unfold consumer_file. cbv zeta. set (my := consumer_my_stopped cfg o s).
  destruct (outf s) as [f|] eqn:Eo.
  2: { left. destruct (_ && _); cbn [fst]; rewrite Eo; auto 6. }
  set (sa := if negb (my =? -1) || stat_per_splitfile cfg
             then upd_stat (init_thisfilestat cfg) s else s).
  assert (Hsa : disk sa = disk s /\ filenumber sa = filenumber s)
    by (subst sa; destruct (_ || _); auto).
  destruct Hsa as (Hd & Hn).
  set (sb := set_outf None (set_disk (disk sa ++ [f]) sa)).
  destruct ((my =? 2) && negb (is_open p) || abs_is my 1) eqn:Eclose.
  - right. exists f. split; [reflexivity|].
    destruct (Z.eqb_spec my (-1)) as [E|E].
    + assert (Hend : (my =? 2) && negb (is_open p) = false) by (rewrite E; reflexivity).
      rewrite Hend. cbn [fst].
      destruct (start_file_frame cfg sb) as (_ & -> & -> & ->).
      rewrite (start_file_filenumber cfg sb).
      subst sb; cbn [disk filenumber set_outf set_disk]. rewrite Hd, Hn.
      split; [reflexivity|]. right. auto.
    + destruct ((my =? 2) && negb (is_open p)); cbn [fst]; subst sb;
        cbn [disk outf filenumber set_outf set_disk]; rewrite Hd, Hn;
        (split; [reflexivity|]); left; auto.
  - left. apply orb_false_elim in Eclose. destruct Eclose as (Hend & Habs).
    rewrite Hend. cbn [fst]. rewrite Eo. repeat split; try reflexivity.
    right. split; intros E; rewrite E in Habs; discriminate Habs.
Qed.

Lemma consumer_open_cases cfg s :
  (is_open (outf s) = true /\ consumer_open cfg s = s) \/
  (outf s = None /\ outf (consumer_open cfg s) = Some [] /\
   bytes_written_thisfile (consumer_open cfg s) = 0 /\
   disk (consumer_open cfg s) = disk s /\
   filenumber (consumer_open cfg s)
   = if devnull cfg then (if filenumber s >? 0 then 0 else filenumber s)
     else if 0 <=? filenumber s then 1 else filenumber s).
Proof.
  unfold consumer_open. destruct (outf s) eqn:Eo; [left; auto|]. right.
  split; [reflexivity|].
  match goal with |- context [start_file cfg ?x] =>
    destruct (start_file_frame cfg x) as (_ & -> & -> & ->);
    rewrite (start_file_filenumber cfg x) end.
  repeat split; try reflexivity.
  - destruct (_ >? _); reflexivity.
  - destruct (Z.gtb_spec (filenumber s) 0); cbn [filenumber set_filenumber].
    + replace (0 <=? filenumber s) with true by (symmetry; apply Z.leb_le; lia).
      reflexivity.
    + destruct (Z.leb_spec 0 (filenumber s)); [|reflexivity].
      replace (filenumber s) with 0 by lia. reflexivity.
Qed.

(** *** SIGHUP: the open file is ended *)

Lemma step_stopped_others cfg ev σ σ' :
  consumer_event ev = false -> step cfg ev σ = Some σ' ->
  stopped (g σ') = stopped (g σ) \/
  (stopped (g σ) = 0 /\ stopped (g σ') = 1) \/
  stopped (g σ') = 2.
Proof.
  intros Hev Hstep.
  destruct ev; try discriminate Hev; step_cases Hstep; auto;
    try (match goal with |- context [signal_handler cfg ?n _] =>
           destruct (signal_handler_stopped cfg n (g σ)) as [H' | [H' | H']] end;
         auto; fail).
  - destruct (producer_steps_stopped cfg 0 size None buff2 (g σ)) as (-> & _). auto.
  - destruct (producer_steps_stopped cfg i size None buff2 (g σ)) as (-> & _). auto.
  - destruct (producer_steps_stopped cfg i thissize newpoi [] (g σ)) as (_ & _ & -> & _). auto.
Qed.

Lemma step_disk_grows cfg ev σ σ' :
  step cfg ev σ = Some σ' -> exists l, disk (g σ') = disk (g σ) ++ l.
Proof.
  intros Hstep. destruct (consumer_event ev) eqn:Hev.
  2: { exists []. rewrite app_nil_r. eapply step_disk_consumer_only; eauto. }
  destruct ev; try discriminate Hev; step_cases Hstep;
    try (exists []; rewrite app_nil_r; reflexivity).
  - (* file *)
    destruct (consumer_file_cases cfg oldpoi old_stopped (g σ))
      as [(_ & -> & _) | (f & _ & -> & _)]; [exists [] | exists [f]]; auto using app_nil_r.
  - (* stop level cleared *)
    destruct (consumer_clear_frame oldpoi old_stopped (g σ)) as (_ & _ & _ & ->).
    exists []. apply eq_sym, app_nil_r.
  - (* file opened *)
    destruct (consumer_open_frame cfg (g σ)) as (_ & -> & _).
    exists []. apply eq_sym, app_nil_r.
  - (* write *)
    match goal with H : consumer_write _ _ _ = Some ?r |- _ =>
      destruct r as [s1 pc1];
      destruct (consumer_write_inv _ _ _ _ _ H) as (f & _ & _ & _ & _ & Hd & _) end.
    cbn [fst]. rewrite Hd. exists []. apply eq_sym, app_nil_r.
Qed.

Lemma step_file_ended cfg f0 d0 ev σ σ' :
  file_ended f0 d0 (g σ) -> step cfg ev σ = Some σ' -> file_ended f0 d0 (g σ').
Proof.
  intros (f & rest & Hd & Hp) Hstep.
  destruct (step_disk_grows cfg ev σ σ' Hstep) as (l & Hl).
  exists f, (rest ++ l). split; [|exact Hp]. rewrite Hl, Hd, <- app_assoc. reflexivity.
Qed.

(** A stop level of 1 that the consumer has read makes it close the file. *)
Lemma consumer_file_level_one cfg p s f :
  outf s = Some f ->
  outf (fst (consumer_file cfg p 1 s)) = None /\
  disk (fst (consumer_file cfg p 1 s)) = disk s ++ [f] /\
  snd (consumer_file cfg p 1 s) = CClear p 1.
Proof.
  intros Ho. unfold consumer_file, consumer_my_stopped. rewrite Ho.
  change (1 =? 0) with false. cbn [andb].
  change (1 =? 2) with false. change (abs_is 1 1) with true.
  change (1 =? -1) with false. cbn [andb orb negb fst snd].
  cbn [outf disk set_outf set_disk upd_stat set_stat]. auto.
Qed.

(** So does a stop level of 2 read with the buffer empty. *)
Lemma consumer_file_level_two cfg s f :
  outf s = Some f ->
  disk (fst (consumer_file cfg None 2 s)) = disk s ++ [f].
Proof.
  intros Ho. unfold consumer_file, consumer_my_stopped. rewrite Ho.
  change (2 =? 0) with false. cbn [andb].
  change (2 =? 2) with true. change (2 =? -1) with false.
  cbn [is_open andb orb negb fst snd].
  cbn [outf disk set_outf set_disk upd_stat set_stat]. reflexivity.
Qed.

(** A file that [consumer_file] leaves open was not decided on level 1. *)
Lemma consumer_file_kept cfg p o s f :
  outf s = Some f -> disk (fst (consumer_file cfg p o s)) = disk s ->
  outf (fst (consumer_file cfg p o s)) = Some f /\ o <> 1 /\
  snd (consumer_file cfg p o s) <> CExited.
Proof.
  intros Ho Hd.
  destruct (consumer_file_cases cfg p o s)
    as [(Ho' & _ & _ & _ & [Hn | (H1 & Hm1)]) | (f' & _ & Hd' & _)].
  - congruence.
  - split; [congruence|]. split.
    + intros ->. apply H1. reflexivity.
    + intros E. apply (proj2 (consumer_file_exit cfg p o s)) in E. congruence.
  - rewrite Hd' in Hd. apply (f_equal length) in Hd.
    rewrite length_app in Hd. cbn [length] in Hd. lia.
Qed.

Lemma step_file_pending cfg f0 d0 ev σ σ' :
  file_pending f0 d0 σ -> step cfg ev σ = Some σ' ->
  file_pending f0 d0 σ' \/ file_ended f0 d0 (g σ').
Proof.
  intros Hpend Hstep.
  destruct (consumer_event ev) eqn:Hev.
  2: { destruct Hpend as (Hd & (f & Ho & Hpre) & Hst & Hpc). left. unfold file_pending.
       rewrite (step_disk_consumer_only cfg ev σ σ' Hev Hstep),
         (step_outf_consumer_only cfg ev σ σ' Hev Hstep),
         (step_keeps_consumer cfg ev σ σ' Hev Hstep).
       split; [exact Hd|]. split; [eauto|]. split; [|exact Hpc].
       destruct (step_stopped_others cfg ev σ σ' Hev Hstep) as [E | [E | E]]; lia. }
  destruct ev; try discriminate Hev; step_cases Hstep;
    destruct Hpend as (Hd & (f & Ho & Hpre) & Hst & Hpc); unfold file_pending; cbn [g cpc].
  - (* consumer wakes *)
    left. split; [exact Hd|]. split; [eauto|]. split; [exact Hst|].
    match goal with H : consumer_wake _ = Some _ |- _ =>
      unfold consumer_wake in H; destruct (_ && _) in H; [discriminate H|];
      injection H as <- end. discriminate.
  - (* stop level read *)
    left. split; [exact Hd|]. split; [eauto|]. split; [exact Hst | discriminate].
  - (* file *)
    destruct (consumer_file_cases cfg oldpoi old_stopped (g σ))
      as [(_ & Hd' & _) | (f' & Ho' & Hd' & _)].
    + left. destruct (consumer_file_kept cfg oldpoi old_stopped (g σ) f Ho Hd')
        as (Hk & Hne & Hex).
      split; [congruence|]. split; [eauto|].
      rewrite consumer_file_stopped. split; [exact Hst|].
      destruct (consumer_file_pc cfg oldpoi old_stopped (g σ)) as [E | E];
        rewrite E; [discriminate|]. intros p [= _ E1]. contradiction.
    + right. exists f, []. split; [|exact Hpre]. rewrite Hd', Hd. congruence.
  - (* stop level cleared *)
    left. destruct (consumer_clear_frame oldpoi old_stopped (g σ)) as (_ & -> & _ & ->).
    split; [exact Hd|]. split; [eauto|]. split.
    + destruct (consumer_clear_stopped oldpoi old_stopped (g σ)) as (H2 & _ & Hne).
      destruct Hst as [E1 | E2]; [|right; auto].
      left. cbv zeta in Hne. rewrite Hne; [exact E1|].
      intros E. match goal with H : cpc σ = CClear _ _ |- _ =>
        apply (Hpc oldpoi); rewrite H; congruence end.
    + unfold consumer_clear; cbn [snd]. destruct (is_open oldpoi); discriminate.
  - (* fill level read *)
    left. split; [exact Hd|]. split; [eauto|]. split; [exact Hst | discriminate].
  - (* file opened *)
    left. destruct (consumer_open_cases cfg (g σ)) as [(_ & ->) | (Hn & _)]; [|congruence].
    split; [exact Hd|]. split; [eauto|]. split; [exact Hst | discriminate].
  - (* write *)
    left.
    match goal with H : consumer_write _ _ _ = Some ?r |- _ =>
      destruct r as [s1 pc1];
      destruct (consumer_rest_stopped cfg thissize (g σ) s1 pc1) as (_ & _ & Hw);
      specialize (Hw H);
      destruct (consumer_write_inv _ _ _ _ _ H) as (f' & Ho' & Ho1 & -> & _ & Hd1 & _) end.
    cbn [fst snd]. split; [congruence|]. split.
    + exists (f' ++ [consumer_chunk cfg thissize]). split; [exact Ho1|].
      assert (f' = f) by congruence. subst f'. apply prefix_app_r, Hpre.
    + rewrite Hw. split; [exact Hst | discriminate].
  - (* release *)
    left. unfold consumer_release; cbn [fst snd disk outf stopped
      pthread_cond_signal_space set_space_available set_ringbuffer].
    split; [exact Hd|]. split; [eauto|]. split; [exact Hst | discriminate].
Qed.

Lemma run_file_pending cfg f0 d0 evs : forall σ σ',
  file_pending f0 d0 σ \/ file_ended f0 d0 (g σ) -> run cfg evs σ = Some σ' ->
  file_pending f0 d0 σ' \/ file_ended f0 d0 (g σ').
Proof.
  intros σ σ'.
  apply (run_invariant cfg (fun σ => file_pending f0 d0 σ \/ file_ended f0 d0 (g σ))).
  clear σ σ'. intros ev σ σ' [Hp | He] Hstep.
  - eapply step_file_pending; eauto.
  - right. eapply step_file_ended; eauto.
Qed.

(** With a stop level of 1 read, the consumer is past its file decision
    only with no file open. *)
Lemma step_clear_inv cfg ev σ σ' :
  (forall p, cpc σ = CClear p 1 -> outf (g σ) = None) ->
  step cfg ev σ = Some σ' ->
  forall p, cpc σ' = CClear p 1 -> outf (g σ') = None.
Proof.
  intros Hinv Hstep.
  destruct (consumer_event ev) eqn:Hev.
  2: { rewrite (step_keeps_consumer cfg ev σ σ' Hev Hstep),
         (step_outf_consumer_only cfg ev σ σ' Hev Hstep). exact Hinv. }
  destruct ev; try discriminate Hev; step_cases Hstep; try discriminate.
  - (* consumer wakes *)
    match goal with H : consumer_wake _ = Some _ |- _ =>
      unfold consumer_wake in H; destruct (_ && _) in H; [discriminate H|];
      injection H as <- end. discriminate.
  - (* file *)
    intros p E.
    destruct (consumer_file_pc cfg oldpoi old_stopped (g σ)) as [E' | E'];
      rewrite E' in E; [discriminate|]. injection E as _ ->.
    destruct (outf (g σ)) as [f|] eqn:Ho.
    + apply (consumer_file_level_one cfg oldpoi (g σ) f Ho).
    + destruct (consumer_file_cases cfg oldpoi 1 (g σ))
        as [(-> & _) | (f' & Ho' & _)]; congruence.
  - (* stop level cleared *)
    unfold consumer_clear; cbn [snd]. destruct (is_open oldpoi); discriminate.
  - (* write *)
    match goal with H : consumer_write _ _ _ = Some ?r |- _ =>
      destruct r as [s1 pc1];
      destruct (consumer_write_inv _ _ _ _ _ H) as (f & _ & _ & -> & _) end.
    discriminate.
Qed.



(** *** What the consumer has read of the stop level *)

Lemma step_snap_inv cfg ev σ σ' :
  snap_inv σ -> step cfg ev σ = Some σ' -> snap_inv σ'.
Proof.
  intros (Hst & Hsn) Hstep. split.
  - unfold stop_levels in *.
    destruct (step_stopped cfg ev σ σ' Hstep) as [E | [E | [E | E]]]; lia.
  - destruct (consumer_event ev) eqn:Hev.
    2: { rewrite (step_keeps_consumer cfg ev σ σ' Hev Hstep). exact Hsn. }
    destruct ev; try discriminate Hev; step_cases Hstep;
      try match goal with H : cpc σ = _ |- _ => rewrite H in Hsn end;
      try exact I; try exact Hsn; try exact Hst.
    + (* consumer wakes *)
      match goal with H : consumer_wake _ = Some _ |- _ =>
        unfold consumer_wake in H; destruct (_ && _) in H; [discriminate H|];
        injection H as <- end. exact I.
    + (* file *)
      destruct (consumer_file_pc cfg oldpoi old_stopped (g σ)) as [-> | ->];
        [exact I | exact Hsn].
    + (* stop level cleared *)
      unfold consumer_clear; cbn [snd]. destruct (is_open oldpoi); exact I.
    + (* write *)
      match goal with H : consumer_write _ _ _ = Some ?r |- _ =>
        destruct r as [s1 pc1];
        destruct (consumer_write_inv _ _ _ _ _ H) as (f & _ & _ & -> & _) end.
      exact I.
Qed.

Lemma main_snap_inv cfg : snap_inv (main_sys cfg).
Proof. split; [left; apply main_stopped | exact I]. Qed.

(** *** The byte count of the open file *)

Lemma counted_same cfg k s s' :
  0 <= maxwrite cfg ->
  outf s' = outf s -> bytes_written_thisfile s' = bytes_written_thisfile s ->
  counted cfg k s -> counted cfg (S k) s'.
Proof.
  intros Hm Ho Hb Hc f Hf. rewrite Ho in Hf. rewrite Hb.
  destruct (Hc f Hf) as (-> & Hr). split; [reflexivity | nia].
Qed.

Lemma counted_new cfg k s :
  0 <= maxwrite cfg ->
  outf s = Some [] -> bytes_written_thisfile s = 0 -> counted cfg k s.
Proof.
  intros Hm Ho Hb f Hf. rewrite Ho in Hf. injection Hf as <-. rewrite Hb.
  cbn. split; [reflexivity | nia].
Qed.

Lemma step_counted cfg k ev σ σ' :
  config_ok cfg -> Z.of_nat (S k) * maxwrite cfg <= LONG_MAX ->
  sys_inv σ -> counted cfg k (g σ) -> step cfg ev σ = Some σ' ->
  counted cfg (S k) (g σ').
Proof.
  intros Hok Hk (Hwf & Hinv & Hp & Hc) Hcnt Hstep.
  pose proof Hok as (_ & (Hm0 & Hm1) & _).
  assert (Hm : 0 <= maxwrite cfg) by lia.
  destruct ev; step_cases Hstep;
    try (apply (counted_same cfg k (g σ)); auto;
         rewrite ?signal_handler_outf, ?signal_handler_bwt,
                 ?producer_recv_outf, ?producer_recv_bwt; reflexivity).
  - (* store *)
    destruct (producer_store_frame i thissize newpoi (g σ)) as (Ho & Hb & _).
    apply (counted_same cfg k (g σ)); auto.
  - (* file *)
    destruct (consumer_file_cases cfg oldpoi old_stopped (g σ))
      as [(Ho & _ & Hb & _) | (f & _ & _ & [(_ & Ho & _) | (_ & Ho & Hb & _)])];
      cbv zeta in *.
    + apply (counted_same cfg k (g σ)); auto.
    + intros f' Hf'. rewrite Ho in Hf'. discriminate Hf'.
    + apply counted_new; auto.
  - (* stop level cleared *)
    destruct (consumer_clear_frame oldpoi old_stopped (g σ)) as (_ & Ho & Hb & _).
    apply (counted_same cfg k (g σ)); auto.
  - (* file opened *)
    destruct (consumer_open_cases cfg (g σ)) as [(_ & ->) | (_ & Ho & Hb & _)].
    + apply (counted_same cfg k (g σ)); auto.
    + apply counted_new; auto.
  - (* write *)
    match goal with H : consumer_write _ _ _ = Some ?r |- _ =>
      destruct r as [s1 pc1];
      destruct (consumer_write_inv _ _ _ _ _ H) as (f & Hf & Hf' & _ & _ & _ & Hb) end.
    cbn [fst]. intros f' Ef'. rewrite Hf' in Ef'. injection Ef' as <-.
    destruct (Hcnt f Hf) as (Hbf & Hr). rewrite Hb, Hbf, sum_writes_app.
    assert (Hone : sum_writes [consumer_chunk cfg thissize] = consumer_chunk cfg thissize)
      by (cbn; lia).
    rewrite Hone.
    try match goal with H : cpc σ = _ |- _ => rewrite H in Hc end.
    cbn [cpc_inv] in Hc.
    destruct Hwf as (Ht & H2 & _), Hinv as ((_ & Hf1) & _). rewrite long_max_val in *.
    destruct (consumer_chunk_spec cfg thissize Hok ltac:(rewrite long_max_val; lia))
      as (_ & Hch).
    rewrite Nat2Z.inj_succ in *.
    rewrite long_add_id by (apply in_long_bounds; nia).
    split; [reflexivity | nia].
Qed.

Lemma main_counted cfg : 0 <= maxwrite cfg -> counted cfg 0 (main_state cfg).
Proof.
  intros Hm f Hf. destruct (main_state_files cfg) as (_ & [Ho | Ho] & ->);
    rewrite Ho in Hf; [discriminate Hf|]. injection Hf as <-. cbn. lia.
Qed.

(** *** The size of the files *)

Lemma file_within_weaken cfg a b f :
  a <= b -> file_within cfg a f -> file_within cfg b f.
Proof.
  unfold file_within. intros Hab H. eapply Qle_trans; [exact H|].
  apply Qplus_le_r. rewrite <- Zle_Qle. exact Hab.
Qed.

Lemma file_within_nil cfg a :
  (0 < maxfilesize cfg)%Q -> 0 <= a -> file_within cfg a [].
Proof.
  unfold file_within. intros Hm Ha. cbn.
  apply Qle_trans with (maxfilesize cfg + 0)%Q.
  - rewrite Qplus_0_r. apply Qlt_le_weak. exact Hm.
  - apply Qplus_le_r. change 0%Q with (inject_Z 0). rewrite <- Zle_Qle. exact Ha.
Qed.

Lemma file_within_app cfg f c m :
  file_within cfg 0 f -> c <= m -> file_within cfg m (f ++ [c]).
Proof.
  unfold file_within. intros Hf Hc. rewrite sum_writes_app.
  unfold sum_writes at 2. cbn [foldr]. rewrite Z.add_0_r, inject_Z_plus.
  apply Qplus_le_compat.
  - eapply Qle_trans; [exact Hf|]. change (inject_Z 0) with 0%Q.
    rewrite Qplus_0_r. apply Qle_refl.
  - rewrite <- Zle_Qle. exact Hc.
Qed.

Lemma split_not_wanted cfg s f :
  (0 < maxfilesize cfg)%Q ->
  split_wanted (maxfilesize cfg) (bytes_written_thisfile s) = false ->
  bytes_written_thisfile s = sum_writes f ->
  file_within cfg 0 f.
Proof.
  unfold split_wanted, Qlt_bool, file_within. intros Hm Hs <-.
  assert (H0 : Qle_bool (maxfilesize cfg) 0 = false).
  { destruct (Qle_bool (maxfilesize cfg) 0) eqn:E0; [|reflexivity].
    apply Qle_bool_iff in E0. exfalso. apply (Qlt_not_le _ _ Hm E0). }
  rewrite H0 in Hs. cbn [negb andb] in Hs.
  apply negb_false_iff in Hs. apply Qle_bool_iff in Hs.
  change (inject_Z 0) with 0%Q. rewrite Qplus_0_r. exact Hs.
Qed.

Lemma sized_same cfg σ σ' :
  0 <= maxwrite cfg ->
  outf (g σ') = outf (g σ) -> disk (g σ') = disk (g σ) ->
  open_slack cfg (cpc σ) <= open_slack cfg (cpc σ') ->
  sized cfg σ -> sized cfg σ'.
Proof.
  intros Hm Ho Hd Hs (Hdisk & Hopen). split; [rewrite Hd; exact Hdisk|].
  intros f Hf. rewrite Ho in Hf. eapply file_within_weaken; [exact Hs | auto].
Qed.

Lemma step_sized cfg k ev σ σ' :
  config_ok cfg -> (0 < maxfilesize cfg)%Q ->
  sys_inv σ -> exit_inv σ -> snap_inv σ -> counted cfg k (g σ) -> sized cfg σ ->
  stopped (g σ') <> 2 ->
  step cfg ev σ = Some σ' -> sized cfg σ'.
Proof.
  intros Hok Hmfs (Hwf & Hinv & Hp & Hc) Hex (Hst & Hsn) Hcnt Hsz H2 Hstep.
  pose proof Hok as (_ & (Hm0 & Hm1) & _).
  assert (Hm : 0 <= maxwrite cfg) by lia.
  destruct (consumer_event ev) eqn:Hev.
  2: { apply (sized_same cfg σ); auto.
       - apply (step_outf_consumer_only cfg ev σ σ' Hev Hstep).
       - destruct ev; try discriminate Hev; step_cases Hstep;
           rewrite ?signal_handler_disk, ?producer_recv_disk; try reflexivity.
         apply (producer_store_frame i thissize newpoi (g σ)).
       - rewrite (step_keeps_consumer cfg ev σ σ' Hev Hstep). lia. }
  destruct ev; try discriminate Hev; step_cases Hstep.
  - (* consumer wakes *)
    apply (sized_same cfg σ); auto.
    match goal with H : consumer_wake _ = Some _ |- _ =>
      unfold consumer_wake in H; destruct (_ && _) in H; [discriminate H|];
      injection H as <- end.
    match goal with H : cpc σ = _ |- _ => rewrite H end. cbn [cpc open_slack]. lia.
  - (* stop level read *)
    apply (sized_same cfg σ); auto.
    match goal with H : cpc σ = _ |- _ => rewrite H end. cbn [cpc open_slack]. lia.
  - (* file *)
    rewrite consumer_file_stopped in H2.
    unfold exit_inv in Hex; unfold sized in Hsz.
    repeat match goal with E : cpc σ = _ |- _ => rewrite E in Hex end.
    repeat match goal with E : cpc σ = _ |- _ => rewrite E in Hsz end.
    cbn [snap_ok open_slack] in Hsn, Hsz. destruct Hsz as (Hdisk & Hopen).
    assert (Ho : old_stopped = 0 \/ old_stopped = 1)
      by (unfold stop_levels in Hsn; destruct Hsn as [E | [E | E]]; auto; tauto).
    assert (Hpc : snd (consumer_file cfg oldpoi old_stopped (g σ))
                  = CClear oldpoi old_stopped).
    { destruct (consumer_file_pc cfg oldpoi old_stopped (g σ)) as [E | E]; [|exact E].
      apply (proj1 (proj1 (consumer_file_exit cfg oldpoi old_stopped (g σ)))) in E.
      destruct E as (_ & E). lia. }
    unfold sized; cbn [g cpc]. rewrite Hpc. cbn [open_slack].
    destruct (consumer_file_cases cfg oldpoi old_stopped (g σ))
      as [(Eo & Ed & Eb & _ & Hnot) | (f & Ef & Ed & [(_ & Eo & _) | (_ & Eo & _)])];
      cbv zeta in *; rewrite Ed, Eo.
    + split; [exact Hdisk|]. intros f Hf.
      destruct Hnot as [Hn | (Hn1 & Hn2)]; [rewrite Hn in Hf; discriminate Hf|].
      unfold consumer_my_stopped in Hn1, Hn2.
      destruct Ho as [-> | ->]; [|cbn in Hn1; lia].
      cbn [Z.eqb andb] in Hn2.
      destruct (split_wanted _ _) eqn:Esw; [lia|].
      apply (split_not_wanted cfg (g σ)); auto. apply (Hcnt f Hf).
    + split; [|discriminate].
      apply Forall_app. split; [exact Hdisk|]. apply Forall_singleton. auto.
    + split.
      * apply Forall_app. split; [exact Hdisk|]. apply Forall_singleton. auto.
      * intros f' [= <-]. apply file_within_nil; auto. lia.
  - (* stop level cleared *)
    destruct (consumer_clear_frame oldpoi old_stopped (g σ)) as (_ & Eo & _ & Ed).
    cbv zeta in Eo, Ed.
    apply (sized_same cfg σ); auto. cbn [cpc].
    match goal with H : cpc σ = _ |- _ => rewrite H end.
    unfold consumer_clear; cbn [snd open_slack].
    destruct (is_open oldpoi); cbn [open_slack]; lia.
  - (* fill level read *)
    apply (sized_same cfg σ); auto.
    match goal with H : cpc σ = _ |- _ => rewrite H end. cbn [cpc open_slack]. lia.
  - (* file opened *)
    unfold sized in Hsz.
    repeat match goal with E : cpc σ = _ |- _ => rewrite E in Hsz end.
    cbn [open_slack] in Hsz. destruct Hsz as (Hdisk & Hopen).
    unfold sized; cbn [g cpc open_slack].
    destruct (consumer_open_cases cfg (g σ)) as [(_ & ->) | (_ & Eo & _ & Ed & _)].
    + split; assumption.
    + rewrite Ed, Eo. split; [exact Hdisk|].
      intros f' [= <-]. apply file_within_nil; auto. lia.
  - (* write *)
    match goal with H : consumer_write _ _ _ = Some ?r |- _ =>
      destruct r as [s1 pc1];
      destruct (consumer_write_inv _ _ _ _ _ H) as (f & Hf & Hf' & -> & _ & Ed & _) end.
    unfold sized in Hsz.
    repeat match goal with E : cpc σ = _ |- _ => rewrite E in Hsz end.
    cbn [open_slack cpc_inv] in Hsz, Hc. destruct Hsz as (Hdisk & Hopen).
    unfold sized; cbn [g cpc fst snd open_slack]. rewrite Ed, Hf'.
    split; [exact Hdisk|]. intros f' [= <-].
    destruct Hwf as (Ht & Hw2 & _), Hinv as ((_ & Hf1) & _). rewrite long_max_val in *.
    destruct (consumer_chunk_spec cfg thissize Hok ltac:(rewrite long_max_val; lia))
      as (_ & Hch).
    apply file_within_app; [auto | lia].
  - (* release *)
    apply (sized_same cfg σ); auto.
    match goal with H : cpc σ = _ |- _ => rewrite H end.
    unfold consumer_release; cbn [cpc snd open_slack]. lia.
Qed.

Lemma main_sized cfg : (0 < maxfilesize cfg)%Q -> 0 <= maxwrite cfg -> sized cfg (main_sys cfg).
Proof.
  intros Hm Hw. unfold sized, main_sys; cbn [g cpc open_slack].
  destruct (main_state_files cfg) as (-> & [Ho | Ho] & _); rewrite Ho;
    (split; [constructor|]); [discriminate|].
  intros f [= <-]. apply file_within_nil; auto.
Qed.

Lemma step_file_inv cfg k ev σ σ' :
  config_ok cfg -> Z.of_nat (S k) * maxwrite cfg <= LONG_MAX ->
  file_inv cfg k σ -> step cfg ev σ = Some σ' -> file_inv cfg (S k) σ'.
Proof.
  intros Hok Hk (Hinv & Hex & Hsn & Hcnt & Hsz) Hstep.
  split; [eapply step_sys_inv; eauto|].
  split; [eapply step_exit_inv; eauto|].
  split; [eapply step_snap_inv; eauto|].
  split; [eapply step_counted; eauto|].
  intros Hmfs H2.
  eapply step_sized; eauto. apply Hsz; [exact Hmfs|]. intros E.
  apply H2. eapply step_two_stays; eauto.
Qed.

Lemma main_file_inv cfg : config_ok cfg -> file_inv cfg 0 (main_sys cfg).
Proof.
  intros Hok. pose proof Hok as (_ & (Hm0 & _) & _).
  split; [apply main_sys_inv, Hok|].
  split; [exact I|].
  split; [apply main_snap_inv|].
  split; [apply main_counted; lia|].
  intros Hmfs _. apply main_sized; [exact Hmfs | lia].
Qed.

Lemma reachable_file_inv cfg evs σ :
  config_ok cfg -> Z.of_nat (length evs) * maxwrite cfg <= LONG_MAX ->
  run cfg evs (main_sys cfg) = Some σ -> file_inv cfg (length evs) σ.
Proof.
  intros Hok Hlen Hrun. pose proof Hok as (_ & (Hm0 & _) & _).
  apply (run_invariant_upto cfg (file_inv cfg) (length evs)) with (k := 0%nat) (σ := main_sys cfg);
    [| lia | apply main_file_inv, Hok | exact Hrun].
  intros k ev σ1 σ2 Hk. apply step_file_inv; [exact Hok | nia].
Qed.

(** X10. While a file is open, [bytes_written_thisfile] is its size: the sum of
    the writes made to it since [start_file] opened it.  (The count is a
    [long]; the run is short enough for it not to wrap.) *)
Theorem open_file_byte_count cfg evs σ f :
  config_ok cfg -> Z.of_nat (length evs) * maxwrite cfg <= LONG_MAX ->
  run cfg evs (main_sys cfg) = Some σ ->
  outf (g σ) = Some f ->
  bytes_written_thisfile (g σ) = sum_writes f.
Proof.
  intros Hok Hlen Hrun Hf.
  destruct (reachable_file_inv cfg evs σ Hok Hlen Hrun) as (_ & _ & _ & Hcnt & _).
  apply (Hcnt f Hf).
Qed.

(** X11. With [--Maxfilesize], and as long as the stop level has not reached 2,
    no file - closed or still open - is longer than [maxfilesize] by more
    than one write of at most [maxwrite] bytes: the consumer checks the size
    before every write and starts the next split file when it is exceeded. *)
Theorem split_files_bounded cfg evs σ :
  config_ok cfg -> (0 < maxfilesize cfg)%Q ->
  Z.of_nat (length evs) * maxwrite cfg <= LONG_MAX ->
  run cfg evs (main_sys cfg) = Some σ ->
  stopped (g σ) <> 2 ->
  Forall (fun f => (inject_Z (sum_writes f)
                    <= maxfilesize cfg + inject_Z (maxwrite cfg))%Q)
         (all_files (g σ)).
Proof.
  intros Hok Hmfs Hlen Hrun H2. pose proof Hok as (_ & (Hm0 & _) & _).
  destruct (reachable_file_inv cfg evs σ Hok Hlen Hrun) as (_ & _ & _ & _ & Hsz).
  destruct (Hsz Hmfs H2) as (Hdisk & Hopen).
  apply all_files_split. split; [exact Hdisk|].
  intros f Hf. apply (file_within_weaken cfg (open_slack cfg (cpc σ))); [|auto].
  unfold open_slack. destruct (cpc σ); lia.
Qed.

(** *** The number of the file *)

Lemma signal_handler_filenumber cfg n s :
  filenumber (signal_handler cfg n s) = filenumber s.
Proof. unfold signal_handler. repeat case_match; reflexivity. Qed.

Lemma step_filenumber cfg ev σ σ' :
  step cfg ev σ = Some σ' ->
  filenumber (g σ') = filenumber (g σ) \/
  (0 <= filenumber (g σ) /\
   (filenumber (g σ') = 0 \/ filenumber (g σ') = 1 \/
    filenumber (g σ') = int_add (filenumber (g σ)) 1)).
Proof.
  intros Hstep.
  destruct ev; step_cases Hstep; rewrite ?signal_handler_filenumber; auto.
  - (* stdin: a packet *) left. unfold producer_recv. repeat case_match; reflexivity.
  - (* recvfrom *) left. unfold producer_recv. repeat case_match; reflexivity.
  - (* store *) left. unfold producer_store. repeat case_match; reflexivity.
  - (* file *)
    destruct (consumer_file_cases cfg oldpoi old_stopped (g σ))
      as [(_ & _ & _ & E & _) | (f & _ & _ & [(_ & _ & E) | (_ & _ & _ & E)])];
      cbv zeta in E; rewrite E; auto.
    destruct (devnull cfg); auto. destruct (Z.leb_spec 0 (filenumber (g σ))); auto.
  - (* stop level cleared *) left. unfold consumer_clear. case_match; reflexivity.
  - (* file opened *)
    destruct (consumer_open_cases cfg (g σ)) as [(_ & ->) | (_ & _ & _ & _ & E)]; auto.
    rewrite E. destruct (devnull cfg).
    + destruct (Z.gtb_spec (filenumber (g σ)) 0); auto. right. split; [lia | auto].
    + destruct (Z.leb_spec 0 (filenumber (g σ))); auto.
  - (* write *)
    left. match goal with H : consumer_write _ _ _ = Some _ |- _ =>
      unfold consumer_write in H; destruct (outf (g σ)); [|discriminate H];
      injection H as <- end. reflexivity.
Qed.

Lemma step_numbered cfg k ev σ σ' :
  Z.of_nat (S (S k)) <= INT_MAX ->
  numbered cfg k (g σ) -> step cfg ev σ = Some σ' -> numbered cfg (S k) (g σ').
Proof.
  unfold numbered. intros Hk Hn Hstep. rewrite int_max_val in Hk.
  destruct (step_filenumber cfg ev σ σ' Hstep) as [-> | (H0 & H')].
  - destruct (Qlt_bool 0 (maxfilesize cfg)); lia.
  - destruct (Qlt_bool 0 (maxfilesize cfg)); [|lia].
    unfold int_add in H'. rewrite wrap32_id in H' by (apply in_int_bounds; lia). lia.
Qed.

Lemma main_numbered cfg : numbered cfg 0 (main_state cfg).
Proof.
  unfold numbered, main_state.
  destruct (start_given cfg); cbn [filenumber upd_stat set_stat];
    rewrite ?start_file_filenumber; cbn [filenumber];
    destruct (Qlt_bool 0 (maxfilesize cfg)), (devnull cfg); cbn -[int_add];
    try change (int_add 0 1) with 1; lia.
Qed.

(** X12. The file number is -1 throughout when [--Maxfilesize] is not used and
    never negative when it is; so where the consumer decides to start the
    next split file, [assert (filenumber>=0)] holds.  (The number is an
    [int]; the run is short enough for it not to wrap.) *)
Theorem split_file_numbered cfg evs σ :
  Z.of_nat (length evs) < INT_MAX ->
  run cfg evs (main_sys cfg) = Some σ ->
  (if Qlt_bool 0 (maxfilesize cfg)
   then 0 <= filenumber (g σ) else filenumber (g σ) = -1) /\
  (forall oldpoi old_stopped,
     cpc σ = CDecide oldpoi old_stopped ->
     consumer_my_stopped cfg old_stopped (g σ) = -1 ->
     0 <= filenumber (g σ)).
Proof.
  intros Hlen Hrun.
  assert (Hn : numbered cfg (length evs) (g σ)).
  { apply (run_invariant_upto cfg (fun k σ => numbered cfg k (g σ)) (length evs))
      with (k := 0%nat) (σ := main_sys cfg); [| lia | apply main_numbered | exact Hrun].
    intros k ev σ1 σ2 Hk. apply step_numbered. lia. }
  assert (Hs : snap_inv σ).
  { revert Hrun. apply run_invariant; [|apply main_snap_inv].
    intros ev σ1 σ2. apply step_snap_inv. }
  unfold numbered in Hn. split.
  - destruct (Qlt_bool 0 (maxfilesize cfg)); lia.
  - intros p o Hpc Hmy. destruct Hs as (_ & Hs). rewrite Hpc in Hs. cbn [snap_ok] in Hs.
    unfold consumer_my_stopped, split_wanted in Hmy.
    destruct (Qlt_bool 0 (maxfilesize cfg)); [lia|].
    rewrite andb_false_r in Hmy. unfold stop_levels in Hs. lia.
Qed.

Lemma cfg_split_ok : config_ok cfg_split.
Proof.
  unfold config_ok, cfg_split, MMAXLEN, MAXNSOCK, stdin_mode; cbn.
  rewrite long_max_val, int_max_val. repeat split; try lia; discriminate.
Qed.

Lemma open_file_byte_count_witness :
  let p := sample_packet 1 15 in
  let evs := [EvRecv 0 8 p; EvReserve; EvStore; EvTally;
              EvRecv 1 8 p; EvReserve; EvStore; EvTally;
              EvCWake; EvCSnapStop; EvCFile; EvCClear; EvCSize; EvCOpen;
              EvCWrite; EvCRelease; EvRecv 0 8 p; EvReserve; EvStore; EvTally;
              EvCWake; EvCSnapStop; EvCFile; EvCClear; EvCSize; EvCOpen; EvCWrite] in
  match run cfg_udp evs (main_sys cfg_udp) with
  | Some σ =>
      outf (g σ) = Some [16; 8] /\ bytes_written_thisfile (g σ) = sum_writes [16; 8]
  | None => False
  end.
Proof.
  cbv zeta.
  destruct (run cfg_udp _ (main_sys cfg_udp)) as [σ|] eqn:Hrun;
    [|vm_compute in Hrun; discriminate Hrun].
  assert (Hf : outf (g σ) = Some [16; 8])
    by (vm_compute in Hrun; injection Hrun as <-; reflexivity).
  split; [exact Hf|].
  refine (open_file_byte_count cfg_udp _ σ _ cfg_udp_ok _ Hrun Hf).
  cbn [length cfg_udp maxwrite]. rewrite long_max_val. lia.
Defined.

Lemma split_files_bounded_witness :
  let p := sample_packet 1 15 in
  let evs := [EvRecv 0 8 p; EvReserve; EvStore; EvTally;
              EvRecv 1 8 p; EvReserve; EvStore; EvTally;
              EvCWake; EvCSnapStop; EvCFile; EvCClear; EvCSize; EvCOpen;
              EvCWrite; EvCRelease; EvRecv 0 8 p; EvReserve; EvStore; EvTally;
              EvCWake; EvCSnapStop; EvCFile; EvCClear; EvCSize; EvCOpen; EvCWrite] in
  match run cfg_split evs (main_sys cfg_split) with
  | Some σ =>
      all_files (g σ) = [[16]; [8]] /\
      Forall (fun f => (inject_Z (sum_writes f)
                        <= maxfilesize cfg_split + inject_Z (maxwrite cfg_split))%Q)
             (all_files (g σ))
  | None => False
  end.
Proof.
  cbv zeta.
  destruct (run cfg_split _ (main_sys cfg_split)) as [σ|] eqn:Hrun;
    [|vm_compute in Hrun; discriminate Hrun].
  split; [vm_compute in Hrun; injection Hrun as <-; reflexivity|].
  refine (split_files_bounded cfg_split _ σ cfg_split_ok _ _ Hrun _).
  - reflexivity.
  - cbn [length cfg_split maxwrite]. rewrite long_max_val. lia.
  - vm_compute in Hrun. injection Hrun as <-. cbn. lia.
Defined.

Lemma split_file_numbered_witness :
  let p := sample_packet 1 15 in
  let evs := [EvRecv 0 8 p; EvReserve; EvStore; EvTally;
              EvRecv 1 8 p; EvReserve; EvStore; EvTally;
              EvCWake; EvCSnapStop; EvCFile; EvCClear; EvCSize; EvCOpen;
              EvCWrite; EvCRelease; EvRecv 0 8 p; EvReserve; EvStore; EvTally;
              EvCWake; EvCSnapStop] in
  match run cfg_split evs (main_sys cfg_split) with
  | Some σ =>
      cpc σ = CDecide (Some 16) 0 /\
      consumer_my_stopped cfg_split 0 (g σ) = -1 /\
      filenumber (g σ) = 1 /\
      (if Qlt_bool 0 (maxfilesize cfg_split)
       then 0 <= filenumber (g σ) else filenumber (g σ) = -1) /\
      (forall oldpoi old_stopped,
         cpc σ = CDecide oldpoi old_stopped ->
         consumer_my_stopped cfg_split old_stopped (g σ) = -1 ->
         0 <= filenumber (g σ))
  | None => False
  end.
Proof.
  cbv zeta.
  destruct (run cfg_split _ (main_sys cfg_split)) as [σ|] eqn:Hrun;
    [|vm_compute in Hrun; discriminate Hrun].
  split; [vm_compute in Hrun; injection Hrun as <-; reflexivity|].
  split; [vm_compute in Hrun; injection Hrun as <-; reflexivity|].
  split; [vm_compute in Hrun; injection Hrun as <-; reflexivity|].
  refine (split_file_numbered cfg_split _ σ _ Hrun).
  cbn [length]. rewrite int_max_val. lia.
Defined.

(** ** The order of the packet numbers *)

Lemma packno_formula_mono h1 h2 :
  0 <= is200mhz h1 <= 1 -> is200mhz h1 = is200mhz h2 ->
  timestamp h1 <= timestamp h2 -> sequence h1 <= sequence h2 ->
  packno_formula h1 <= packno_formula h2.
Proof.
  intros Hm Em Ht Hs. unfold packno_formula. rewrite <- Em.
  apply Z.quot_le_mono; [lia|].
  apply Z.add_le_mono; [|exact Hs].
  apply Z.quot_le_mono; [lia|]. nia.
Qed.

(** X13. The packet number follows the order of the packets of one clock: it does
    not decrease when neither [timestamp] nor [sequence] does, and for the
    non-negative values a station sends sixteen more in [sequence] are
    exactly one packet more. *)
Theorem beamformed_packno_order h1 h2 :
  header_wf h1 -> header_wf h2 -> is200mhz h1 = is200mhz h2 ->
  timestamp h1 <= timestamp h2 -> sequence h1 <= sequence h2 ->
  beamformed_packno h1 <= beamformed_packno h2 /\
  (0 <= timestamp h1 -> 0 <= sequence h1 ->
   timestamp h2 = timestamp h1 -> sequence h2 = sequence h1 + 16 ->
   beamformed_packno h2 = beamformed_packno h1 + 1).
Proof.
  intros Hwf1 Hwf2 Em Ht Hs.
  rewrite (beamformed_packno_no_wrap h1 Hwf1), (beamformed_packno_no_wrap h2 Hwf2).
  destruct Hwf1 as (_ & _ & Hm & _).
  split; [apply packno_formula_mono; assumption|].
  intros Ht0 Hs0 Et Es. unfold packno_formula. rewrite <- Em, Et, Es.
  set (x := Z.quot (timestamp h1 * 1000000 * (160 + 40 * is200mhz h1) + 512) 1024).
  assert (Hx : 0 <= x) by (subst x; apply Z.quot_pos; nia).
  rewrite !Z.quot_div_nonneg by lia.
  replace (x + (sequence h1 + 16)) with (x + sequence h1 + 1 * 16) by lia.
  apply Z.div_add. lia.
Qed.

Lemma beamformed_packno_order_witness :
  let h1 := mk_header 3 0 0 0 1 0 0 0 901 61 16 1543384831 15 in
  let h2 := mk_header 3 0 0 0 1 0 0 0 901 61 16 1543384831 31 in
  beamformed_packno h1 = 18840146862793 /\
  beamformed_packno h1 <= beamformed_packno h2 /\
  beamformed_packno h2 = beamformed_packno h1 + 1.
Proof.
  cbv zeta.
  assert (Hwf1 : header_wf (mk_header 3 0 0 0 1 0 0 0 901 61 16 1543384831 15)).
  { unfold header_wf; simpl. repeat split; try (apply in_int_bounds); lia. }
  assert (Hwf2 : header_wf (mk_header 3 0 0 0 1 0 0 0 901 61 16 1543384831 31)).
  { unfold header_wf; simpl. repeat split; try (apply in_int_bounds); lia. }
  split; [reflexivity|].
  destruct (beamformed_packno_order _ _ Hwf1 Hwf2 eq_refl ltac:(simpl; lia) ltac:(simpl; lia))
    as (Hle & Hnext).
  split; [exact Hle|]. apply Hnext; simpl; lia.
Defined.

(** ** The option loop of [main] *)

Lemma double_to_long_range x z :
  double_le x 10000 = false -> double_gt x 16000000000 = false ->
  double_to_long x = Some z -> 10000 <= z <= 16000000000.
Proof.
  destruct x as [[p q] | |]; cbn [double_le double_gt double_to_long]; try discriminate.
  unfold Qlt_bool, Qle_bool. cbn [Qnum Qden].
  intros Hlo Hhi. apply Z.leb_gt in Hlo. apply negb_false_iff, Z.leb_le in Hhi.
  rewrite Z.quot_div_nonneg by lia.
  destruct (_ && _); [|discriminate]. intros [= <-]. split.
  - apply Z.div_le_lower_bound; lia.
  - apply Z.div_le_upper_bound; lia.
Qed.

(** A finite value in the range checked is converted, a NaN gets through
    the check and is not. *)
Lemma double_to_long_finite q :
  double_le (Finite q) 10000 = false -> double_gt (Finite q) 16000000000 = false ->
  double_to_long (Finite q) = Some (Z.quot (Qnum q) (Zpos (Qden q))).
Proof.
  destruct q as [p q]. cbn [double_le double_gt double_to_long].
  unfold Qlt_bool, Qle_bool. cbn [Qnum Qden].
  intros Hlo Hhi. apply Z.leb_gt in Hlo. apply negb_false_iff, Z.leb_le in Hhi.
  cbv zeta. rewrite Z.quot_div_nonneg by lia.
  assert (H : 10000 <= p / Z.pos q <= 16000000000).
  { split; [apply Z.div_le_lower_bound; lia | apply Z.div_le_upper_bound; lia]. }
  unfold LONG_MIN. rewrite long_max_val.
  replace (_ && _) with true; [reflexivity|].
  symmetry. apply andb_true_intro. split; apply Z.leb_le; lia.
Qed.

Example main_option_bufsize_nan o : main_option (Opt_b (Some NaN)) o = Undefined.
Proof. reflexivity. Qed.

Lemma option_M_accepted value m per_file :
  option_M value = Accepted (m, per_file) ->
  exists n, 0 <= n <= INT_MAX /\ m = inject_Z n.
Proof.
  unfold option_M, double_to_int, abs.
  destruct (Qeq_bool value 0); [discriminate|].
  set (z := Z.quot (Qnum value) (Z.pos (Qden value))).
  destruct (Z.leb_spec INT_MIN z); [|discriminate].
  destruct (Z.leb_spec z INT_MAX); [|discriminate]. cbn [andb].
  destruct (Z.eqb_spec z INT_MIN); [discriminate|].
  intros [= <- _]. exists (Z.abs z). split; [|reflexivity].
  unfold INT_MIN, INT_MAX in *. lia.
Qed.

Lemma main_option_ok c o o' :
  options_ok o -> main_option c o = Accepted o' -> options_ok o'.
Proof.
  intros (Hl & Hc & Hm & Hb & HM) H. unfold options_ok.
  destruct c as [[len|] | [x|] | [m|] | [[v| |]|] | | | | []]; cbn [main_option] in H;
    try discriminate H.
  - (* --len *)
    destruct (Z.leb_spec len 0); [discriminate H|].
    destruct (Z.geb_spec len MMAXLEN); [discriminate H|]. cbn [orb] in H.
    destruct (opt_beamformed_check o) eqn:Ec; cbn [andb negb] in H.
    + destruct (Z.eqb_spec len 7824); [|discriminate H].
      injection H as <-. cbn. split; [lia|]. auto.
    + injection H as <-. cbn. split; [lia|]. split; [discriminate|]. auto.
  - (* --bufsize *)
    destruct (double_le x 10000) eqn:Elo; [discriminate H|].
    destruct (double_gt x 16000000000) eqn:Ehi; [discriminate H|]. cbn [orb] in H.
    destruct (double_to_long x) as [z|] eqn:Ez; [|discriminate H].
    injection H as <-. cbn.
    split; [exact Hl|]. split; [exact Hc|]. split; [exact Hm|].
    split; [apply (double_to_long_range x z); assumption | exact HM].
  - (* --maxwrite *)
    destruct (Z.leb_spec m 1024); [discriminate H|].
    injection H as <-. cbn. auto.
  - (* --Maxfilesize *)
    destruct (option_M v) as [[mf per_file] | |] eqn:EM; try discriminate H.
    injection H as <-. cbn.
    split; [exact Hl|]. split; [exact Hc|]. split; [exact Hm|]. split; [exact Hb|].
    eapply option_M_accepted; eauto.
  - (* --sizehead *)
    injection H as <-. cbn. auto.
  - (* --check *)
    destruct (_ && _); [discriminate H|].
    injection H as <-. cbn. unfold MMAXLEN. split; [lia|]. auto.
  - (* the other options *)
    injection H as <-. auto.
Qed.

(** X14. Whatever options are given, in whatever order: when the option loop lets
    them through with defined behaviour, the packet length is 0 (any) or a
    length below [MMAXLEN], it is 7824 if [--check] was given before or after
    [--len], [maxwrite] is above 1024, the buffer size is from 10000 to 16e9
    (10000 itself comes from a fractional value just above it), and
    [maxfilesize] is a non-negative [int].  ([--bufsize nan] passes the range
    check, but its conversion to [long] is undefined.) *)
Theorem main_options_accepted cs o :
  main_options cs main_defaults = Accepted o -> options_ok o.
Proof.
  assert (H0 : options_ok main_defaults).
  { unfold options_ok, main_defaults, MMAXLEN; cbn.
    repeat split; try lia; try discriminate.
    exists 0. rewrite int_max_val. split; [lia | reflexivity]. }
  revert H0. generalize main_defaults. induction cs as [|c cs IH]; intros o0 H0; cbn [main_options].
  - intros [= <-]. exact H0.
  - destruct (main_option c o0) as [o1| |] eqn:E; try discriminate.
    apply IH. eapply main_option_ok; eauto.
Qed.

Lemma main_options_accepted_witness :
  let cs := [Opt_c; Opt_l (Some 7824); Opt_s; Opt_b (Some (Finite (20001 # 2)));
             Opt_m (Some 2000); Opt_M (Some (Finite (-5 # 2))); Opt_other true] in
  let o := {| opt_packlen := 7824; opt_beamformed_check := true;
              opt_do_blocklen := true; opt_bufsize := 10000; opt_maxwrite := 2000;
              opt_maxfilesize := 2; opt_stat_per_splitfile := false |} in
  main_options cs main_defaults = Accepted o /\ options_ok o.
Proof.
  cbv zeta.
  assert (H : main_options [Opt_c; Opt_l (Some 7824); Opt_s; Opt_b (Some (Finite (20001 # 2)));
                            Opt_m (Some 2000); Opt_M (Some (Finite (-5 # 2))); Opt_other true]
                main_defaults
              = Accepted {| opt_packlen := 7824; opt_beamformed_check := true;
                            opt_do_blocklen := true; opt_bufsize := 10000;
                            opt_maxwrite := 2000; opt_maxfilesize := 2;
                            opt_stat_per_splitfile := false |})
    by (vm_compute; reflexivity).
  split; [exact H|]. exact (main_options_accepted _ _ H).
Defined.

(** ** The list of ports *)

Lemma wrap32_add_l a b : wrap32 (wrap32 a + b) = wrap32 (a + b).
Proof.
  unfold wrap32, wrap.
  replace ((a + 2 ^ (32 - 1)) mod 2 ^ 32 - 2 ^ (32 - 1) + b + 2 ^ (32 - 1))
    with ((a + 2 ^ (32 - 1)) mod 2 ^ 32 + b) by lia.
  rewrite Zplus_mod_idemp_l. f_equal. f_equal. lia.
Qed.

Lemma wrap32_zero x : - 4294967296 < x < 4294967296 -> wrap32 x = 0 -> x = 0.
Proof.
  unfold wrap32, wrap.
  change (2 ^ (32 - 1)) with 2147483648. change (2 ^ 32) with 4294967296.
  intros Hx H. Z.to_euclidean_division_equations. lia.
Qed.

Lemma add_port_room i pre m :
  (length pre + S m = 12)%nat ->
  add_port i (pre ++ replicate (S m) 0) (Z.of_nat (length pre))
  = Some ((pre ++ [i]) ++ replicate m 0, Z.of_nat (length (pre ++ [i]))).
Proof.
  intros Hlen. unfold add_port, MAXNSOCK.
  destruct (Z.geb_spec (Z.of_nat (length pre)) 12); [lia|].
  rewrite Nat2Z.id, insert_app_r_alt, Nat.sub_diag by lia. cbn [replicate].
  rewrite <- app_assoc, length_app. cbn [length app].
  unfold int_add. rewrite wrap32_id by (apply in_int_bounds; lia).
  do 2 f_equal. lia.
Qed.

Lemma add_port_full i portnos : add_port i portnos 12 = None.
Proof. reflexivity. Qed.

(** A count that fits: the ports are stored one after the other. *)
Lemma add_ports_fit (c : nat) : forall fuel i pre m,
  (c <= fuel)%nat -> (length pre + c + m = 12)%nat ->
  in_int i -> i + Z.of_nat c <= INT_MAX ->
  add_ports fuel i (Z.of_nat c) (pre ++ replicate (c + m) 0) (Z.of_nat (length pre))
  = PortsOk (pre ++ map (fun k => i + Z.of_nat k) (seq 0 c) ++ replicate m 0)
            (Z.of_nat (length pre + c)).
Proof.
  induction c as [|c IH]; intros fuel i pre m Hfuel Hlen Hi Hic.
  - destruct fuel; cbn; rewrite Nat.add_0_r; reflexivity.
  - destruct fuel as [|fuel]; [lia|].
    cbn [add_ports]. destruct (Z.eqb_spec (Z.of_nat (S c)) 0) as [E|_]; [lia|].
    replace (S c + m)%nat with (S (c + m)) by lia.
    rewrite add_port_room by lia.
    apply (proj1 (in_int_bounds _)) in Hi. rewrite int_max_val in Hic.
    assert (Ei : int_add i 1 = i + 1)
      by (unfold int_add; apply wrap32_id, in_int_bounds; lia).
    assert (Ej : int_add (Z.of_nat (S c)) (-1) = Z.of_nat c)
      by (unfold int_add; rewrite wrap32_id by (apply in_int_bounds; lia); lia).
    assert (Hpre : length (pre ++ [i]) = S (length pre))
      by (rewrite length_app; cbn [length]; lia).
    rewrite Ei, Ej.
    rewrite (IH fuel (i + 1) (pre ++ [i]) m ltac:(lia) ltac:(lia)
               ltac:(apply in_int_bounds; lia) ltac:(rewrite int_max_val; lia)).
    rewrite length_app. cbn [length seq map].
    rewrite <- seq_shift, map_map, <- !app_assoc. cbn [app].
    rewrite Z.add_0_r.
    replace (length pre + 1 + c)%nat with (length pre + S c)%nat by lia.
    do 4 f_equal. apply map_ext. intros k. lia.
Qed.

(** A count that does not run out before the array is full ends the
    program. *)
Lemma add_ports_exit fuel : forall i j portnos nsock,
  0 <= nsock <= 12 -> 12 - nsock < Z.of_nat fuel ->
  (forall k, 0 <= k <= 12 - nsock -> wrap32 (j - k) <> 0) ->
  add_ports fuel i j portnos nsock = PortsExit.
Proof.
  induction fuel as [|fuel IH]; intros i j portnos nsock Hn Hfuel Hnz; [lia|].
  cbn [add_ports].
  destruct (Z.eqb_spec j 0) as [E|_].
  { exfalso. apply (Hnz 0); [lia|]. rewrite E. reflexivity. }
  unfold add_port, MAXNSOCK. destruct (Z.geb_spec nsock 12); [reflexivity|].
  assert (En : int_add nsock 1 = nsock + 1)
    by (unfold int_add; apply wrap32_id, in_int_bounds; lia).
  rewrite En. apply IH; try lia.
  intros k Hk. unfold int_add.
  replace (wrap32 (j + -1) - k) with (wrap32 (j + -1) + - k) by lia.
  rewrite wrap32_add_l.
  replace (j + -1 + - k) with (j - (k + 1)) by lia. apply Hnz. lia.
Qed.

Lemma add_ports_spec i j pre m :
  (length pre + m = 12)%nat -> item_ok (Ports i j) ->
  add_ports 13 i j (pre ++ replicate m 0) (Z.of_nat (length pre))
  = if (0 <=? j) && (Z.of_nat (length pre) + j <=? 12)
    then PortsOk (pre ++ item_ports (Ports i j) ++ replicate (m - Z.to_nat j) 0)
                 (Z.of_nat (length pre) + j)
    else PortsExit.
Proof.
  intros Hlen (Hi & Hi12 & Hj). unfold MAXNSOCK in Hi12.
  pose proof (proj1 (in_int_bounds _) Hj) as Hj'. rewrite int_max_val in Hi12.
  destruct (Z.leb_spec 0 j) as [Hj0|Hj0]; cbn [andb].
  - destruct (Z.leb_spec (Z.of_nat (length pre) + j) 12) as [Hfit|Hfit].
    + cbn [item_ports].
      replace m with (Z.to_nat j + (m - Z.to_nat j))%nat at 1 by lia.
      rewrite <- (Z2Nat.id j Hj0) at 1.
      rewrite add_ports_fit; try lia; try assumption.
      * do 2 f_equal. lia.
      * rewrite int_max_val. lia.
    + apply add_ports_exit; try lia.
      intros k Hk E. apply wrap32_zero in E; lia.
  - apply add_ports_exit; try lia.
    intros k Hk E. apply wrap32_zero in E; lia.
Qed.

Lemma ports_count_nonneg items :
  forallb (fun item => 0 <=? item_count item) items = true -> 0 <= ports_count items.
Proof.
  unfold ports_count. induction items as [|item items IH]; cbn [forallb map foldr]; [lia|].
  intros H. apply andb_prop in H. destruct H as (H1 & H2).
  apply Z.leb_le in H1. specialize (IH H2). lia.
Qed.

Lemma parse_portlist_spec items : forall pre m,
  (length pre + m = 12)%nat -> Forall item_ok items ->
  parse_portlist items (pre ++ replicate m 0) (Z.of_nat (length pre))
  = if forallb (fun item => 0 <=? item_count item) items
       && (Z.of_nat (length pre) + ports_count items <=? 12)
    then PortsOk (pre ++ concat (map item_ports items)
                      ++ replicate (m - Z.to_nat (ports_count items)) 0)
                 (Z.of_nat (length pre) + ports_count items)
    else PortsExit.
Proof.
  induction items as [|item items IH]; intros pre m Hlen Hok.
  - cbn. destruct (Z.leb_spec (Z.of_nat (length pre) + 0) 12); [|lia].
    rewrite Nat.sub_0_r, Z.add_0_r. reflexivity.
  - inversion Hok as [|? ? Hitem Hitems]; subst.
    cbn [parse_portlist forallb map concat].
    change (ports_count (item :: items)) with (item_count item + ports_count items).
    assert (Hrest : forall b, (b && forallb (fun item => 0 <=? item_count item) items
                     && (Z.of_nat (length pre) + (item_count item + ports_count items) <=? 12))
                    = true ->
                    b = true /\ 0 <= ports_count items /\
                    Z.of_nat (length pre) + item_count item + ports_count items <= 12).
    { intros b H. apply andb_prop in H. destruct H as (H & H3).
      apply andb_prop in H. destruct H as (H1 & H2).
      apply Z.leb_le in H3. pose proof (ports_count_nonneg items H2). repeat split; auto; lia. }
    destruct item as [i | i j].
    + (* one port *)
      cbn [item_count item_ports] in *.
      destruct m as [|m].
      * assert (E12 : Z.of_nat (length pre) = 12) by lia.
        rewrite E12 in *. rewrite add_port_full.
        destruct (_ && _) eqn:E; [|reflexivity].
        apply Hrest in E. lia.
      * rewrite add_port_room by lia. rewrite IH by (rewrite ?length_app; cbn [length]; lia || assumption).
        rewrite length_app. cbn [length Z.leb andb].
        replace (Z.of_nat (length pre + 1) + ports_count items)
          with (Z.of_nat (length pre) + (1 + ports_count items)) by lia.
        destruct (_ && _) eqn:E; [|reflexivity].
        apply andb_prop in E. destruct E as (E1 & E2).
        pose proof (ports_count_nonneg items E1). apply Z.leb_le in E2.
        rewrite <- !app_assoc. cbn [app].
        replace (S m - Z.to_nat (1 + ports_count items))%nat
          with (m - Z.to_nat (ports_count items))%nat by lia.
        reflexivity.
    + (* a range *)
      cbn [item_count item_ports] in *.
      change (S (Z.to_nat MAXNSOCK)) with 13%nat.
      rewrite (add_ports_spec i j pre m Hlen Hitem).
      destruct (Z.leb_spec 0 j) as [Hj0|Hj0]; cbn [andb]; [|reflexivity].
      destruct (Z.leb_spec (Z.of_nat (length pre) + j) 12) as [Hfit|Hfit].
      * cbn [item_ports].
        set (ps := map (fun k => i + Z.of_nat k) (seq 0 (Z.to_nat j))).
        assert (Hps : length ps = Z.to_nat j) by (subst ps; rewrite length_map, length_seq; reflexivity).
        rewrite app_assoc.
        replace (Z.of_nat (length pre) + j) with (Z.of_nat (length (pre ++ ps)))
          by (rewrite length_app, Hps; lia).
        rewrite IH by (rewrite ?length_app, ?Hps; lia || assumption).
        rewrite length_app, Hps.
        replace (Z.of_nat (length pre + Z.to_nat j) + ports_count items)
          with (Z.of_nat (length pre) + (j + ports_count items)) by lia.
        destruct (_ && _) eqn:E; [|reflexivity].
        apply andb_prop in E. destruct E as (E1 & E2).
        pose proof (ports_count_nonneg items E1). apply Z.leb_le in E2.
        rewrite <- !app_assoc.
        replace (m - Z.to_nat (j + ports_count items))%nat
          with (m - Z.to_nat j - Z.to_nat (ports_count items))%nat by lia.
        reflexivity.
      * destruct (_ && _) eqn:E; [|reflexivity].
        apply andb_prop in E. destruct E as (E1 & E2).
        pose proof (ports_count_nonneg items E1). apply Z.leb_le in E2. lia.
Qed.

(** X15. The list of ports is accepted exactly when no count is negative and the
    ports are at most [MAXNSOCK]; [nsock] is then their number and [portnos]
    holds the ports of the items in their order - [i], [i+1], ... for an
    item [i x j] - with the rest of the array left at 0.  Otherwise the
    program ends: a negative count runs the array full.  The model of
    [while (j)] is never cut short. *)
Theorem main_ports_expansion items :
  Forall item_ok items ->
  main_ports items
  = if forallb (fun item => 0 <=? item_count item) items && (ports_count items <=? 12)
    then PortsOk (concat (map item_ports items)
                   ++ replicate (12 - Z.to_nat (ports_count items)) 0)
                 (ports_count items)
    else PortsExit.
Proof.
  intros Hok. unfold main_ports.
  apply (parse_portlist_spec items [] 12%nat eq_refl Hok).
Qed.

Lemma main_ports_expansion_witness :
  main_ports [Ports 4346 3; Port 31664; Ports 5000 0]
  = PortsOk [4346; 4347; 4348; 31664; 0; 0; 0; 0; 0; 0; 0; 0] 4 /\
  main_ports [Ports 4346 (-1)] = PortsExit /\
  main_ports [Ports 4346 12; Port 31664] = PortsExit.
Proof.
  assert (Hok : forall i j, - 100000 <= i <= 100000 -> - 100 <= j <= 100 ->
                  item_ok (Ports i j)).
  { intros i j Hi Hj. unfold item_ok, MAXNSOCK. rewrite int_max_val.
    split; [apply in_int_bounds; lia|]. split; [lia | apply in_int_bounds; lia]. }
  split; [|split].
  - rewrite (main_ports_expansion [Ports 4346 3; Port 31664; Ports 5000 0]).
    + reflexivity.
    + constructor; [apply Hok; lia|]. constructor; [exact I|].
      constructor; [apply Hok; lia|]. constructor.
  - rewrite (main_ports_expansion [Ports 4346 (-1)]).
    + reflexivity.
    + constructor; [apply Hok; lia|]. constructor.
  - rewrite (main_ports_expansion [Ports 4346 12; Port 31664]).
    + reflexivity.
    + constructor; [apply Hok; lia|]. constructor; [exact I|]. constructor.
Defined.

(** ** The check of a packet, on its bytes *)

Lemma lor_shiftl_add a b n :
  0 <= n -> 0 <= a < 2 ^ n -> Z.lor a (Z.shiftl b n) = a + b * 2 ^ n.
Proof.
  intros Hn Ha.
  assert (Hland : Z.land a (Z.shiftl b n) = 0).
  { apply Z.bits_inj'. intros m Hm. rewrite Z.land_spec, Z.bits_0.
    destruct (Z.lt_ge_cases m n) as [Hlt|Hge].
    - rewrite Z.shiftl_spec_low by assumption. apply andb_false_r.
    - rewrite <- (Z.mod_small a (2 ^ n)) by assumption.
      rewrite Z.mod_pow2_bits_high by lia. reflexivity. }
  pose proof (Z.add_lor_land a (Z.shiftl b n)) as H.
  rewrite Hland in H. rewrite <- (Z.shiftl_mul_pow2 b n) by assumption. lia.
Qed.

Lemma byte_at_range buff k : 0 <= byte_at buff k <= 255.
Proof.
  unfold byte_at.
  change (Z.land (buff !!! k) 255) with (Z.land (buff !!! k) (Z.ones 8)).
  rewrite Z.land_ones by lia.
  change (2 ^ 8) with 256.
  pose proof (Z.mod_pos_bound (buff !!! k) 256 ltac:(lia)). lia.
Qed.

Lemma le16_bytes buff k :
  le16 buff k = byte_at buff k + 256 * byte_at buff (k + 1).
Proof.
  unfold le16. pose proof (byte_at_range buff k).
  rewrite lor_shiftl_add; change (2 ^ 8) with 256; lia.
Qed.

Lemma le32_bytes buff k :
  le32 buff k = byte_at buff k + 256 * byte_at buff (k + 1)
                + 65536 * byte_at buff (k + 2) + 16777216 * byte_at buff (k + 2 + 1).
Proof.
  unfold le32.
  pose proof (byte_at_range buff k). pose proof (byte_at_range buff (k + 1)).
  rewrite lor_shiftl_add; rewrite ?le16_bytes; change (2 ^ 16) with 65536; lia.
Qed.

Lemma error_bit buff2 :
  error (header_of_bytes buff2) = Z.b2z (Z.testbit (buff2 !!! 1%nat) 6).
Proof.
  unfold header_of_bytes, bits; cbn [error].
  rewrite Z.land_ones by lia. change (2 ^ 1) with 2.
  rewrite <- Z.bit0_mod, Z.shiftr_spec by lia. cbn [Z.add].
  unfold le16. rewrite Z.lor_spec, Z.shiftl_spec_low, orb_false_r by lia.
  unfold byte_at. rewrite Z.land_spec.
  change (Z.testbit 255 6) with true. rewrite andb_true_r. reflexivity.
Qed.

(** X16. A packet passes [beamformed_checkpack] exactly when bit 6 of its second
    byte - the [error] bit of the packed header - is clear and the four
    bytes of the timestamp are not all [0xff]. *)
Theorem beamformed_checkpack_bytes buff2 :
  beamformed_checkpack (header_of_bytes buff2) = true <->
  Z.testbit (buff2 !!! 1%nat) 6 = false /\
  ~ (byte_at buff2 8 = 255 /\ byte_at buff2 9 = 255 /\
     byte_at buff2 10 = 255 /\ byte_at buff2 11 = 255).
Proof.
  unfold beamformed_checkpack. rewrite error_bit.
  assert (Ht : timestamp (header_of_bytes buff2) = -1 <->
               byte_at buff2 8 = 255 /\ byte_at buff2 9 = 255 /\
               byte_at buff2 10 = 255 /\ byte_at buff2 11 = 255).
  { unfold header_of_bytes; cbn [timestamp]. rewrite le32_bytes.
    change (8 + 1)%nat with 9%nat. change (8 + 2)%nat with 10%nat.
    change (10 + 1)%nat with 11%nat.
    pose proof (byte_at_range buff2 8). pose proof (byte_at_range buff2 9).
    pose proof (byte_at_range buff2 10). pose proof (byte_at_range buff2 11).
    unfold wrap32, wrap.
    change (2 ^ (32 - 1)) with 2147483648. change (2 ^ 32) with 4294967296.
    split.
    - intros E. Z.to_euclidean_division_equations. lia.
    - intros (-> & -> & -> & ->). reflexivity. }
  rewrite andb_true_iff, negb_true_iff, Z.eqb_eq, Z.eqb_neq, Ht.
  destruct (Z.testbit (buff2 !!! 1%nat) 6); cbn [Z.b2z]; intuition congruence.
Qed.

Lemma beamformed_checkpack_bytes_witness :
  beamformed_checkpack (header_of_bytes (sample_packet 1543384831 15)) = true /\
  beamformed_checkpack (header_of_bytes (sample_packet (-1) 0)) <> true /\
  beamformed_checkpack (header_of_bytes ([3; 64] ++ sample_packet 1 0)) <> true.
Proof.
  split; [|split].
  - apply (proj2 (beamformed_checkpack_bytes _)).
    split; [reflexivity|]. intros (_ & H & _). vm_compute in H. discriminate H.
  - intros H. apply (proj1 (beamformed_checkpack_bytes _)) in H.
    destruct H as (_ & H). apply H. repeat split; reflexivity.
  - intros H. apply (proj1 (beamformed_checkpack_bytes _)) in H.
    destruct H as (H & _). vm_compute in H. discriminate H.
Defined.

(** ** The consumer's way through its loop *)

Lemma step_file_ready cfg ev σ σ' :
  file_ready σ -> step cfg ev σ = Some σ' -> file_ready σ'.
Proof.
  intros Hr Hstep. destruct (consumer_event ev) eqn:Hev.
  2: { unfold file_ready in *.
       rewrite (step_keeps_consumer cfg ev σ σ' Hev Hstep),
               (step_outf_consumer_only cfg ev σ σ' Hev Hstep). exact Hr. }
  clear Hr. destruct ev; try discriminate Hev; step_cases Hstep;
    unfold file_ready; cbn [g cpc]; try exact I.
  - (* consumer wakes *)
    match goal with H : consumer_wake _ = Some _ |- _ =>
      unfold consumer_wake in H; destruct (_ && _) in H; [discriminate H|];
      injection H as <- end. exact I.
  - (* file *)
    destruct (consumer_file_pc cfg oldpoi old_stopped (g σ)) as [-> | ->]; exact I.
  - (* stop level cleared *)
    unfold consumer_clear; cbn [snd]. destruct (is_open oldpoi); exact I.
  - (* file opened *)
    apply (consumer_open_frame cfg (g σ)).
  - (* write *)
    match goal with H : consumer_write _ _ _ = Some ?r |- _ =>
      destruct r as [s1 pc1];
      destruct (consumer_write_inv _ _ _ _ _ H) as (f & _ & _ & -> & _) end.
    exact I.
Qed.

(** X17. Once it has woken up the consumer is never stuck inside its loop: at
    every position the step it takes next can be taken, whatever the
    producer and the signals have done meanwhile.  In particular
    [assert (thissize)] holds, and [fwrite] always has an open file - nothing
    but the consumer itself closes it. *)
Theorem consumer_never_stuck cfg evs σ ev :
  config_ok cfg -> run cfg evs (main_sys cfg) = Some σ ->
  next_consumer_event (cpc σ) = Some ev ->
  (forall thissize, cpc σ = CWrite thissize -> is_open (outf (g σ)) = true) /\
  exists σ', step cfg ev σ = Some σ'.
Proof.
  intros Hok Hrun Hev.
  destruct (reachable_sys_inv cfg evs σ Hok Hrun) as (_ & _ & _ & Hc).
  assert (Hr : file_ready σ).
  { revert Hrun. apply run_invariant; [|exact I].
    intros e σ1 σ2. apply step_file_ready. }
  unfold file_ready in Hr. split.
  - intros t E. rewrite E in Hr. exact Hr.
  - unfold step.
    destruct (cpc σ) as [|p|p o|p o| |t|t|t|]; cbn [next_consumer_event] in Hev;
      try discriminate Hev; injection Hev as <-; unfold with_consumer; eauto.
    + (* fill level read *)
      cbn [cpc_inv] in Hc.
      destruct (Z.eqb_spec (fillsize (ringbuffer (g σ))) 0); [lia | eauto].
    + (* write *)
      unfold consumer_write. destruct (outf (g σ)); [eauto | discriminate Hr].
Qed.

Lemma consumer_never_stuck_witness :
  let evs := [EvRecv 0 8 (sample_packet 1 15); EvReserve; EvStore; EvTally;
              EvCWake; EvCSnapStop; EvCFile; EvCClear; EvCSize; EvCOpen;
              EvSignal SIGHUP; EvTimeout] in
  match run cfg_udp evs (main_sys cfg_udp) with
  | Some σ =>
      cpc σ = CWrite 8 /\ stopped (g σ) = 1 /\
      (forall thissize, cpc σ = CWrite thissize -> is_open (outf (g σ)) = true) /\
      exists σ', step cfg_udp EvCWrite σ = Some σ'
  | None => False
  end.
Proof.
  cbv zeta.
  destruct (run cfg_udp _ (main_sys cfg_udp)) as [σ|] eqn:Hrun;
    [|vm_compute in Hrun; discriminate Hrun].
  assert (Hpc : cpc σ = CWrite 8)
    by (vm_compute in Hrun; injection Hrun as <-; reflexivity).
  split; [exact Hpc|].
  split; [vm_compute in Hrun; injection Hrun as <-; reflexivity|].
  refine (consumer_never_stuck cfg_udp _ σ EvCWrite cfg_udp_ok Hrun _).
  rewrite Hpc. reflexivity.
Defined.

(** ** The byte totals *)

Lemma sum_writes_insert (l : list Z) (i : nat) x :
  (i < length l)%nat -> sum_writes (<[i := x]> l) = sum_writes l - l !!! i + x.
Proof.
  intros Hi. rewrite insert_take_drop by assumption.
  rewrite <- (take_drop_middle l i (l !!! i)) at 3
    by (apply list_lookup_lookup_total_lt; assumption).
  rewrite !sum_writes_app. unfold sum_writes. cbn [foldr]. lia.
Qed.

Lemma sum_writes_nonneg l : Forall (fun b => 0 <= b) l -> 0 <= sum_writes l.
Proof.
  unfold sum_writes. induction 1 as [|b l Hb Hl IH]; cbn [foldr]; lia.
Qed.

Lemma sum_writes_elem l (i : nat) :
  Forall (fun b => 0 <= b) l -> (i < length l)%nat -> l !!! i <= sum_writes l.
Proof.
  intros Hall Hi.
  assert (H0 : Forall (fun b => 0 <= b) (<[i := 0]> l)) by (apply Forall_insert; [exact Hall | lia]).
  apply sum_writes_nonneg in H0. rewrite sum_writes_insert in H0 by assumption. lia.
Qed.

Lemma sum_writes_cleared l :
  (forall j, (j < length l)%nat -> l !!! j = 0) -> sum_writes l = 0.
Proof.
  unfold sum_writes. induction l as [|b l IH]; intros H; cbn [foldr]; [reflexivity|].
  rewrite IH.
  - specialize (H 0%nat ltac:(cbn [length]; lia)). cbn in H. lia.
  - intros j Hj. apply (H (S j)). cbn [length]. lia.
Qed.

Lemma used_cleared cfg a :
  cleared a (Z.to_nat (nsock cfg)) -> sum_writes (used cfg a) = 0.
Proof.
  intros Hc. apply sum_writes_cleared. unfold used. intros j Hj.
  rewrite length_take in Hj. rewrite lookup_total_take_lt by lia. apply Hc. lia.
Qed.

Lemma used_insert_zero cfg a (j : nat) :
  (Z.to_nat (nsock cfg) <= length a)%nat -> Z.of_nat j < nsock cfg ->
  Forall (fun b => 0 <= b) (used cfg a) ->
  Forall (fun b => 0 <= b) (used cfg (<[j := 0]> a)) /\
  sum_writes (used cfg (<[j := 0]> a)) <= sum_writes (used cfg a).
Proof.
  unfold used. intros Hlen Hj Hall.
  rewrite take_insert_lt by lia. split.
  - apply Forall_insert; [exact Hall | lia].
  - rewrite sum_writes_insert by (rewrite length_take; lia).
    assert (H0 : 0 <= take (Z.to_nat (nsock cfg)) a !!! j); [|lia].
    rewrite Forall_forall in Hall. apply Hall.
    apply list_elem_of_In, list_elem_of_lookup_total_2. rewrite length_take. lia.
Qed.

(** What one access does to the byte totals. *)
Lemma account_access_totals pc t t' pc' :
  account_access pc t = Some (t', pc') ->
  bytes_written t'
  = match pc with
    | ABytesStore i n v => <[i := long_add v n]> (bytes_written t)
    | _ => bytes_written t
    end /\
  totlen t' = match pc with ATotlenStore i n v => long_add v n | _ => totlen t end.
Proof.
  destruct pc; cbn [account_access]; intros H; try discriminate H;
    injection H as <- <-; split; reflexivity.
Qed.

Lemma reset_access_totals cfg pc t t' pc' :
  reset_access cfg pc t = Some (t', pc') ->
  bytes_written t'
  = match pc with RBytes j => <[j := 0]> (bytes_written t) | _ => bytes_written t end /\
  totlen t' = match pc with RTotals => 0 | _ => totlen t end.
Proof.
  destruct pc; cbn [reset_access]; intros H; try discriminate H;
    injection H as <- <-; split; reflexivity.
Qed.

Lemma step_totals_at cfg k a σ σ' :
  0 <= nsock cfg -> Z.of_nat (S k) * (MMAXLEN + 1) <= LONG_MAX ->
  apart tallying σ = true -> apart tallying σ' = true ->
  totals_at cfg k σ -> access_step cfg a σ = Some σ' -> totals_at cfg (S k) σ'.
Proof.
  intros Hn Hk Hex Hex' Ht Hstep. rewrite long_max_val in Hk.
  destruct σ as [t pc rp]. unfold apart, totals_at, MMAXLEN in *.
  cbn [cnt apc rpc] in *.
  destruct Ht as (Hlen & Hall & Htot & Hsum & Hpc).
  assert (Hk1 : Z.of_nat k * (10000 + 1) <= Z.of_nat (S k) * (10000 + 1)) by lia.
  destruct a; cbn [access_step cnt apc rpc] in Hstep.
  - (* a packet enters the accounting *)
    destruct pc; try discriminate Hstep. destruct (_ <? _); [|discriminate Hstep].
    injection Hstep as <-. cbn [cnt apc rpc] in *.
    split; [exact Hlen|]. split; [exact Hall|]. split; [lia|]. split; [lia|].
    unfold account_begin in *.
    destruct (beamformed_check cfg); destruct rp; try discriminate Hex'; exact Hpc.
  - (* a packet enters the tally *)
    destruct pc; try discriminate Hstep.
    destruct (Z.ltb_spec (Z.of_nat i) (nsock cfg)); [|discriminate Hstep].
    destruct (Z.ltb_spec 0 thissize); [|discriminate Hstep].
    destruct (Z.leb_spec thissize (MMAXLEN + 1)); [|discriminate Hstep].
    cbn [andb] in Hstep. unfold MMAXLEN in *.
    injection Hstep as <-. cbn [cnt apc rpc] in *.
    split; [exact Hlen|]. split; [exact Hall|]. split; [lia|]. split; [lia|].
    destruct rp; try discriminate Hex'. auto.
  - (* the producer's next access *)
    destruct (account_access pc t) as [[t1 pc1]|] eqn:E; [|discriminate Hstep].
    injection Hstep as <-. cbn [cnt apc rpc] in *.
    destruct (account_access_totals pc t t1 pc1 E) as (HB & HT).
    destruct pc; cbn [account_access] in E; try discriminate E; injection E as <- <-;
      (destruct rp; cbn in Hex; try discriminate Hex); try rewrite HB; try rewrite HT; clear HB HT;
      try match goal with |- context [if ?b then _ else _] => destruct b end;
      try (split; [exact Hlen|]; split; [exact Hall|]; split; [lia|]; split; [lia|];
           first [exact Hpc | destruct Hpc as (? & ? & ?); auto]; fail).
    + (* the store to [totlen] *)
      destruct Hpc as (Hs & -> & Hth & Hi).
      rewrite long_add_id by (apply in_long_bounds; lia).
      split; [exact Hlen|]. split; [exact Hall|]. split; [lia|]. split; [lia|].
      split; [lia | auto].
    + (* the store to [bytes_written] *)
      destruct Hpc as (Hs & -> & Hth & Hi).
      assert (Him : (i < Z.to_nat (nsock cfg))%nat) by lia.
      assert (Hul : length (used cfg (bytes_written t)) = Z.to_nat (nsock cfg))
        by (unfold used; rewrite length_take; lia).
      assert (Hb : 0 <= bytes_written t !!! i <= sum_writes (used cfg (bytes_written t))).
      { unfold used in *. rewrite <- (lookup_total_take_lt _ (Z.to_nat (nsock cfg)) i Him).
        split; [|apply sum_writes_elem; [exact Hall | lia]].
        rewrite Forall_forall in Hall. apply Hall.
        apply list_elem_of_In, list_elem_of_lookup_total_2. lia. }
      rewrite long_add_id by (apply in_long_bounds; lia).
      rewrite length_insert. unfold used in *.
      rewrite take_insert_lt by assumption.
      rewrite sum_writes_insert by lia.
      rewrite lookup_total_take_lt by assumption.
      split; [exact Hlen|]. split; [apply Forall_insert; [exact Hall | lia]|].
      split; [lia|]. split; lia.
  - (* the consumer enters the reset *)
    destruct rp; try discriminate Hstep. injection Hstep as <-. cbn [cnt apc rpc] in *.
    split; [exact Hlen|]. split; [exact Hall|]. split; [lia|]. split; [lia|].
    unfold reset_loop. destruct (Z.ltb_spec (Z.of_nat 0) (nsock cfg)).
    + split; [assumption|]. intros j Hj. lia.
    + intros j Hj. lia.
  - (* the consumer's next store *)
    destruct (reset_access cfg rp t) as [[t1 pc1]|] eqn:E; [|discriminate Hstep].
    injection Hstep as <-. cbn [cnt apc rpc] in *.
    destruct (reset_access_totals cfg rp t t1 pc1 E) as (HB & HT).
    destruct rp; cbn [reset_access] in E; try discriminate E; injection E as <- <-;
      try rewrite HB; try rewrite HT; clear HB HT;
      try (split; [exact Hlen|]; split; [exact Hall|]; split; [lia|]; split; [lia|];
           exact Hpc).
    + (* the store to [bytes_written] *)
      destruct Hpc as (Hj & Hcl).
      destruct (used_insert_zero cfg (bytes_written t) j Hlen Hj Hall) as (Hall' & Hle).
      rewrite length_insert.
      split; [exact Hlen|]. split; [exact Hall'|]. split; [lia|]. split; [lia|].
      split; [exact Hj|]. intros j' Hj'.
      destruct (Nat.eq_dec j j') as [<-|Hne].
      * apply list_lookup_total_insert_eq. lia.
      * rewrite list_lookup_total_insert_ne by assumption. apply Hcl. lia.
    + (* the end of a turn of the loop *)
      destruct Hpc as (Hj & Hcl).
      split; [exact Hlen|]. split; [exact Hall|]. split; [lia|]. split; [lia|].
      unfold reset_loop. destruct (Z.ltb_spec (Z.of_nat (S j)) (nsock cfg)).
      * split; [assumption | exact Hcl].
      * replace (Z.to_nat (nsock cfg)) with (S j) by lia. exact Hcl.
    + (* the store to [totlen] *)
      rewrite (used_cleared cfg (bytes_written t) Hpc).
      split; [exact Hlen|]. split; [exact Hall|]. split; [lia|]. split; [lia|].
      destruct pc; cbn in Hex; try discriminate Hex; reflexivity.
  - (* the regular printout *)
    injection Hstep as <-. cbn [cnt apc rpc] in *.
    destruct (signal_reports_stat cfg t) as (_ & _ & _ & _ & HB & HT).
    cbv zeta in HB, HT. rewrite HB, HT.
    split; [exact Hlen|]. split; [exact Hall|]. split; [lia|]. split; [lia|]. exact Hpc.
Qed.

Lemma main_totals_at cfg : config_ok cfg -> totals_at cfg 0 (main_stat_sys cfg).
Proof.
  intros (_ & _ & (Hn0 & Hn) & _). unfold MAXNSOCK in Hn.
  unfold totals_at, main_stat_sys; cbn [cnt apc rpc]. rewrite main_state_stat.
  unfold init_thisfilestat. stat_simpl.
  assert (H : forall m : nat, (m <= 12)%nat ->
            let t := for_ports (Z.of_nat m) init_port zero_stats in
            length (bytes_written t) = 12%nat /\
            Forall (fun b => b = 0) (bytes_written t)).
  { induction m as [|m IH]; intros Hm; cbv zeta.
    - unfold for_ports. change (seq 0 (Z.to_nat (Z.of_nat 0))) with (@nil nat).
      cbn [foldl]. split; [reflexivity|]. repeat constructor.
    - rewrite for_ports_S. destruct (IH ltac:(lia)) as (Hl & Hz).
      change (bytes_written (init_port m ?t)) with (<[m := 0]> (bytes_written t)).
      rewrite length_insert. split; [exact Hl|]. apply Forall_insert; auto. }
  specialize (H (Z.to_nat (nsock cfg)) ltac:(lia)). cbv zeta in H.
  rewrite Z2Nat.id in H by assumption. destruct H as (Hl & Hz).
  assert (Hu : Forall (fun b => b = 0) (used cfg (bytes_written
                 (for_ports (nsock cfg) init_port zero_stats))))
    by (unfold used; apply Forall_take; exact Hz).
  assert (Hs : sum_writes (used cfg (bytes_written
                 (for_ports (nsock cfg) init_port zero_stats))) = 0).
  { revert Hu. generalize (used cfg (bytes_written
                 (for_ports (nsock cfg) init_port zero_stats))).
    unfold sum_writes. induction 1 as [|b l -> Hl' IH]; cbn [foldr]; lia. }
  rewrite Hs. split; [lia|]. split; [|split; [lia|split; [lia | reflexivity]]].
  eapply Forall_impl; [|exact Hu]. intros b ->. lia.
Qed.

Lemma run_totals_at cfg acs : forall k σ σ',
  0 <= nsock cfg -> Z.of_nat (k + length acs) * (MMAXLEN + 1) <= LONG_MAX ->
  totals_at cfg k σ ->
  access_run cfg acs σ = Some σ' -> apart_run tallying cfg acs σ = true ->
  totals_at cfg (k + length acs) σ'.
Proof.
  induction acs as [|a acs IH]; intros k σ σ' Hn Hk Ht; cbn [access_run length].
  - intros [= <-] _. rewrite Nat.add_0_r. exact Ht.
  - destruct (access_step cfg a σ) as [σ1|] eqn:Hs; [|discriminate].
    intros Hrun Hex. cbn [length] in Hk.
    destruct (apart_run_cons _ cfg a acs σ σ1 Hs Hex) as (Hx & Hx1 & Hexr).
    replace (k + S (length acs))%nat with (S k + length acs)%nat in * by lia.
    apply (IH (S k) σ1 σ' Hn Hk); [|exact Hrun | exact Hexr].
    apply (step_totals_at cfg k a σ σ1); auto. unfold MMAXLEN in *. lia.
Qed.

(** X18. In every run in which no reset of the statistics overlaps the tally
    of the producer, whenever the producer is not inside the tally and the
    consumer not inside a reset the byte total [totlen] is the sum of
    [bytes_written] over the sockets in use, and no socket's byte count is
    negative or above it.  (They are [long]s; the run is short enough for
    them not to wrap.) *)
Theorem totlen_is_sum cfg acs σ :
  config_ok cfg -> Z.of_nat (length acs) * (MMAXLEN + 1) <= LONG_MAX ->
  access_run cfg acs (main_stat_sys cfg) = Some σ ->
  apart_run tallying cfg acs (main_stat_sys cfg) = true ->
  tallying (apc σ) = false -> rpc σ = RIdle ->
  totlen (cnt σ) = sum_writes (used cfg (bytes_written (cnt σ))) /\
  Forall (fun b => 0 <= b <= totlen (cnt σ)) (used cfg (bytes_written (cnt σ))).
Proof.
  intros Hok Hk Hrun Hex Ea Er.
  pose proof Hok as (_ & _ & (Hn0 & _) & _).
  pose proof (run_totals_at cfg acs 0 (main_stat_sys cfg) σ Hn0 Hk
                (main_totals_at cfg Hok) Hrun Hex) as H.
  unfold totals_at in H. rewrite Er in H. cbv zeta in H.
  destruct H as (Hlen & Hall & _ & _ & Hsum).
  assert (Hsum' : sum_writes (used cfg (bytes_written (cnt σ))) = totlen (cnt σ))
    by (destruct (apc σ); try discriminate Ea; exact Hsum).
  clear Hsum. rename Hsum' into Hsum.
  split; [symmetry; exact Hsum|]. rewrite <- Hsum.
  rewrite Forall_forall. intros b Hb. apply list_elem_of_In in Hb.
  apply list_elem_of_lookup_total_1 in Hb. destruct Hb as (i & Hi & <-).
  split; [|apply sum_writes_elem; assumption].
  rewrite Forall_forall in Hall. apply Hall.
  apply list_elem_of_In, list_elem_of_lookup_total_2. exact Hi.
Qed.

Lemma totlen_is_sum_witness :
  let acs := [AcStored 0 8; AcProducer; AcProducer; AcProducer; AcProducer;
              AcStored 1 8; AcProducer; AcProducer; AcProducer; AcProducer;
              AcReport;
              AcStored 1 8; AcProducer; AcProducer; AcProducer; AcProducer] in
  match access_run cfg_udp acs (main_stat_sys cfg_udp) with
  | Some σ =>
      used cfg_udp (bytes_written (cnt σ)) = [8; 16] /\
      totlen (cnt σ) = sum_writes (used cfg_udp (bytes_written (cnt σ))) /\
      Forall (fun b => 0 <= b <= totlen (cnt σ)) (used cfg_udp (bytes_written (cnt σ)))
  | None => False
  end.
Proof.
  cbv zeta.
  destruct (access_run cfg_udp _ (main_stat_sys cfg_udp)) as [σ|] eqn:Hrun;
    [|vm_compute in Hrun; discriminate Hrun].
  split; [vm_compute in Hrun; injection Hrun as <-; reflexivity|].
  refine (totlen_is_sum cfg_udp _ σ cfg_udp_ok _ Hrun _ _ _).
  - cbn [length]. unfold MMAXLEN. rewrite long_max_val. lia.
  - vm_compute. reflexivity.
  - vm_compute in Hrun. injection Hrun as <-. reflexivity.
  - vm_compute in Hrun. injection Hrun as <-. reflexivity.
Defined.

(** Why the run must be one in which the reset does not overlap the tally:
    when the consumer resets [bytes_written] and [totlen] after the producer
    has added to [totlen] and loaded [bytes_written], the byte count of the
    socket is 8 while the total is 0. *)
Example reset_inside_tally_breaks_sum :
  let acs := [AcStored 0 8; AcProducer; AcProducer; AcProducer;
              AcReset; AcConsumer; AcConsumer; AcConsumer; AcConsumer;
              AcConsumer; AcConsumer; AcConsumer; AcConsumer; AcConsumer;
              AcConsumer; AcConsumer; AcConsumer; AcConsumer;
              AcProducer] in
  apart_run tallying cfg_udp acs (main_stat_sys cfg_udp) = false /\
  match access_run cfg_udp acs (main_stat_sys cfg_udp) with
  | Some σ =>
      apc σ = AIdle /\ rpc σ = RIdle /\
      totlen (cnt σ) = 0 /\ used cfg_udp (bytes_written (cnt σ)) = [8; 0]
  | None => False
  end.
Proof. vm_compute. repeat split. Qed.

(** ** The snapshots of [signal_handler] *)

Lemma signal_report_kept cfg j t : counters_kept t (signal_report cfg j t).
Proof. unfold counters_kept, signal_report. case_match; repeat split; reflexivity. Qed.

Lemma signal_report_at cfg j t i :
  snapshots_len t i ->
  snapshots_len (signal_report cfg j t) i /\
  (j = i -> snapshot_of cfg t (signal_report cfg j t) i) /\
  (j <> i ->
   last_packs_seen (signal_report cfg j t) !!! i = last_packs_seen t !!! i /\
   last_packs_dropped (signal_report cfg j t) !!! i = last_packs_dropped t !!! i /\
   last_good_packs (signal_report cfg j t) !!! i = last_good_packs t !!! i /\
   last_packs_expected (signal_report cfg j t) !!! i = last_packs_expected t !!! i).
Proof.
  intros (L1 & L2 & L3 & L4). unfold snapshots_len, snapshot_of, signal_report.
  destruct (negb (totlen t =? 0) && beamformed_check cfg); cbn;
    rewrite ?length_insert; (split; [auto|]); split.
  - intros ->. rewrite !list_lookup_total_insert_eq by assumption. auto.
  - intros Hne. rewrite !list_lookup_total_insert_ne by assumption. auto.
  - intros ->. rewrite !list_lookup_total_insert_eq by assumption. auto.
  - intros Hne. rewrite !list_lookup_total_insert_ne by assumption. auto.
Qed.

Lemma counters_kept_trans t1 t2 t3 :
  counters_kept t1 t2 -> counters_kept t2 t3 -> counters_kept t1 t3.
Proof.
  unfold counters_kept.
  intros (A1 & A2 & A3 & A4 & A5 & A6 & A7) (B1 & B2 & B3 & B4 & B5 & B6 & B7).
  repeat split; congruence.
Qed.

Lemma snapshot_of_kept cfg t0 t t' i :
  counters_kept t0 t -> snapshot_of cfg t t' i ->
  (last_good_packs t !!! i = last_good_packs t0 !!! i) ->
  (last_packs_expected t !!! i = last_packs_expected t0 !!! i) ->
  snapshot_of cfg t0 t' i.
Proof.
  unfold counters_kept, snapshot_of.
  intros (A1 & A2 & A3 & A4 & A5 & A6 & A7) (B1 & B2 & B3) Hg He.
  rewrite A1, A2, A3, A5, A6, A7 in *.
  split; [exact B1|]. split; [exact B2|].
  destruct (negb (totlen t0 =? 0) && beamformed_check cfg); [exact B3|].
  destruct B3 as (-> & ->). auto.
Qed.

(** The loop over the sockets, up to socket [m]. *)
Lemma signal_reports_at cfg (m : nat) t i :
  snapshots_len t i ->
  let t' := for_ports (Z.of_nat m) (signal_report cfg) t in
  snapshots_len t' i /\ counters_kept t t' /\
  ((i < m)%nat -> snapshot_of cfg t t' i) /\
  ((m <= i)%nat ->
   last_packs_seen t' !!! i = last_packs_seen t !!! i /\
   last_packs_dropped t' !!! i = last_packs_dropped t !!! i /\
   last_good_packs t' !!! i = last_good_packs t !!! i /\
   last_packs_expected t' !!! i = last_packs_expected t !!! i).
Proof.
  intros Hlen. cbv zeta. induction m as [|m IH].
  - unfold for_ports. change (seq 0 (Z.to_nat (Z.of_nat 0))) with (@nil nat).
    cbn [foldl]. split; [exact Hlen|]. split; [repeat split|]. split; [lia | auto].
  - rewrite for_ports_S. destruct IH as (Hl & Hk & Hlo & Hhi).
    set (t1 := for_ports (Z.of_nat m) (signal_report cfg) t) in *.
    destruct (signal_report_at cfg m t1 i Hl) as (Hl' & Heq & Hne).
    pose proof (signal_report_kept cfg m t1) as Hk'.
    split; [exact Hl'|].
    split; [eapply counters_kept_trans; eauto|]. split.
    + intros Hi. destruct (Nat.eq_dec m i) as [E|E].
      * destruct (Hhi ltac:(lia)) as (_ & _ & Hg & He).
        apply (snapshot_of_kept cfg t t1); auto.
      * destruct (Hne E) as (E1 & E2 & E3 & E4).
        specialize (Hlo ltac:(lia)). unfold snapshot_of in *.
        rewrite E1, E2, E3, E4. exact Hlo.
    + intros Hi. destruct (Hne ltac:(lia)) as (-> & -> & -> & ->). apply Hhi. lia.
Qed.



(** ** Every write makes progress *)

(** X20. The counterpart of a packet length above [maxwrite]: when the packet
    length is arbitrary, or fixed, at most [maxwrite] and without
    [--sizehead], every write of the consumer takes at least one byte -
    with a fixed length at least one whole packet - and never more than the
    fill level it has read; so every turn of its loop drains the buffer. *)
Theorem write_makes_progress cfg evs σ thissize :
  config_ok cfg ->
  packlen cfg = 0 \/ (packlen cfg <= maxwrite cfg /\ do_blocklen cfg = false) ->
  Z.of_nat (length evs) * maxwrite cfg <= LONG_MAX ->
  run cfg evs (main_sys cfg) = Some σ ->
  cpc σ = CWrite thissize ->
  Z.max 1 (packlen cfg) <= consumer_chunk cfg thissize <= thissize.
Proof.
  intros Hok Hcase Hk Hrun Hpc.
  pose proof (reachable_sys_inv cfg evs σ Hok Hrun) as (Hwf & Hinv & _ & Hc).
  rewrite Hpc in Hc. cbn [cpc_inv] in Hc.
  destruct Hwf as (Ht & H2 & _), Hinv as ((_ & Hf1) & _).
  assert (Hts : 0 <= thissize <= LONG_MAX) by lia.
  destruct (consumer_chunk_spec cfg thissize Hok Hts) as (Hspec & Hch).
  pose proof Hok as ((HL0 & _) & (Hm0 & _) & _).
  split; [|lia]. rewrite Hspec. unfold chunk_spec.
  destruct Hcase as [E | (Hle & Hnb)].
  - rewrite E. cbn. lia.
  - destruct (Z.ltb_spec 0 (packlen cfg)) as [HL|HL]; [|lia].
    pose proof (run_whole cfg Hok HL Hnb evs 0 _ _ Hk (main_whole cfg Hok) Hrun)
      as (_ & _ & _ & _ & _ & Hcw).
    rewrite Hpc in Hcw. cbn [cpc_whole] in Hcw. destruct Hcw as (q & Hq).
    assert (Hq1 : 1 <= q) by nia.
    assert (Hlt : packlen cfg <= thissize) by nia.
    assert (Hge : packlen cfg <= Z.min thissize (maxwrite cfg)) by lia.
    unfold round_down.
    assert (1 <= Z.min thissize (maxwrite cfg) / packlen cfg)
      by (apply Z.div_le_lower_bound; lia).
    nia.
Qed.

Lemma write_makes_progress_witness :
  let p := sample_packet 1 15 in
  let evs := [EvRecv 0 8 p; EvReserve; EvStore; EvTally;
              EvRecv 1 8 p; EvReserve; EvStore; EvTally;
              EvRecv 0 8 p; EvReserve; EvStore; EvTally;
              EvCWake; EvCSnapStop; EvCFile; EvCClear; EvCSize; EvCOpen] in
  match run cfg_udp evs (main_sys cfg_udp) with
  | Some σ =>
      cpc σ = CWrite 24 /\ consumer_chunk cfg_udp 24 = 24 /\
      Z.max 1 (packlen cfg_udp) <= consumer_chunk cfg_udp 24 <= 24
  | None => False
  end.
Proof.
  cbv zeta.
  destruct (run cfg_udp _ (main_sys cfg_udp)) as [σ|] eqn:Hrun;
    [|vm_compute in Hrun; discriminate Hrun].
  assert (Hpc : cpc σ = CWrite 24)
    by (vm_compute in Hrun; injection Hrun as <-; reflexivity).
  split; [exact Hpc|]. split; [reflexivity|].
  refine (write_makes_progress cfg_udp _ σ 24 cfg_udp_ok _ _ Hrun Hpc).
  - right. split; [cbn; lia | reflexivity].
  - cbn [length cfg_udp maxwrite]. rewrite long_max_val. lia.
Defined.

(** ** The contents of the ring buffer *)

Lemma vrb_offset_mod T a : 0 < T -> 0 <= a < 2 * T -> vrb_offset T a = a mod T.
Proof.
  intros HT Ha. unfold vrb_offset. destruct (Z.ltb_spec a T).
  - rewrite Z.mod_small; lia.
  - replace a with (a - T + 1 * T) at 2 by lia.
    rewrite Z.mod_add, Z.mod_small; lia.
Qed.

(** Two bytes of the mapping less than [totsize] apart are different bytes of
    the file. *)
Lemma vrb_offset_apart T a b :
  0 < T -> 0 <= a -> a < b -> b < a + T -> b < 2 * T ->
  vrb_offset T a <> vrb_offset T b.
Proof.
  intros HT Ha Hab HbT Hb. unfold vrb_offset.
  destruct (Z.ltb_spec a T), (Z.ltb_spec b T); lia.
Qed.

Lemma vrb_offset_same T a b :
  0 < T -> 0 <= a < 2 * T -> 0 <= b < 2 * T -> a mod T = b mod T ->
  vrb_offset T a = vrb_offset T b.
Proof. intros HT Ha Hb E. rewrite !vrb_offset_mod by assumption. exact E. Qed.

Lemma memcpy_outside T src : forall file dest x,
  (forall j, (j < length src)%nat -> vrb_offset T (dest + Z.of_nat j) <> x) ->
  memcpy T file dest src x = file x.
Proof.
  induction src as [|b src IH]; intros file dest x Hout; cbn [memcpy]; [reflexivity|].
  rewrite IH.
  - destruct (Z.eqb_spec x (vrb_offset T dest)) as [E|_]; [|reflexivity].
    exfalso. apply (Hout 0%nat); [cbn; lia|]. rewrite Z.add_0_r. auto.
  - intros j Hj. specialize (Hout (S j) ltac:(cbn; lia)).
    replace (dest + 1 + Z.of_nat j) with (dest + Z.of_nat (S j)) by lia. exact Hout.
Qed.

Lemma memcpy_inside T src : forall file dest j,
  0 < T -> 0 <= dest -> Z.of_nat (length src) <= T ->
  dest + Z.of_nat (length src) <= 2 * T ->
  (j < length src)%nat ->
  memcpy T file dest src (vrb_offset T (dest + Z.of_nat j)) = src !!! j.
Proof.
  induction src as [|b src IH]; intros file dest j HT Hd Hlen Hfit Hj;
    cbn [length] in *; [lia|].
  cbn [memcpy]. destruct j as [|j].
  - rewrite memcpy_outside.
    + rewrite Z.add_0_r, Z.eqb_refl. reflexivity.
    + intros k Hk. rewrite Z.add_0_r. apply not_eq_sym.
      apply vrb_offset_apart; lia.
  - replace (dest + Z.of_nat (S j)) with (dest + 1 + Z.of_nat j) by lia.
    rewrite IH by lia. reflexivity.
Qed.

Lemma seq_from (a n : nat) : seq a n = map (fun j => (a + j)%nat) (seq 0 n).
Proof.
  revert a. induction n as [|n IH]; intros a; cbn [seq map]; [reflexivity|].
  rewrite Nat.add_0_r. f_equal.
  rewrite (IH (S a)), (IH 1%nat), map_map. apply map_ext. intros j. lia.
Qed.

Lemma lookup_total_seq (l : list Z) : map (fun j => l !!! j) (seq 0 (length l)) = l.
Proof.
  induction l as [|b l IH]; cbn [length seq map]; [reflexivity|].
  f_equal. rewrite (seq_from 1), map_map. exact IH.
Qed.

Lemma fwrite_app T f p a b :
  0 <= a -> 0 <= b -> fwrite T f p (a + b) = fwrite T f p a ++ fwrite T f (p + a) b.
Proof.
  intros Ha Hb. unfold fwrite.
  rewrite Z2Nat.inj_add, seq_app, map_app by assumption. f_equal.
  cbn [Nat.add]. rewrite (seq_from (Z.to_nat a)), map_map.
  apply map_ext. intros j. do 2 f_equal. lia.
Qed.

Lemma fwrite_ext T f f' p n :
  (forall j, (j < Z.to_nat n)%nat ->
     f (vrb_offset T (p + Z.of_nat j)) = f' (vrb_offset T (p + Z.of_nat j))) ->
  fwrite T f p n = fwrite T f' p n.
Proof.
  intros H. unfold fwrite. apply map_ext_in. intros j Hj.
  apply in_seq in Hj. apply H. lia.
Qed.

(** Reading from a pointer in the second copy is reading from the one in the
    first. *)
Lemma fwrite_wrap T f p n :
  0 < T -> 0 <= p -> 0 <= n <= T -> p + n <= 2 * T ->
  fwrite T f (p mod T) n = fwrite T f p n.
Proof.
  intros HT Hp Hn Hfit. unfold fwrite. apply map_ext_in. intros j Hj.
  apply in_seq in Hj. f_equal.
  pose proof (Z.mod_pos_bound p T HT).
  apply vrb_offset_same; try lia.
  rewrite Zplus_mod_idemp_l. reflexivity.
Qed.

Lemma fwrite_length T f p n : length (fwrite T f p n) = Z.to_nat n.
Proof. unfold fwrite. rewrite length_map, length_seq. reflexivity. Qed.

Lemma fwrite_memcpy T f p packet :
  0 < T -> 0 <= p -> Z.of_nat (length packet) <= T ->
  p + Z.of_nat (length packet) <= 2 * T ->
  fwrite T (memcpy T f p packet) p (Z.of_nat (length packet)) = packet.
Proof.
  intros HT Hp Hlen Hfit. unfold fwrite. rewrite Nat2Z.id.
  transitivity (map (fun j => packet !!! j) (seq 0 (length packet)));
    [|apply lookup_total_seq].
  apply map_ext_in. intros j Hj. apply in_seq in Hj.
  apply memcpy_inside; lia.
Qed.

Lemma fwrite_take T f p n t :
  0 <= t <= n -> take (Z.to_nat t) (fwrite T f p n) = fwrite T f p t.
Proof.
  intros Ht. replace n with (t + (n - t)) by lia.
  rewrite fwrite_app by lia.
  rewrite take_app_le by (rewrite fwrite_length; lia).
  apply take_ge. rewrite fwrite_length. lia.
Qed.

Lemma fwrite_drop T f p n t :
  0 <= t <= n -> drop (Z.to_nat t) (fwrite T f p n) = fwrite T f (p + t) (n - t).
Proof.
  intros Ht. replace n with (t + (n - t)) at 1 by lia.
  rewrite fwrite_app by lia.
  rewrite drop_app_ge by (rewrite fwrite_length; lia).
  rewrite fwrite_length, Nat.sub_diag. reflexivity.
Qed.

Lemma mem_step_inv op m m' :
  mem_inv m -> mem_step op m = Some m' -> mem_inv m'.
Proof.
  intros (Hwf & Hinv & Hpl & Hbl & Hfifo) Hstep.
  pose proof (vrb_rear_range _ Hwf Hinv) as Hrear.
  pose proof Hwf as (HT & H2 & Hfr). pose proof Hinv as ((Hf0 & Hf1) & Hr).
  rewrite long_max_val in H2.
  unfold placing_ok in Hpl. unfold block_ok in Hbl. unfold pending, unreleased in Hfifo.
  destruct op as [packet | | | | t | |]; cbn [mem_step] in Hstep.
  - (* a place is asked for *)
    destruct (placing m) eqn:Epl; [discriminate|].
    destruct (_ || _) eqn:Esz; [discriminate|].
    apply orb_false_elim in Esz. destruct Esz as (Hz & Hmax).
    apply Z.eqb_neq in Hz. apply Z.ltb_ge in Hmax. rewrite int_max_val in Hmax.
    destruct (vrb_poi_new (meta m) _) as [p|] eqn:Ep; injection Hstep as <-.
    + unfold mem_inv, placing_ok, block_ok, pending, unreleased;
        cbn [meta file placing block stored written].
      split; [exact Hwf|]. split; [exact Hinv|].
      split; [|split; [exact Hbl | exact Hfifo]].
      assert (Hfit := vrb_poi_new_Some_fits _ Hwf Hinv (Z.of_nat (length packet)) p
                        ltac:(rewrite int_max_val; lia) Ep).
      unfold vrb_poi_new in Ep. destruct (_ >? _); [discriminate|]. injection Ep as <-.
      split; [reflexivity|]. split; [lia|]. split; [exact Hfit | discriminate].
    + unfold mem_inv, placing_ok, block_ok, pending, unreleased. rewrite Epl. auto.
  - (* the packet is copied *)
    destruct (placing m) as [[[p packet] [|]]|] eqn:Epl; try discriminate.
    injection Hstep as <-. destruct Hpl as (-> & Hn & Hfit & _).
    unfold mem_inv, placing_ok, block_ok, pending, unreleased;
      cbn [meta file placing block stored written].
    split; [exact Hwf|]. split; [exact Hinv|]. split; [|split; [exact Hbl|]].
    + split; [reflexivity|]. split; [exact Hn|]. split; [exact Hfit|]. intros _.
      apply fwrite_memcpy; lia.
    + rewrite Hfifo. do 2 f_equal. apply fwrite_ext. intros j Hj.
      symmetry. apply memcpy_outside. intros k Hk.
      rewrite !vrb_offset_mod by lia. rewrite Hr, Zplus_mod_idemp_l.
      intros E.
      assert (Hd : (front (meta m) + fillsize (meta m) + Z.of_nat k
                    - (front (meta m) + Z.of_nat j)) mod totsize (meta m) = 0).
      { rewrite Zminus_mod, E, Z.sub_diag. apply Z.mod_0_l. lia. }
      rewrite Z.mod_small in Hd; lia.
  - (* the rear is advanced *)
    destruct (placing m) as [[[p packet] [|]]|] eqn:Epl; try discriminate.
    injection Hstep as <-. destruct Hpl as (-> & Hn & Hfit & Hcopied).
    specialize (Hcopied eq_refl).
    destruct (vrb_advance_new_inv _ Hwf Hinv (Z.of_nat (length packet)) ltac:(lia) Hfit)
      as (Hwf' & Hinv').
    unfold mem_inv, placing_ok, block_ok, pending, unreleased;
      cbn [meta file placing block stored written].
    split; [exact Hwf'|]. split; [exact Hinv'|]. split; [exact I|].
    rewrite vrb_advance_new_eq by (auto; lia). cbn [totsize front fillsize].
    split.
    + destruct (block m) as [|q|q t|q t]; [exact I | exact Hbl | |];
        (destruct Hbl as (Hq & Ht); split; [exact Hq | lia]).
    + assert (Hu : 0 <= match block m with BlockWritten _ t => t | _ => 0 end
                   <= fillsize (meta m))
        by (destruct (block m); lia).
      rewrite fwrite_app by lia.
      rewrite drop_app_le by (rewrite fwrite_length; lia).
      rewrite app_assoc, <- Hfifo. f_equal.
      etransitivity; [symmetry; exact Hcopied|].
      rewrite Hr. apply fwrite_wrap; lia.
  - (* the front is asked for *)
    destruct (block m) eqn:Eb; try discriminate.
    destruct (vrb_poi_old (meta m)) as [p|] eqn:Ep; injection Hstep as <-.
    + unfold mem_inv, placing_ok, block_ok, pending, unreleased;
        cbn [meta file placing block stored written].
      split; [exact Hwf|]. split; [exact Hinv|]. split; [exact Hpl|].
      split; [|exact Hfifo].
      unfold vrb_poi_old in Ep. destruct (_ =? _); [discriminate|].
      injection Ep as <-. reflexivity.
    + unfold mem_inv, placing_ok, block_ok, pending, unreleased. rewrite Eb. auto.
  - (* the size of the block *)
    destruct (block m) as [|p|p t'|p t'] eqn:Eb; try discriminate.
    destruct (_ && _) eqn:Et; [|discriminate]. injection Hstep as <-.
    apply andb_prop in Et. destruct Et as (Ht0 & Ht1).
    apply Z.leb_le in Ht0. apply Z.leb_le in Ht1.
    unfold mem_inv, placing_ok, block_ok, pending, unreleased;
      cbn [meta file placing block stored written].
    split; [exact Hwf|]. split; [exact Hinv|]. split; [exact Hpl|].
    split; [split; [exact Hbl | lia] | exact Hfifo].
  - (* the block is written *)
    destruct (block m) as [|p|p t|p t] eqn:Eb; try discriminate.
    injection Hstep as <-. destruct Hbl as (-> & Ht).
    unfold mem_inv, placing_ok, block_ok, pending, unreleased;
      cbn [meta file placing block stored written].
    split; [exact Hwf|]. split; [exact Hinv|]. split; [exact Hpl|].
    split; [split; [reflexivity | exact Ht]|].
    rewrite Hfifo. cbn [Z.to_nat drop]. rewrite <- app_assoc. f_equal.
    rewrite <- (fwrite_take _ _ _ (fillsize (meta m)) t Ht).
    symmetry. apply take_drop.
  - (* the block is released *)
    destruct (block m) as [|p|p t|p t] eqn:Eb; try discriminate.
    injection Hstep as <-. destruct Hbl as (-> & Ht).
    destruct (vrb_advance_old_inv _ Hwf Hinv t Ht) as (Hwf' & Hinv').
    unfold mem_inv, placing_ok, block_ok, pending, unreleased;
      cbn [meta file placing block stored written].
    split; [exact Hwf'|]. split; [exact Hinv'|].
    rewrite vrb_advance_old_eq by (auto; lia). cbn [totsize front fillsize rear].
    split; [|split; [exact I|]].
    + destruct (placing m) as [[[p packet] copied]|]; [|exact I].
      destruct Hpl as (-> & Hn & Hfit & Hcopied).
      split; [reflexivity|]. split; [exact Hn|]. split; [lia | exact Hcopied].
    + rewrite Hfifo. cbn [Z.to_nat drop]. f_equal.
      rewrite fwrite_drop by exact Ht.
      symmetry. apply fwrite_wrap; lia.
Qed.

Lemma mem_run_inv ops : forall m m',
  mem_inv m -> mem_run ops m = Some m' -> mem_inv m'.
Proof.
  induction ops as [|op ops IH]; intros m m' Hinv; cbn [mem_run].
  - intros [= <-]. exact Hinv.
  - destruct (mem_step op m) as [m1|] eqn:Hs; [|discriminate].
    apply IH. eapply mem_step_inv; eauto.
Qed.

(** X21. The ring buffer is a queue of bytes.  Whatever the two threads do, each
    in its own order but interleaved at will, and whatever the mapped file
    held at the start: the bytes of the packets stored, in the order they
    were stored, are the bytes handed to [fwrite] so far followed by the
    bytes still in the buffer - read from the front through the doubled
    mapping without wrapping - that are not part of a block written but not
    yet released.  Nothing is lost, repeated or reordered, and a packet being
    copied does not touch what the consumer has yet to write. *)
Theorem ring_buffer_fifo minsize pagesize file0 ops m :
  vrb_init_ok minsize pagesize ->
  mem_run ops (init_vrb_mem minsize pagesize file0) = Some m ->
  stored m = written m ++ drop (Z.to_nat (unreleased m)) (pending m) /\
  Z.of_nat (length (pending m)) = fillsize (meta m) /\
  0 <= unreleased m <= fillsize (meta m).
Proof.
  intros Hok Hrun.
  assert (H0 : mem_inv (init_vrb_mem minsize pagesize file0)).
  { destruct (init_vrb_inv _ _ Hok) as (Hwf & Hinv).
    unfold mem_inv, init_vrb_mem, placing_ok, block_ok, pending, unreleased;
      cbn [meta file placing block stored written].
    split; [exact Hwf|]. split; [exact Hinv|]. split; [exact I|].
    split; [exact I | reflexivity]. }
  destruct (mem_run_inv ops _ _ H0 Hrun) as (_ & ((Hf0 & _) & _) & _ & Hbl & Hfifo).
  split; [exact Hfifo|].
  split; [unfold pending; rewrite fwrite_length; lia|].
  unfold block_ok in Hbl. unfold unreleased. destruct (block m); lia.
Qed.

Lemma ring_buffer_fifo_witness :
  let ops := [MemPoiNew [1; 2; 3]; MemCopy; MemAdvanceNew;
              MemPoiOld; MemPoiNew [4; 5; 6]; MemSize 2; MemCopy; MemFwrite;
              MemAdvanceNew; MemAdvanceOld;
              MemPoiNew [7; 8]; MemPoiOld; MemSize 4; MemCopy; MemAdvanceNew;
              MemFwrite] in
  match mem_run ops (init_vrb_mem 5 6 (fun _ => 0)) with
  | Some m =>
      totsize (meta m) = 6 /\ front (meta m) = 2 /\ rear (meta m) = 2 /\
      written m = [1; 2; 3; 4; 5; 6] /\ pending m = [3; 4; 5; 6; 7; 8] /\
      unreleased m = 4 /\
      stored m = written m ++ drop (Z.to_nat (unreleased m)) (pending m) /\
      Z.of_nat (length (pending m)) = fillsize (meta m) /\
      0 <= unreleased m <= fillsize (meta m)
  | None => False
  end.
Proof.
  cbv zeta.
  destruct (mem_run _ (init_vrb_mem 5 6 (fun _ => 0))) as [m|] eqn:Hrun;
    [|vm_compute in Hrun; discriminate Hrun].
  assert (Hok : vrb_init_ok 5 6) by (unfold vrb_init_ok; rewrite long_max_val; lia).
  pose proof (ring_buffer_fifo 5 6 _ _ m Hok Hrun) as H.
  vm_compute in Hrun. injection Hrun as <-.
  do 6 (split; [reflexivity|]). exact H.
Defined.

(** X22. The two threads never touch the same byte at the same time: while the
    producer is copying a packet to the place [vrb_poi_new] gave it and the
    consumer is writing a block from the front, no byte of the packet's
    place is a byte of the block, although both are reached through the
    doubled mapping under no lock. *)
Theorem buffer_accesses_disjoint cfg evs σ i n p t :
  config_ok cfg -> run cfg evs (main_sys cfg) = Some σ ->
  ppc σ = PReserved i n (Some p) -> cpc σ = CWrite t ->
  forall j k, 0 <= j < n -> 0 <= k < t ->
    vrb_offset (totsize (ringbuffer (g σ))) (p + j)
    <> vrb_offset (totsize (ringbuffer (g σ))) (front (ringbuffer (g σ)) + k).
Proof.
  intros Hok Hrun Hp Hc j k Hj Hk.
  destruct (reachable_ptr_inv cfg evs σ Hok Hrun) as ((Hwf & Hinv & Hpi & Hci) & (Hpp & _)).
  rewrite Hp in Hpi, Hpp. rewrite Hc in Hci. cbn [ppc_inv cpc_inv] in *.
  destruct Hpi as (Hn & Hfit). specialize (Hfit eq_refl). subst p.
  pose proof (vrb_rear_range _ Hwf Hinv) as Hrear.
  destruct Hwf as (HT & H2 & Hfr). destruct Hinv as ((Hf0 & Hf1) & Hr).
  rewrite !vrb_offset_mod by lia. rewrite Hr, Zplus_mod_idemp_l. intros E.
  set (v := ringbuffer (g σ)) in *.
  assert (Hd : (front v + fillsize v + j - (front v + k)) mod totsize v = 0).
  { rewrite Zminus_mod, E, Z.sub_diag. apply Z.mod_0_l. lia. }
  rewrite Z.mod_small in Hd; lia.
Qed.

Lemma buffer_accesses_disjoint_witness :
  let h := sample_packet 1 15 in
  let evs := [EvRecv 0 8 h; EvReserve; EvStore; EvTally;
              EvCWake; EvCSnapStop; EvCFile; EvCClear; EvCSize; EvCOpen;
              EvRecv 1 8 h; EvReserve] in
  match run cfg_udp evs (main_sys cfg_udp) with
  | Some σ =>
      ppc σ = PReserved 1 8 (Some 8) /\ cpc σ = CWrite 8 /\
      front (ringbuffer (g σ)) = 0 /\
      vrb_offset (totsize (ringbuffer (g σ))) (8 + 0)
      <> vrb_offset (totsize (ringbuffer (g σ))) (front (ringbuffer (g σ)) + 7)
  | None => False
  end.
Proof.
  cbv zeta.
  destruct (run cfg_udp _ (main_sys cfg_udp)) as [σ|] eqn:Hrun;
    [|vm_compute in Hrun; discriminate Hrun].
  assert (Hp : ppc σ = PReserved 1 8 (Some 8))
    by (vm_compute in Hrun; injection Hrun as <-; reflexivity).
  assert (Hc : cpc σ = CWrite 8)
    by (vm_compute in Hrun; injection Hrun as <-; reflexivity).
  split; [exact Hp|]. split; [exact Hc|].
  split; [vm_compute in Hrun; injection Hrun as <-; reflexivity|].
  apply (buffer_accesses_disjoint cfg_udp _ σ 1 8 8 8 cfg_udp_ok Hrun Hp Hc); lia.
Defined.
